(** * Verification of the ScandEval benchmark core

    A shallow embedding of

    - [scandeval/sequence_classification.py]: numeric label mapping,
      few-shot example extraction and few-shot prompts, the two generative
      label resolvers ([get_closest_logprobs_labels],
      [get_closest_word_edit_labels]) with their dispatch, and the
      predictions and references that [_compute_metrics] gives the metrics;
    - [scandeval/question_answering.py]: the sliding-window preprocessing of
      extractive question answering ([prepare_train_examples],
      [prepare_test_examples]).

    Python exceptions are values of [exn]; a Python function that may raise
    returns a [result].  A [while] loop is a recursion on a bound [fuel] of
    its number of iterations, and [OutOfFuel] is the result of a loop that
    did not finish within its bound.  Dictionaries are [gmap]s, Python lists are lists,
    Python integers are [Z] and strings are [string]s (ASCII text, on which
    [str.lower], [str.lstrip] and [len] are the functions defined below). *)

From Stdlib Require Import ZArith Lia Ascii String.
From stdpp Require Import base option list gmap strings pretty.

Local Open Scope string_scope.
Local Open Scope list_scope.

(** ** Exceptions and results *)

Inductive exn : Type :=
| IndexError
| KeyError
| ValueError
| AttributeError
| StopIteration
| RuntimeError
| InvalidBenchmark (message : string).

Inductive result (A : Type) : Type :=
| Ok (a : A)
| Raise (e : exn)
| OutOfFuel.
Arguments Ok {A} a.
Arguments Raise {A} e.
Arguments OutOfFuel {A}.

#[global] Instance result_ret : MRet result := λ A, Ok.
#[global] Instance result_bind : MBind result :=
  λ A B f m,
    match m with Ok a => f a | Raise e => Raise e | OutOfFuel => OutOfFuel end.

Definition is_Ok {A} (r : result A) : Prop := ∃ a, r = Ok a.

(** [for x in xs: ys.append(f(x))], stopping at the first exception. *)
Fixpoint for_each {A B} (f : A → result B) (xs : list A) : result (list B) :=
  match xs with
  | [] => Ok []
  | x :: xs' => y ← f x; ys ← for_each f xs'; Ok (y :: ys)
  end.

(** ** Python sequences *)

(** [l[i]] with Python's negative indices; [IndexError] out of range. *)
Definition py_index {A} (l : list A) (i : Z) : result A :=
  let n := Z.of_nat (length l) in
  let j := if (i <? 0)%Z then (i + n)%Z else i in
  if (j <? 0)%Z then Raise IndexError
  else match l !! Z.to_nat j with
       | Some x => Ok x
       | None => Raise IndexError
       end.

(** [l.index(x)]: position of the first occurrence, else [ValueError]. *)
Fixpoint list_index_from (l : list Z) (x : Z) (i : Z) : result Z :=
  match l with
  | [] => Raise ValueError
  | y :: l' => if (y =? x)%Z then Ok i else list_index_from l' x (i + 1)%Z
  end.
Definition list_index (l : list Z) (x : Z) : result Z := list_index_from l x 0.

(** [d[k]] on a dictionary. *)
Definition dict_get {V} (d : gmap string V) (k : string) : result V :=
  match d !! k with
  | Some v => Ok v
  | None => Raise KeyError
  end.

(** ** Strings *)

Definition lower_ascii (c : ascii) : ascii :=
  let n := nat_of_ascii c in
  if (65 <=? n)%nat && (n <=? 90)%nat then ascii_of_nat (n + 32) else c.

(** [s.lower()] *)
Fixpoint lower (s : string) : string :=
  match s with
  | EmptyString => EmptyString
  | String c s' => String (lower_ascii c) (lower s')
  end.

Definition is_space (c : ascii) : bool :=
  let n := nat_of_ascii c in
  (n =? 32)%nat || ((9 <=? n)%nat && (n <=? 13)%nat)
  || ((28 <=? n)%nat && (n <=? 31)%nat).

(** [s.lstrip()] *)
Fixpoint lstrip (s : string) : string :=
  match s with
  | EmptyString => EmptyString
  | String c s' => if is_space c then lstrip s' else s
  end.

(** [len(s)] *)
Definition len (s : string) : Z := Z.of_nat (String.length s).

(** ** Selecting an extremal position *)

(** [torch.argmax] and [numpy.argmin] return the position of the first
    extremal entry.  [better x y] says that [y] replaces the best entry [x]
    seen so far. *)
Section ArgBest.
Context {A : Type} (better : A → A → bool).

Fixpoint arg_best_from (best_i : nat) (best : A) (i : nat) (l : list A) : nat :=
  match l with
  | [] => best_i
  | x :: l' =>
      if better best x then arg_best_from i x (S i) l'
      else arg_best_from best_i best (S i) l'
  end.

Definition arg_best (l : list A) : option nat :=
  match l with
  | [] => None
  | x :: l' => Some (arg_best_from 0 x 1 l')
  end.
End ArgBest.

(** [Levenshtein.distance(s1, s2)] of the Levenshtein package, with its default
    unit weights: the least number of single-character insertions, deletions
    and substitutions that turn [s1] into [s2], by the recurrence that defines
    it. *)
Fixpoint distance_list (s : list ascii) : list ascii → nat :=
  fix distance_from (t : list ascii) : nat :=
    match s, t with
    | [], _ => length t
    | _, [] => length s
    | a :: s', b :: t' =>
        let substitution := if Ascii.eqb a b then 0 else 1 in
        Nat.min (Nat.min (S (distance_list s' t)) (S (distance_from t')))
                (substitution + distance_list s' t')
    end.

Definition distance (s1 s2 : string) : nat :=
  distance_list (list_ascii_of_string s1) (list_ascii_of_string s2).

(** [numpy.argmin(l).item()]; [ValueError] on an empty sequence. *)
Definition argmin (l : list nat) : result Z :=
  match arg_best (λ best x, (x <? best)%nat) l with
  | Some i => Ok (Z.of_nat i)
  | None => Raise ValueError
  end.

(** * Sequence classification ([sequence_classification.py]) *)

(** The fields of [DatasetConfig] read by the functions below;
    [task_labels] is [dataset_config.task.labels]. *)
Record DatasetConfig : Type := {
  id2label : list string;
  prompt_label_mapping : gmap string string;
  task_labels : list string;
  num_few_shot_examples : Z
}.

(** ** Numeric label mapping *)

(** The Python values the exception handler of [_create_numerical_labels]
    touches: a column of a batch is a list, its entries are strings. *)
Inductive pyval : Type :=
| PyStr (s : string)
| PyList (l : list string).

(** [v.lower()]: a method of [str], not of [list]. *)
Definition py_lower (v : pyval) : result string :=
  match v with
  | PyStr s => Ok (lower s)
  | PyList _ => Raise AttributeError
  end.

(** [f"{label2id}"] *)
Definition dict_repr (label2id : gmap string Z) : string :=
  "{" +:+ String.concat ", "
            ((λ kv, "'" +:+ kv.1 +:+ "': " +:+ pretty kv.2) <$> map_to_list label2id)
      +:+ "}".

(** [_create_numerical_labels(examples, label2id)], on the ["label"] column
    of the batch [examples]; the result is the new ["label"] column. *)
Definition _create_numerical_labels (examples_label : list string)
    (label2id : gmap string Z) : result (list Z) :=
  match for_each (λ lbl, dict_get label2id (lower lbl)) examples_label with
  | Ok ids => Ok ids
  | Raise KeyError =>
      (* except KeyError: the message is built from examples['label'].lower() *)
      offending ← py_lower (PyList examples_label);
      Raise (InvalidBenchmark
               ("One of the labels in the dataset, " +:+ offending
                +:+ ", does not occur in the label2id dictionary "
                +:+ dict_repr label2id +:+ "."))
  | Raise e => Raise e
  | OutOfFuel => OutOfFuel
  end.

(** ** Few-shot example extraction *)

Record example : Type := { text : string; label : string }.

#[global] Instance example_eq_dec : EqDecision example.
Proof. solve_decision. Defined.

(** [next(labels)] for [labels = it.cycle(task.labels)], after [calls]
    earlier calls; cycling over no label at all stops the iteration. *)
Definition cycle_next (labels : list string) (calls : nat) : result string :=
  match labels !! (calls `mod` length labels) with
  | Some l => Ok l
  | None => Raise StopIteration
  end.

Section FewShot.
(** [Dataset.shuffle(seed=s)] and [random.seed(s); random.shuffle(l)] *)
Variable dataset_shuffle : Z → list example → list example.
Variable random_shuffle : Z → list example → list example.

(** The [while] loop of [_extract_few_shot_examples]. *)
Fixpoint few_shot_loop (fuel : nat) (num_few_shots : Z) (labels : list string)
    (calls : nat) (shuffled_train few_shot_examples : list example)
  : result (list example) :=
  if (Z.of_nat (length few_shot_examples) <? num_few_shots)%Z then
    match fuel with
    | O => OutOfFuel
    | S fuel' =>
        lbl ← cycle_next labels calls;
        match filter (λ x, lower (label x) = lower lbl) shuffled_train with
        | [] => Raise IndexError
        | ex :: _ =>
            few_shot_loop fuel' num_few_shots labels (S calls)
              (filter (λ x, text x ≠ text ex) shuffled_train)
              (few_shot_examples ++ [ex])
        end
    end
  else Ok few_shot_examples.

(** Every iteration appends one example, so the loop runs
    [num_few_shot_examples] times at most. *)
Definition _extract_few_shot_examples (cfg : DatasetConfig)
    (train_dataset : list example) (random_seed : Z) : result (list example) :=
  let shuffled_train := dataset_shuffle random_seed train_dataset in
  let num_few_shots := num_few_shot_examples cfg in
  few_shot_examples ←
    few_shot_loop (Z.to_nat num_few_shots) num_few_shots (task_labels cfg)
      0 shuffled_train [];
  Ok (random_shuffle random_seed few_shot_examples).
End FewShot.

(** ** Generative label resolution *)

Section Resolver.
(** Log-probabilities are compared, never computed with: [score] is any
    type of values with the comparison [ltb] (for floating-point numbers,
    [<] on values that are not NaN). *)
Context {score : Type} (ltb : score → score → bool).

(** [t.argmax()] of a one-dimensional tensor *)
Definition argmax (l : list score) : result Z :=
  match arg_best ltb l with
  | Some i => Ok (Z.of_nat i)
  | None => Raise IndexError
  end.

(** A tensor of shape [batch, vocabulary] is the list of its rows. *)
Definition tensor_shape (t : list (list score)) : nat * nat :=
  (length t, match t with row :: _ => length row | [] => 0%nat end).

(** [torch.stack(ts, dim=1)]: of shape [batch, len(ts), vocabulary]; the
    tensors must be of one shape and [ts] must not be empty. *)
Definition stack (ts : list (list (list score)))
  : result (list (list (list score))) :=
  match ts with
  | [] => Raise RuntimeError
  | t :: ts' =>
      if forallb (λ t', bool_decide (tensor_shape t' = tensor_shape t)) ts'
      then Ok (imap (λ b row, row :: omap (λ t', t' !! b) ts') t)
      else Raise RuntimeError
  end.

(** [all_logprobs[:, 0, candidate_label_id]] *)
Definition first_step_column (all_logprobs : list (list (list score)))
    (candidate_label_id : Z) : result (list score) :=
  for_each (λ item, step0 ← py_index item 0; py_index step0 candidate_label_id)
           all_logprobs.

(** The [for idx, candidate_label in enumerate(candidate_labels)] loop:
    [pred_logprobs] holds the columns [0 .. idx-1] already written. *)
Fixpoint fill_columns (tokenizer : list string → list (list Z))
    (all_logprobs : list (list (list score))) (candidate_labels : list string)
    (pred_logprobs : list (list score)) : result (list (list score)) :=
  match candidate_labels with
  | [] => Ok pred_logprobs
  | candidate_label :: rest =>
      let candidate_label_ids := tokenizer [lower candidate_label] in
      ids0 ← py_index candidate_label_ids 0;
      candidate_label_id ← py_index ids0 0;
      column ← first_step_column all_logprobs candidate_label_id;
      fill_columns tokenizer all_logprobs rest
        (zip_with (λ row x, row ++ [x]) pred_logprobs column)
  end.

(** [pred_logprobs.argmax(dim=1)], for [pred_logprobs] of [ncols] columns *)
Definition argmax_dim1 (ncols : nat) (pred_logprobs : list (list score))
  : result (list Z) :=
  if (ncols =? 0)%nat then Raise IndexError else for_each argmax pred_logprobs.

Definition get_closest_logprobs_labels
    (generation_logprobs : list (list (list score)))
    (tokenizer : list string → list (list Z)) (dataset_config : DatasetConfig)
  : result (list string) :=
  candidate_labels ←
    for_each (dict_get (prompt_label_mapping dataset_config))
             (id2label dataset_config);
  all_logprobs ← stack generation_logprobs;
  pred_logprobs ←
    fill_columns tokenizer all_logprobs candidate_labels
      (replicate (length all_logprobs) []);
  predicted_label_ids ← argmax_dim1 (length candidate_labels) pred_logprobs;
  for_each (py_index candidate_labels) predicted_label_ids.
End Resolver.

(** The edit distances of one raw prediction to the candidate labels. *)
Definition edit_distances (candidate_labels : list string) (predicted_label : string)
  : list nat :=
  (λ candidate_label, distance (lower predicted_label) (lower candidate_label))
    <$> candidate_labels.

Definition closest_label (candidate_labels : list string) (predicted_label : string)
  : result string :=
  i ← argmin (edit_distances candidate_labels predicted_label);
  py_index candidate_labels i.

(** [get_closest_word_edit_labels]; [raw_predictions] is the result of
    [extract_raw_predictions] of the module [generation] on the generated
    sequences. *)
Definition get_closest_word_edit_labels (raw_predictions : list string)
    (dataset_config : DatasetConfig) : result (list string) :=
  let candidate_labels := id2label dataset_config in
  for_each (closest_label candidate_labels) raw_predictions.

(** * Question answering ([question_answering.py]) *)

(** One feature (Window) of a tokenised batch: [input_ids[i]],
    [sequence_ids(i)] ([None], [0] for the question, [1] for the context) and
    [offset_mapping[i]]. *)
Record Encoding : Type := {
  input_ids : list Z;
  sequence_ids : list (option Z);
  offset_mapping : list (Z * Z)
}.

Record BatchEncoding : Type := {
  encodings : list Encoding;
  overflow_to_sample_mapping : list Z
}.

(** [answers["answer_start"]] and [answers["text"]] of one example *)
Record Answers : Type := {
  answer_start : list Z;
  answer_text : list string
}.

(** The columns of a batch of examples. *)
Record Examples : Type := {
  questions : list string;   (* examples["question"] *)
  contexts : list string;    (* examples["context"] *)
  answers : list Answers;    (* examples["answers"] *)
  ids : list string          (* examples["id"] *)
}.

(** The tokenizer: its attributes and its call
    [tokenizer(questions, contexts, truncation="only_second",
    max_length=..., stride=..., return_overflowing_tokens=True,
    return_offsets_mapping=True, padding="max_length")], as a function of
    the questions, the contexts, [max_length] and [stride]. *)
Record Tokenizer : Type := {
  model_max_length : Z;
  cls_token_id : Z;
  tokenize : list string → list string → Z → Z → result BatchEncoding
}.

(** The first lines of both [prepare_train_examples] and
    [prepare_test_examples]: left-strip the questions, compute the stride
    and tokenise. *)
Definition window_stride (tokenizer : Tokenizer) : Z :=
  (model_max_length tokenizer `div` 4)%Z.
Definition window_max_length (tokenizer : Tokenizer) : Z :=
  (model_max_length tokenizer - window_stride tokenizer)%Z.

Definition tokenize_examples (examples : Examples) (tokenizer : Tokenizer)
  : result BatchEncoding :=
  let stripped := lstrip <$> questions examples in
  let stride := window_stride tokenizer in
  let max_length := window_max_length tokenizer in
  tokenize tokenizer stripped (contexts examples) max_length stride.

(** [while sequence_ids[token_start_index] != 1: token_start_index += 1] *)
Fixpoint context_start (fuel : nat) (sequence_ids : list (option Z))
    (token_start_index : Z) : result Z :=
  sid ← py_index sequence_ids token_start_index;
  if bool_decide (sid ≠ Some 1%Z) then
    match fuel with
    | O => OutOfFuel
    | S fuel' => context_start fuel' sequence_ids (token_start_index + 1)
    end
  else Ok token_start_index.

(** [while sequence_ids[token_end_index] != 1: token_end_index -= 1] *)
Fixpoint context_end (fuel : nat) (sequence_ids : list (option Z))
    (token_end_index : Z) : result Z :=
  sid ← py_index sequence_ids token_end_index;
  if bool_decide (sid ≠ Some 1%Z) then
    match fuel with
    | O => OutOfFuel
    | S fuel' => context_end fuel' sequence_ids (token_end_index - 1)
    end
  else Ok token_end_index.

(** [while token_start_index < len(offsets)
           and offsets[token_start_index][0] <= start_char:
        token_start_index += 1] *)
Fixpoint move_start (fuel : nat) (offsets : list (Z * Z)) (start_char : Z)
    (token_start_index : Z) : result Z :=
  if (token_start_index <? Z.of_nat (length offsets))%Z then
    o ← py_index offsets token_start_index;
    if (o.1 <=? start_char)%Z then
      match fuel with
      | O => OutOfFuel
      | S fuel' => move_start fuel' offsets start_char (token_start_index + 1)
      end
    else Ok token_start_index
  else Ok token_start_index.

(** [while offsets[token_end_index][1] >= end_char: token_end_index -= 1] *)
Fixpoint move_end (fuel : nat) (offsets : list (Z * Z)) (end_char : Z)
    (token_end_index : Z) : result Z :=
  o ← py_index offsets token_end_index;
  if (o.2 >=? end_char)%Z then
    match fuel with
    | O => OutOfFuel
    | S fuel' => move_end fuel' offsets end_char (token_end_index - 1)
    end
  else Ok token_end_index.

(** A bound on the iterations of each loop over one feature: an index moves
    by one per iteration and stays within the negative and the non-negative
    indices of the lists. *)
Definition window_fuel (e : Encoding) : nat :=
  2 * (length (input_ids e) + length (sequence_ids e) + length (offset_mapping e)) + 2.

(** [start_char] and [end_char] of the answer. *)
Definition answer_char_range (a : Answers) : result (Z * Z) :=
  start_char ← py_index (answer_start a) 0;
  text0 ← py_index (answer_text a) 0;
  Ok (start_char, (start_char + len text0)%Z).

(** The body of the loop of [prepare_train_examples] from the test on the
    answers on: the pair appended to [start_positions] and [end_positions]. *)
Definition locate_answer (e : Encoding) (cls_index : Z) (a : Answers)
  : result (Z * Z) :=
  let offsets := offset_mapping e in
  if (length (answer_start a) =? 0)%nat then Ok (cls_index, cls_index)
  else
    '(start_char, end_char) ← answer_char_range a;
    token_start_index ← context_start (window_fuel e) (sequence_ids e) 0;
    token_end_index ←
      context_end (window_fuel e) (sequence_ids e)
        (Z.of_nat (length (input_ids e)) - 1);
    first_offsets ← py_index offsets token_start_index;
    bracketed ←
      (if (first_offsets.1 <=? start_char)%Z then
         last_offsets ← py_index offsets token_end_index;
         Ok (last_offsets.2 >=? end_char)%Z
       else Ok false);
    if negb bracketed then Ok (cls_index, cls_index)
    else
      token_start_index ←
        move_start (window_fuel e) offsets start_char token_start_index;
      token_end_index ←
        move_end (window_fuel e) offsets end_char token_end_index;
      Ok ((token_start_index - 1)%Z, (token_end_index + 1)%Z).

(** One iteration of [for i, offsets in enumerate(offset_mapping)]. *)
Definition label_window (cls_token_id : Z) (answers_column : list Answers)
    (sample_mapping : list Z) (i : nat) (e : Encoding) : result (Z * Z) :=
  cls_index ← list_index (input_ids e) cls_token_id;
  sample_index ← py_index sample_mapping (Z.of_nat i);
  a ← py_index answers_column sample_index;
  locate_answer e cls_index a.

(** [for i, x in enumerate(xs)] *)
Fixpoint for_each_indexed {A B} (f : nat → A → result B) (i : nat) (xs : list A)
  : result (list B) :=
  match xs with
  | [] => Ok []
  | x :: xs' => y ← f i x; ys ← for_each_indexed f (S i) xs'; Ok (y :: ys)
  end.

Record TrainOutputs : Type := {
  train_features : list Encoding;
  start_positions : list Z;
  end_positions : list Z
}.

Definition prepare_train_examples (examples : Examples) (tokenizer : Tokenizer)
  : result TrainOutputs :=
  tokenized_examples ← tokenize_examples examples tokenizer;
  let sample_mapping := overflow_to_sample_mapping tokenized_examples in
  positions ←
    for_each_indexed
      (label_window (cls_token_id tokenizer) (answers examples) sample_mapping)
      0 (encodings tokenized_examples);
  Ok {| train_features := encodings tokenized_examples;
        start_positions := fst <$> positions;
        end_positions := snd <$> positions |}.

(** One iteration of the loop of [prepare_test_examples]: the id appended
    and the feature with its masked offsets. *)
Definition mask_window (id_column : list string) (sample_mapping : list Z) (i : nat)
    (e : Encoding) : result (string * Encoding) :=
  let context_index := 1%Z in
  sample_index ← py_index sample_mapping (Z.of_nat i);
  example_id ← py_index id_column sample_index;
  masked ←
    for_each_indexed
      (λ k o, sid ← py_index (sequence_ids e) (Z.of_nat k);
              Ok (if bool_decide (sid = Some context_index) then o
                  else ((-1)%Z, (-1)%Z)))
      0 (offset_mapping e);
  Ok (example_id,
      {| input_ids := input_ids e; sequence_ids := sequence_ids e;
         offset_mapping := masked |}).

Record TestOutputs : Type := {
  test_features : list Encoding;
  feature_ids : list string
}.

Definition prepare_test_examples (examples : Examples) (tokenizer : Tokenizer)
  : result TestOutputs :=
  tokenized_examples ← tokenize_examples examples tokenizer;
  let sample_mapping := overflow_to_sample_mapping tokenized_examples in
  windows ←
    for_each_indexed (mask_window (ids examples) sample_mapping)
      0 (encodings tokenized_examples);
  Ok {| test_features := snd <$> windows; feature_ids := fst <$> windows |}.

(** ** The tokenizer's sliding window *)

(** The context tokens of a feature: the entries tagged [1], each with its
    character offsets. *)
Definition context_tokens (e : Encoding) : list (Z * (Z * Z)) :=
  (filter (λ p, p.2 = Some 1%Z)
          (zip (zip (input_ids e) (offset_mapping e)) (sequence_ids e))).*1.

Section SlidingTokenizer.
(** The tokenizer is not part of the repository.  Its call is modelled from
    sections 4.1 and 6 of the specification: a (question, context) pair is
    laid out question first and context second between special tokens, only
    the context is truncated, the overflow is carried into further Windows
    that start [stride] context tokens before the end of the previous one,
    every Window is padded to [max_length], and special and padding tokens
    carry the offsets [(0, 0)].  [encode] gives the tokens of a text, each an
    id with its character offsets. *)
Variable encode : string → list (Z * (Z * Z)).
Variables cls sep pad : Z.

(** Modelled from the spec: the Window of the question tokens [q] and the
    context tokens [w], padded to [max_length]. *)
Definition make_encoding (max_length : nat) (q w : list (Z * (Z * Z)))
  : Encoding :=
  let npad := max_length - (3 + length q + length w) in
  {| input_ids :=
       cls :: q.*1 ++ sep :: w.*1 ++ sep :: replicate npad pad;
     sequence_ids :=
       None :: (const (Some 0%Z) <$> q) ++ None :: (const (Some 1%Z) <$> w)
            ++ None :: replicate npad None;
     offset_mapping :=
       (0, 0)%Z :: q.*2 ++ (0, 0)%Z :: w.*2 ++ (0, 0)%Z
               :: replicate npad (0, 0)%Z |}.

(** Modelled from the spec: the context tokens of the [k]-th Window, for a
    room of [cap] context tokens per Window. *)
Definition context_window (cap stride : nat) (ct : list (Z * (Z * Z))) (k : nat)
  : list (Z * (Z * Z)) :=
  take cap (drop (k * (cap - stride)) ct).

(** Modelled from the spec: the number of Windows that cover [len] context
    tokens. *)
Definition window_count (cap stride len : nat) : nat :=
  S ((len - cap + (cap - stride - 1)) / (cap - stride)).

(** Modelled from the spec: the Windows of one (question, context) pair;
    the stride must leave room for context tokens that are not shared. *)
Definition encode_pair (max_length stride : Z) (q c : string)
  : result (list Encoding) :=
  let qt := encode q in
  let ct := encode c in
  let cap := (max_length - 3 - Z.of_nat (length qt))%Z in
  if (0 <=? stride)%Z && (stride <? cap)%Z then
    Ok ((λ k, make_encoding (Z.to_nat max_length) qt
                (context_window (Z.to_nat cap) (Z.to_nat stride) ct k))
          <$> seq 0 (window_count (Z.to_nat cap) (Z.to_nat stride) (length ct)))
  else Raise ValueError.

(** Modelled from the spec: the call of the tokenizer on a batch; the
    Windows of the examples in order, each with the index of its example. *)
Definition sliding_tokenize (qs cs : list string) (max_length stride : Z)
  : result BatchEncoding :=
  if (length qs =? length cs)%nat then
    per_example ←
      for_each (λ qc, encode_pair max_length stride qc.1 qc.2) (zip qs cs);
    Ok {| encodings := concat per_example;
          overflow_to_sample_mapping :=
            concat (imap (λ i es, replicate (length es) (Z.of_nat i))
                         per_example) |}
  else Raise ValueError.

(** Modelled from the spec: a tokenizer of maximum length [max_len]. *)
Definition sliding_tokenizer (max_len : Z) : Tokenizer :=
  {| model_max_length := max_len;
     cls_token_id := cls;
     tokenize := sliding_tokenize |}.
End SlidingTokenizer.

(** A tokenizer of single characters, to run the functions on. *)
Definition char_tokens (s : string) : list (Z * (Z * Z)) :=
  imap (λ i c, (Z.of_nat (nat_of_ascii c), (Z.of_nat i, Z.of_nat (S i))))
       (list_ascii_of_string s).

(** * Notions used in the statements *)

(** Two answer columns agree on their first spans: each example has the
    same answers in both, or a first span [(s, t)] in both. *)
Definition same_first_span (a a' : Answers) : Prop :=
  a = a' ∨
  ∃ s ss ss' t ts ts',
    a = {| answer_start := s :: ss; answer_text := t :: ts |} ∧
    a' = {| answer_start := s :: ss'; answer_text := t :: ts' |}.

(** The representative token of a candidate label:
    [tokenizer([candidate_label.lower()], ...)["input_ids"][0][0]]. *)
Definition first_token (tokenizer : list string → list (list Z))
    (candidate_label : string) : result Z :=
  ids0 ← py_index (tokenizer [lower candidate_label]) 0;
  py_index ids0 0.

(** [scores] are the entries of the row [row] of log-probabilities at the
    token ids [ids]. *)
Definition row_scores {score} (ids : list Z) (row scores : list score) : Prop :=
  Forall2 (λ id s, py_index row id = Ok s) ids scores.

(** Two Windows share [s] context tokens: the last [s] context tokens of
    the first are the first [s] context tokens of the second. *)
Definition shared_context (s : nat) (e1 e2 : Encoding) : Prop :=
  (s ≤ length (context_tokens e1))%nat ∧ (s ≤ length (context_tokens e2))%nat ∧
  drop (length (context_tokens e1) - s) (context_tokens e1)
  = take s (context_tokens e2).

(** The Window [e'] holds the tokens and the context of the Window [e]. *)
Definition same_window (e e' : Encoding) : Prop :=
  input_ids e' = input_ids e ∧ sequence_ids e' = sequence_ids e ∧
  context_tokens e' = context_tokens e.

(** A Window as a tokenizer returns it for an Example with the answers
    [a]: it holds the CLS token and a context token, its token ids, sequence
    ids and offsets are aligned, and, when there is an answer, the answer has
    a text and some token of the Window ends before the end of the answer
    (as a special token with offsets [(0, 0)] does for an answer that ends
    after the start of the context). *)
Definition aligned_window (cls_token_id : Z) (e : Encoding) (a : Answers)
  : Prop :=
  cls_token_id ∈ input_ids e ∧
  length (sequence_ids e) = length (input_ids e) ∧
  length (offset_mapping e) = length (input_ids e) ∧
  Some 1%Z ∈ sequence_ids e ∧
  (answer_start a = [] ∨
   ∃ start_char end_char,
     answer_char_range a = Ok (start_char, end_char) ∧
     ∃ o, o ∈ offset_mapping e ∧ (o.2 < end_char)%Z).

(** The first and the last context token of a Window. *)
Definition first_context_token (e : Encoding) (k : nat) : Prop :=
  sequence_ids e !! k = Some (Some 1%Z) ∧
  ∀ j, (j < k)%nat → sequence_ids e !! j ≠ Some (Some 1%Z).
Definition last_context_token (e : Encoding) (k : nat) : Prop :=
  sequence_ids e !! k = Some (Some 1%Z) ∧
  ∀ j, (k < j)%nat → sequence_ids e !! j ≠ Some (Some 1%Z).

(** [(p, q)] are the start and end positions of a Window for an answer that
    runs from the character [start_char] to the character [end_char].  When
    the first context token starts after [start_char] or the last context
    token ends before [end_char], both are the position of the first CLS
    token.  Otherwise every token from the first context token to [p]
    starts at or before [start_char] and the token after [p], if there is
    one, starts after it; every token from [q] to the last context token
    ends at or after [end_char] and the token before [q] ends before it. *)
Definition positions_of_range (cls_token_id : Z) (e : Encoding)
    (start_char end_char p q : Z) : Prop :=
  ∃ cls_index ctx_first ctx_last first_offsets last_offsets,
    input_ids e !! cls_index = Some cls_token_id ∧
    (∀ j, (j < cls_index)%nat → input_ids e !! j ≠ Some cls_token_id) ∧
    first_context_token e ctx_first ∧ last_context_token e ctx_last ∧
    offset_mapping e !! ctx_first = Some first_offsets ∧
    offset_mapping e !! ctx_last = Some last_offsets ∧
    (((start_char < first_offsets.1 ∨ last_offsets.2 < end_char)%Z ∧
      p = Z.of_nat cls_index ∧ q = Z.of_nat cls_index) ∨
     ((first_offsets.1 <= start_char ∧ end_char <= last_offsets.2)%Z ∧
      (Z.of_nat ctx_first <= p < Z.of_nat (length (offset_mapping e)))%Z ∧
      (∀ j, (Z.of_nat ctx_first <= j <= p)%Z →
         ∃ o, py_index (offset_mapping e) j = Ok o ∧ (o.1 <= start_char)%Z) ∧
      ((p + 1 < Z.of_nat (length (offset_mapping e)))%Z →
       ∃ o, py_index (offset_mapping e) (p + 1) = Ok o ∧
            (start_char < o.1)%Z) ∧
      (q <= Z.of_nat ctx_last)%Z ∧
      (∀ j, (q <= j <= Z.of_nat ctx_last)%Z →
         ∃ o, py_index (offset_mapping e) j = Ok o ∧ (end_char <= o.2)%Z) ∧
      (∃ o, py_index (offset_mapping e) (q - 1) = Ok o ∧
            (o.2 < end_char)%Z))).

(** * Sample inputs *)

(** [[CLS] q [SEP] ab cd [SEP]]: a Window over the context ["ab cd"] cut
    into the words [ab] and [cd]. *)
Definition two_word_window : Encoding :=
  {| input_ids := [101; 7; 102; 8; 9; 102]%Z;
     sequence_ids := [None; Some 0; None; Some 1; Some 1; None]%Z;
     offset_mapping := [(0, 0); (0, 1); (0, 0); (0, 2); (3, 5); (0, 0)]%Z |}.

Definition answer_cd : Answers :=
  {| answer_start := [3%Z]; answer_text := ["cd"] |}.
Definition answer_far : Answers :=
  {| answer_start := [40%Z]; answer_text := ["zz"] |}.
Definition no_answer : Answers :=
  {| answer_start := []; answer_text := [] |}.

Definition unanswerable_batch : Examples :=
  {| questions := ["  q"]; contexts := ["ab cd ef gh ij"];
     answers := [no_answer]; ids := ["x"] |}.
Definition answerable_batch (more_starts : list Z) (more_texts : list string)
  : Examples :=
  {| questions := ["  q"]; contexts := ["ab cd ef gh ij"];
     answers := [{| answer_start := 3%Z :: more_starts;
                    answer_text := "cd" :: more_texts |}];
     ids := ["x"] |}.

Definition char_tokenizer (max_len : Z) : Tokenizer :=
  sliding_tokenizer char_tokens 101 102 0 max_len.

(** The Windows of [unanswerable_batch] for a model of 16 tokens, and the
    second of them. *)
Definition sample_tokenized : BatchEncoding :=
  Eval vm_compute in
    match tokenize_examples unanswerable_batch (char_tokenizer 16) with
    | Ok t => t
    | _ => {| encodings := []; overflow_to_sample_mapping := [] |}
    end.
Definition sample_window : Encoding :=
  Eval vm_compute in
    default two_word_window (encodings sample_tokenized !! 1).

Definition sentiment_config (mapping : gmap string string) (labels : list string)
    (shots : Z) : DatasetConfig :=
  {| id2label := ["positive"; "negative"];
     prompt_label_mapping := mapping;
     task_labels := labels;
     num_few_shot_examples := shots |}.

Definition sentiment_label2id : gmap string Z :=
  <["positive" := 0%Z]> (<["negative" := 1%Z]> ∅).

(** Danish prompt labels for the canonical labels, a tokenizer that knows
    the two of them ([negativ] in two tokens) and log-probabilities (in
    thousandths) of two batch items over a vocabulary of three tokens, for
    two generation steps. *)
Definition danish_mapping : gmap string string :=
  <["positive" := "positiv"]> (<["negative" := "negativ"]> ∅).

Definition word_tokenizer (texts : list string) : list (list Z) :=
  (λ s, if String.eqb s "positiv" then [1%Z]
        else if String.eqb s "negativ" then [2%Z; 0%Z]
        else []) <$> texts.

Definition sample_step0 : list (list Z) :=
  [[-9000; -500; -2000]; [-9000; -700; -700]]%Z.
Definition sample_step1 : list (list Z) :=
  [[-100; -3000; -4000]; [-4000; -3000; -100]]%Z.
Definition sample_logprobs : list (list (list Z)) := [sample_step0; sample_step1].

(** A training split with one positive and two negative reviews, and
    shuffles that reverse the order whatever the seed. *)
Definition sample_train : list example :=
  [ {| text := "great"; label := "Positive" |};
    {| text := "awful"; label := "negative" |};
    {| text := "bad"; label := "Negative" |} ].

Definition reversing_shuffle {A} (seed : Z) (l : list A) : list A := reverse l.

Definition few_shot_config : DatasetConfig :=
  sentiment_config ∅ ["negative"; "positive"] 3.

(** A tokenizer whose CLS token id is not among the tokens it produces. *)
Definition clsless_tokenizer : Tokenizer :=
  {| model_max_length := 16;
     cls_token_id := 999;
     tokenize := sliding_tokenize char_tokens 101 102 0 |}.

(** The first Window of [sample_tokenized]. *)
Definition first_sample_window : Encoding :=
  Eval vm_compute in
    default two_word_window (encodings sample_tokenized !! 0).

Definition empty_answer_at_0 : Answers :=
  {| answer_start := [0%Z]; answer_text := [""] |}.
Definition empty_answer_at_1 : Answers :=
  {| answer_start := [1%Z]; answer_text := [""] |}.
Definition answer_ab : Answers :=
  {| answer_start := [0%Z]; answer_text := ["ab"] |}.

(** [[CLS] q [SEP]]: a Window without context tokens. *)
Definition question_only_window : Encoding :=
  {| input_ids := [101; 7; 102]%Z;
     sequence_ids := [None; Some 0; None]%Z;
     offset_mapping := [(0, 0); (0, 1); (0, 0)]%Z |}.

(** The Windows of the evaluation pass over [unanswerable_batch]. *)
Definition sample_test_outputs : TestOutputs :=
  Eval vm_compute in
    match prepare_test_examples unanswerable_batch (char_tokenizer 16) with
    | Ok out => out
    | _ => {| test_features := []; feature_ids := [] |}
    end.

(** * Metric inputs and prompts ([sequence_classification.py]) *)

(** ** Labels from generated output *)

(** The fields of the [ModelOutput] of a generation read by
    [_extract_labels_from_generation]; a field that was not returned is no
    key of the output. *)
Record ModelOutput (score : Type) : Type := {
  scores : option (list (list (list score)));
  sequences : option (list (list Z))
}.
Arguments scores {score} _.
Arguments sequences {score} _.

Section ExtractLabels.
Context {score : Type} (ltb : score → score → bool).
(** [extract_raw_predictions] of the module [generation], for the tokenizer
    and the dataset configuration of the call. *)
Variable extract_raw_predictions : list (list Z) → list string.

(** [_extract_labels_from_generation(input_batch, model_output, tokenizer)];
    the function does not read [input_batch]. *)
Definition _extract_labels_from_generation (model_output : ModelOutput score)
    (tokenizer : list string → list (list Z)) (dataset_config : DatasetConfig)
  : result (list string) :=
  match scores model_output with
  | Some generation_logprobs =>
      get_closest_logprobs_labels ltb generation_logprobs tokenizer
        dataset_config
  | None =>
      generated_sequences ←
        match sequences model_output with
        | Some s => Ok s
        | None => Raise KeyError
        end;
      get_closest_word_edit_labels (extract_raw_predictions generated_sequences)
        dataset_config
  end.
End ExtractLabels.

(** ** The predictions and references given to the metrics *)

(** A model output that is no array of logits, or a reference label: a
    string or a class index. *)
Inductive label_value : Type :=
| LabelStr (s : string)
| LabelInt (i : Z).

(** [l.index(x)] on a list of strings. *)
Fixpoint str_index_from (l : list string) (x : string) (i : Z) : result Z :=
  match l with
  | [] => Raise ValueError
  | y :: l' => if String.eqb y x then Ok i else str_index_from l' x (i + 1)%Z
  end.
Definition str_index (l : list string) (x : string) : result Z :=
  str_index_from l x 0.

(** [{prompt_label: label for label, prompt_label in items}]: of two items
    with one prompt label the later one stays. *)
Definition invert_mapping (items : list (string * string))
  : gmap string string :=
  foldl (λ acc item, <[item.2 := item.1]> acc) ∅ items.

(** [id2label.index(prompt_label_to_label_mapping[pred.lower()])
     if isinstance(pred, str) else pred] *)
Definition prediction_index (id2label : list string)
    (prompt_label_to_label_mapping : gmap string string) (pred : label_value)
  : result Z :=
  match pred with
  | LabelStr s =>
      label ← dict_get prompt_label_to_label_mapping (lower s);
      str_index id2label label
  | LabelInt i => Ok i
  end.

(** [id2label.index(label.lower()) if isinstance(label, str) else label] *)
Definition reference_index (id2label : list string) (label : label_value)
  : result Z :=
  match label with
  | LabelStr s => str_index id2label (lower s)
  | LabelInt i => Ok i
  end.

(** [_compute_metrics] up to the call of the metrics, on model outputs that
    are strings or class indices: the [predictions] and [references] that
    every metric is computed on.  [prompt_label_items] is
    [dataset_config.prompt_label_mapping.items()], the entries of the
    dictionary in its own order.  numpy gives an empty list of model outputs
    a floating point [dtype], and the [argmax] of an empty array raises. *)
Definition _compute_metrics (prompt_label_items : list (string * string))
    (model_outputs labels : list label_value) (id2label : list string)
  : result (list Z * list Z) :=
  predictions ←
    match model_outputs with
    | [] => Raise ValueError
    | _ => Ok model_outputs
    end;
  let prompt_label_to_label_mapping := invert_mapping prompt_label_items in
  predictions ←
    for_each (prediction_index id2label prompt_label_to_label_mapping)
      predictions;
  labels ← for_each (reference_index id2label) labels;
  Ok (predictions, labels).

(** ** Few-shot prompts *)

(** [s.replace(old, new)] for strings [old] and [new] of one character *)
Fixpoint replace_char (old new : ascii) (s : string) : string :=
  match s with
  | EmptyString => EmptyString
  | String c s' =>
      String (if Ascii.eqb c old then new else c) (replace_char old new s')
  end.

(** [s.rstrip()] and [s.strip()] *)
Fixpoint rstrip (s : string) : string :=
  match s with
  | EmptyString => EmptyString
  | String c s' =>
      match rstrip s' with
      | EmptyString => if is_space c then EmptyString else String c EmptyString
      | kept => String c kept
      end
  end.
Definition strip (s : string) : string := lstrip (rstrip s).

Definition newline : ascii := "010"%char.
Definition blank_line : string := String newline (String newline EmptyString).

Section FewShotPrompt.
(** [prompt_template.format(text=t, label=l)] and [prompt_prefix] of the
    dataset configuration. *)
Variable prompt_template_format : string → string → string.
Variable prompt_prefix : string.

(** [_apply_few_shot_prompt(examples, few_shot_examples)] on the ["text"]
    column of the batch [examples]; the result is the new ["text"] column. *)
Definition _apply_few_shot_prompt (dataset_config : DatasetConfig)
    (examples_text : list string) (few_shot_examples : list example)
  : result (list string) :=
  let label_mapping := prompt_label_mapping dataset_config in
  few_shot_prompts ←
    for_each
      (λ example,
         let text_arg := strip (replace_char newline " " (text example)) in
         label_arg ← dict_get label_mapping (lower (label example));
         Ok (prompt_template_format text_arg label_arg))
      few_shot_examples;
  let prefix :=
    if bool_decide (prompt_prefix = "") then ""
    else prompt_prefix +:+ blank_line in
  let few_shot_prompt := prefix +:+ String.concat blank_line few_shot_prompts in
  let new_prompts :=
    (λ text, strip (prompt_template_format
                      (strip (replace_char newline " " text)) ""))
      <$> examples_text in
  Ok ((λ new_prompt, few_shot_prompt +:+ blank_line +:+ new_prompt)
        <$> new_prompts).
End FewShotPrompt.

(** A generation with log-probabilities and one without, the raw
    predictions being one misspelt word per sequence; the entries of
    [danish_mapping]; reference labels for two items. *)
Definition scored_output : ModelOutput Z :=
  {| scores := Some sample_logprobs; sequences := None |}.
Definition unscored_output : ModelOutput Z :=
  {| scores := None; sequences := Some [[7; 8]; [9]]%Z |}.
Definition misspelt_predictions (generated_sequences : list (list Z))
  : list string :=
  (λ _, "Negetive") <$> generated_sequences.
Definition danish_items : list (string * string) :=
  Eval vm_compute in map_to_list danish_mapping.
Definition danish_config : DatasetConfig :=
  sentiment_config danish_mapping ["positive"; "negative"] 0.
Definition sample_references : list label_value :=
  [LabelStr "Positive"; LabelInt 1].

(** A prompt template with a line for the text and one for the label, a
    configuration with a prompt label for each label of the task, and the
    few-shot examples drawn for it from [sample_train]. *)
Definition sample_template (text label : string) : string :=
  "Text: " +:+ text +:+ String newline ("Label: " +:+ label).
Definition prompted_config : DatasetConfig :=
  sentiment_config danish_mapping ["negative"; "positive"] 2.
Definition sampled_few_shots : list example :=
  Eval vm_compute in
    match _extract_few_shot_examples reversing_shuffle reversing_shuffle
            prompted_config sample_train 4242 with
    | Ok picks => picks
    | _ => []
    end.

(** * Properties *)

(** ** Results and loops *)

Lemma bind_Ok {A B} (m : result A) (f : A → result B) b :
  m ≫= f = Ok b ↔ ∃ a, m = Ok a ∧ f a = Ok b.
Proof.
  destruct m as [a|e|]; simpl; split.
  - eauto.
  - intros (a' & [= ->] & H). exact H.
  - discriminate.
  - intros (a' & H & _). discriminate.
  - discriminate.
  - intros (a' & H & _). discriminate.
Qed.

Ltac inv_bind H :=
  repeat match type of H with
         | _ ≫= _ = Ok _ =>
             let a := fresh "a" in
             let Ha := fresh "Ha" in
             apply bind_Ok in H as (a & Ha & H)
         end.

Lemma for_each_Ok_lookup {A B} (f : A → result B) xs ys i x :
  for_each f xs = Ok ys → xs !! i = Some x →
  ∃ y, f x = Ok y ∧ ys !! i = Some y.
Proof.
  revert ys i. induction xs as [|x0 xs IH]; intros ys i H Hx; [done|].
  simpl in H. inv_bind H. injection H as <-.
  destruct i as [|i]; simpl in *.
  - injection Hx as ->. eauto.
  - eapply IH; eauto.
Qed.

Lemma for_each_Ok_length {A B} (f : A → result B) xs ys :
  for_each f xs = Ok ys → length ys = length xs.
Proof.
  revert ys. induction xs as [|x xs IH]; intros ys H; simpl in H.
  - by injection H as <-.
  - inv_bind H. injection H as <-. simpl. f_equal. by apply IH.
Qed.

Lemma for_each_Ok_Forall2 {A B} (f : A → result B) xs ys :
  for_each f xs = Ok ys ↔ Forall2 (λ x y, f x = Ok y) xs ys.
Proof.
  split.
  - revert ys. induction xs as [|x xs IH]; intros ys H; simpl in H.
    + injection H as <-. constructor.
    + inv_bind H. injection H as <-. constructor; auto.
  - induction 1 as [|x y xs ys Hxy _ IH]; simpl; [done|].
    by rewrite Hxy, IH.
Qed.

Lemma for_each_indexed_Ok_lookup {A B} (f : nat → A → result B) n xs ys i x :
  for_each_indexed f n xs = Ok ys → xs !! i = Some x →
  ∃ y, f (n + i) x = Ok y ∧ ys !! i = Some y.
Proof.
  revert n ys i. induction xs as [|x0 xs IH]; intros n ys i H Hx; [done|].
  simpl in H. inv_bind H. injection H as <-.
  destruct i as [|i]; simpl in *.
  - injection Hx as ->. rewrite Nat.add_0_r. eauto.
  - replace (n + S i) with (S n + i) by lia. eapply IH; eauto.
Qed.

Lemma for_each_indexed_ext {A B} (f g : nat → A → result B) n xs :
  (∀ i x, f i x = g i x) → for_each_indexed f n xs = for_each_indexed g n xs.
Proof.
  intros H. revert n. induction xs as [|x xs IH]; intros n; simpl; [done|].
  by rewrite H, IH.
Qed.

Lemma py_index_nat {A} (l : list A) (i : nat) :
  py_index l (Z.of_nat i) =
  match l !! i with Some x => Ok x | None => Raise IndexError end.
Proof.
  unfold py_index.
  destruct (Z.ltb_spec (Z.of_nat i) 0) as [?|_]; [lia|].
  destruct (Z.ltb_spec (Z.of_nat i) 0) as [?|_]; [lia|].
  by rewrite Nat2Z.id.
Qed.

Lemma py_index_not_OutOfFuel {A} (l : list A) i : py_index l i ≠ OutOfFuel.
Proof.
  unfold py_index. destruct (_ <? 0)%Z; [done|]. by destruct (l !! _).
Qed.

(** An index below [-len(l)] or from [len(l)] on raises. *)
Lemma py_index_out_of_range {A} (l : list A) i :
  (i < - Z.of_nat (length l) ∨ Z.of_nat (length l) <= i)%Z →
  py_index l i = Raise IndexError.
Proof.
  intros H. unfold py_index.
  destruct (Z.ltb_spec i 0).
  - destruct (Z.ltb_spec (i + Z.of_nat (length l)) 0); [done|lia].
  - destruct (Z.ltb_spec i 0); [lia|].
    rewrite lookup_ge_None_2; [done|lia].
Qed.

Lemma py_index_Ok_range {A} (l : list A) i x :
  py_index l i = Ok x → (- Z.of_nat (length l) <= i < Z.of_nat (length l))%Z.
Proof.
  intros H.
  destruct (Z_lt_ge_dec i (- Z.of_nat (length l))) as [Hlo|Hlo];
    [rewrite py_index_out_of_range in H by lia; discriminate|].
  destruct (Z_le_gt_dec (Z.of_nat (length l)) i) as [Hhi|Hhi];
    [rewrite py_index_out_of_range in H by lia; discriminate|].
  lia.
Qed.

(** ** The loops over one Window finish within their bound *)

Lemma context_start_bound fuel l i :
  (0 <= i)%Z → (Z.of_nat (length l) - i <= Z.of_nat fuel)%Z →
  context_start fuel l i ≠ OutOfFuel ∧
  ∀ r, context_start fuel l i = Ok r → (i <= r)%Z.
Proof.
  revert i. induction fuel as [|fuel IH]; intros i Hi Hf.
  - simpl. rewrite (py_index_out_of_range l i) by lia. by split.
  - simpl. destruct (py_index l i) as [sid| |] eqn:E; simpl; [|done|].
    + case_bool_decide.
      * destruct (IH (i + 1)%Z) as [H1 H2]; [lia..|].
        split; [done|]. intros r Hr. specialize (H2 r Hr). lia.
      * split; [done|]. intros r [= <-]. lia.
    + by apply py_index_not_OutOfFuel in E.
Qed.

Lemma context_end_bound fuel l i :
  (i + Z.of_nat (length l) < Z.of_nat fuel)%Z →
  context_end fuel l i ≠ OutOfFuel ∧
  ∀ r, context_end fuel l i = Ok r → (r <= i)%Z.
Proof.
  revert i. induction fuel as [|fuel IH]; intros i Hf.
  - simpl. rewrite (py_index_out_of_range l i) by lia. by split.
  - simpl. destruct (py_index l i) as [sid| |] eqn:E; simpl; [|done|].
    + case_bool_decide.
      * destruct (IH (i - 1)%Z) as [H1 H2]; [lia|].
        split; [done|]. intros r Hr. specialize (H2 r Hr). lia.
      * split; [done|]. intros r [= <-]. lia.
    + by apply py_index_not_OutOfFuel in E.
Qed.

Lemma move_start_bound fuel offsets start_char i :
  (Z.of_nat (length offsets) - i <= Z.of_nat fuel)%Z →
  move_start fuel offsets start_char i ≠ OutOfFuel.
Proof.
  revert i. induction fuel as [|fuel IH]; intros i Hf.
  - simpl. destruct (Z.ltb_spec i (Z.of_nat (length offsets))); [lia|done].
  - simpl. destruct (Z.ltb_spec i (Z.of_nat (length offsets))); [|done].
    destruct (py_index offsets i) as [o| |] eqn:E; simpl; [|done|].
    + destruct (o.1 <=? start_char)%Z; [|done]. apply IH. lia.
    + by apply py_index_not_OutOfFuel in E.
Qed.

Lemma move_end_bound fuel offsets end_char i :
  (i + Z.of_nat (length offsets) < Z.of_nat fuel)%Z →
  move_end fuel offsets end_char i ≠ OutOfFuel.
Proof.
  revert i. induction fuel as [|fuel IH]; intros i Hf.
  - simpl. rewrite (py_index_out_of_range offsets i) by lia. done.
  - simpl. destruct (py_index offsets i) as [o| |] eqn:E; simpl; [|done|].
    + destruct (o.2 >=? end_char)%Z; [|done]. apply IH. lia.
    + by apply py_index_not_OutOfFuel in E.
Qed.

Lemma answer_char_range_not_OutOfFuel a : answer_char_range a ≠ OutOfFuel.
Proof.
  unfold answer_char_range.
  destruct (py_index (answer_start a) 0) eqn:E1; simpl; [|done|].
  - destruct (py_index (answer_text a) 0) eqn:E2; simpl; [done..|].
    by apply py_index_not_OutOfFuel in E2.
  - by apply py_index_not_OutOfFuel in E1.
Qed.

(** Labelling a Window always ends: with a pair or with an exception. *)
Lemma locate_answer_total e cls_index a : locate_answer e cls_index a ≠ OutOfFuel.
Proof.
  unfold locate_answer.
  destruct (length (answer_start a) =? 0)%nat; [done|].
  destruct (answer_char_range a) as [[start_char end_char]| |] eqn:Er; simpl;
    [|done|by apply answer_char_range_not_OutOfFuel in Er].
  destruct (context_start_bound (window_fuel e) (sequence_ids e) 0) as [Hs1 Hs2];
    [lia|unfold window_fuel; lia|].
  destruct (context_start _ _ _) as [ts| |] eqn:Es; simpl; [|done..].
  specialize (Hs2 ts eq_refl).
  destruct (context_end_bound (window_fuel e) (sequence_ids e)
              (Z.of_nat (length (input_ids e)) - 1)) as [He1 He2];
    [unfold window_fuel; lia|].
  destruct (context_end _ _ _) as [te| |] eqn:Ee; simpl; [|done..].
  specialize (He2 te eq_refl).
  destruct (py_index (offset_mapping e) ts) as [fo| |] eqn:Efo; simpl;
    [|done|by apply py_index_not_OutOfFuel in Efo].
  destruct (fo.1 <=? start_char)%Z.
  - destruct (py_index (offset_mapping e) te) as [lo| |] eqn:Elo; simpl;
      [|done|by apply py_index_not_OutOfFuel in Elo].
    destruct (lo.2 >=? end_char)%Z; simpl; [|done].
    pose proof (move_start_bound (window_fuel e) (offset_mapping e) start_char ts) as Hm.
    destruct (move_start _ _ _ _) as [ts'| |]; simpl;
      [|done|by exfalso; apply Hm; [unfold window_fuel; lia|]].
    pose proof (move_end_bound (window_fuel e) (offset_mapping e) end_char te) as Hn.
    destruct (move_end _ _ _ _) as [te'| |]; simpl;
      [done|done|by exfalso; apply Hn; [unfold window_fuel; lia|]].
  - done.
Qed.

(** Labelling a Window always ends as well. *)
Lemma label_window_total cls_token_id answers_column sample_mapping i e :
  label_window cls_token_id answers_column sample_mapping i e ≠ OutOfFuel.
Proof.
  unfold label_window.
  destruct (list_index _ _) as [cls_index| |] eqn:Hcls; simpl; [|done|].
  - destruct (py_index sample_mapping _) as [sample_index| |] eqn:Hs; simpl;
      [|done|by apply py_index_not_OutOfFuel in Hs].
    destruct (py_index answers_column _) as [a| |] eqn:Ha; simpl;
      [|done|by apply py_index_not_OutOfFuel in Ha].
    apply locate_answer_total.
  - unfold list_index in Hcls. revert Hcls. generalize 0%Z.
    induction (input_ids e) as [|y l IH]; intros z; simpl; [done|].
    destruct (y =? cls_token_id)%Z; [done|]. apply IH.
Qed.

(** ** Labelling the Windows of a training pass *)

Lemma py_index_Forall2 {A} (R : A → A → Prop) l l' i :
  Forall2 R l l' →
  (py_index l i = Raise IndexError ∧ py_index l' i = Raise IndexError) ∨
  ∃ x x', py_index l i = Ok x ∧ py_index l' i = Ok x' ∧ R x x'.
Proof.
  intros HR. unfold py_index. rewrite <- (Forall2_length _ _ _ HR).
  destruct (_ <? 0)%Z; [by left|].
  destruct (l !! _) as [x|] eqn:E.
  - destruct (Forall2_lookup_l _ _ _ _ _ HR E) as (x' & -> & Hx). right. eauto.
  - left. split; [done|].
    destruct (l' !! _) as [x'|] eqn:E'; [|done].
    destruct (Forall2_lookup_r _ _ _ _ _ HR E') as (x & Hx & _). congruence.
Qed.

Lemma locate_answer_first_span e cls_index a a' :
  same_first_span a a' → locate_answer e cls_index a = locate_answer e cls_index a'.
Proof.
  intros [->|(s & ss & ss' & t & ts & ts' & -> & ->)]; reflexivity.
Qed.

Lemma label_window_first_span cls_token_id col col' sample_mapping i e :
  Forall2 same_first_span col col' →
  label_window cls_token_id col sample_mapping i e =
  label_window cls_token_id col' sample_mapping i e.
Proof.
  intros H. unfold label_window.
  destruct (list_index _ _) as [cls_index| |]; simpl; [|done..].
  destruct (py_index sample_mapping _) as [sample_index| |]; simpl; [|done..].
  destruct (py_index_Forall2 _ _ _ sample_index H)
    as [[-> ->]|(a & a' & -> & -> & Ha)]; simpl; [done|].
  by apply locate_answer_first_span.
Qed.

(** C7: in a training pass, a Window of an Example whose list of answer
    spans is empty is labelled with the index of the CLS token of the Window
    (the no-answer sentinel) as its start and as its end position: that is
    the result of labelling the Window, and the entry for the Window in the
    start and end positions of every pass over the batch. *)
Theorem empty_answers_sentinel examples tokenizer tokenized i e cls_index
    sample_index a :
  tokenize_examples examples tokenizer = Ok tokenized →
  encodings tokenized !! i = Some e →
  list_index (input_ids e) (cls_token_id tokenizer) = Ok cls_index →
  py_index (overflow_to_sample_mapping tokenized) (Z.of_nat i) = Ok sample_index →
  py_index (answers examples) sample_index = Ok a →
  answer_start a = [] →
  label_window (cls_token_id tokenizer) (answers examples)
    (overflow_to_sample_mapping tokenized) i e = Ok (cls_index, cls_index) ∧
  ∀ out, prepare_train_examples examples tokenizer = Ok out →
    start_positions out !! i = Some cls_index ∧
    end_positions out !! i = Some cls_index.
Proof.
  intros Htok He Hcls Hsample Ha Hempty.
  assert (label_window (cls_token_id tokenizer) (answers examples)
            (overflow_to_sample_mapping tokenized) i e = Ok (cls_index, cls_index))
    as Hlabel.
  { unfold label_window. rewrite Hcls. simpl. rewrite Hsample. simpl.
    rewrite Ha. simpl. unfold locate_answer. by rewrite Hempty. }
  split; [exact Hlabel|].
  intros out Hout. unfold prepare_train_examples in Hout.
  rewrite Htok in Hout. simpl in Hout. inv_bind Hout. injection Hout as <-.
  destruct (for_each_indexed_Ok_lookup _ _ _ _ _ _ Ha0 He) as (y & Hy & Hlook).
  simpl in Hy. rewrite Hlabel in Hy. injection Hy as <-. simpl.
  rewrite !list_lookup_fmap, Hlook. done.
Qed.

Lemma empty_answers_sentinel_witness :
  label_window 101 [no_answer] (overflow_to_sample_mapping sample_tokenized) 1
    sample_window = Ok (0, 0)%Z ∧
  ∀ out, prepare_train_examples unanswerable_batch (char_tokenizer 16) = Ok out →
    start_positions out !! 1 = Some 0%Z ∧ end_positions out !! 1 = Some 0%Z.
Proof.
  apply (empty_answers_sentinel unanswerable_batch (char_tokenizer 16)
           sample_tokenized 1 sample_window 0%Z 0%Z no_answer);
    vm_compute; reflexivity.
Defined.

(** The further answer spans of an Example have no effect on a training
    pass: two batches that differ in these further spans only give the same
    result, be it the positions or an exception. *)
Lemma prepare_train_examples_first_span examples examples' tokenizer :
  questions examples = questions examples' →
  contexts examples = contexts examples' →
  Forall2 same_first_span (answers examples) (answers examples') →
  prepare_train_examples examples tokenizer
  = prepare_train_examples examples' tokenizer.
Proof.
  intros Hq Hc Ha.
  unfold prepare_train_examples, tokenize_examples. rewrite Hq, Hc.
  destruct (tokenize _ _ _ _ _) as [tokenized| |]; simpl; [|done..].
  rewrite (for_each_indexed_ext _
             (label_window (cls_token_id tokenizer) (answers examples')
                (overflow_to_sample_mapping tokenized))); [done|].
  intros i e. by apply label_window_first_span.
Qed.

(** The scans for the context of a Window stop at its first and at its last
    context token. *)
Lemma context_start_first fuel l i r :
  context_start fuel l i = Ok r →
  py_index l r = Ok (Some 1%Z) ∧
  ∀ j, (i <= j < r)%Z → py_index l j ≠ Ok (Some 1%Z).
Proof.
  revert i. induction fuel as [|fuel IH]; intros i H; simpl in H.
  - destruct (py_index l i) as [sid| |] eqn:E; simpl in H; [|done..].
    case_bool_decide as Hsid; [done|]. injection H as <-.
    subst sid. split; [done|]. intros j. lia.
  - destruct (py_index l i) as [sid| |] eqn:E; simpl in H; [|done..].
    case_bool_decide as Hsid.
    + destruct (IH _ H) as [H1 H2]. split; [done|].
      intros j Hj. destruct (decide (j = i)) as [->|]; [congruence|].
      apply H2. lia.
    + injection H as <-. subst sid.
      split; [done|]. intros j. lia.
Qed.

Lemma context_end_last fuel l i r :
  context_end fuel l i = Ok r →
  py_index l r = Ok (Some 1%Z) ∧
  ∀ j, (r < j <= i)%Z → py_index l j ≠ Ok (Some 1%Z).
Proof.
  revert i. induction fuel as [|fuel IH]; intros i H; simpl in H.
  - destruct (py_index l i) as [sid| |] eqn:E; simpl in H; [|done..].
    case_bool_decide as Hsid; [done|]. injection H as <-.
    subst sid. split; [done|]. intros j. lia.
  - destruct (py_index l i) as [sid| |] eqn:E; simpl in H; [|done..].
    case_bool_decide as Hsid.
    + destruct (IH _ H) as [H1 H2]. split; [done|].
      intros j Hj. destruct (decide (j = i)) as [->|]; [congruence|].
      apply H2. lia.
    + injection H as <-. subst sid.
      split; [done|]. intros j. lia.
Qed.

(** C2, as the code has it: in a training pass, a Window whose first
    context token starts after the start character of the answer, or whose
    last context token ends before the end character of the answer, is
    labelled with the index of its CLS token as start and as end position.
    The start and end token indices computed otherwise are emitted as they
    are, without being compared with each other. *)
Theorem unbracketed_answer_sentinel cls_token_id answers_column sample_mapping
    i e cls_index sample_index a start_char end_char first_token last_token
    first_offsets last_offsets :
  list_index (input_ids e) cls_token_id = Ok cls_index →
  py_index sample_mapping (Z.of_nat i) = Ok sample_index →
  py_index answers_column sample_index = Ok a →
  answer_char_range a = Ok (start_char, end_char) →
  context_start (window_fuel e) (sequence_ids e) 0 = Ok first_token →
  context_end (window_fuel e) (sequence_ids e)
    (Z.of_nat (length (input_ids e)) - 1) = Ok last_token →
  py_index (offset_mapping e) first_token = Ok first_offsets →
  py_index (offset_mapping e) last_token = Ok last_offsets →
  (start_char < first_offsets.1 ∨ last_offsets.2 < end_char)%Z →
  label_window cls_token_id answers_column sample_mapping i e
  = Ok (cls_index, cls_index).
Proof.
  intros Hcls Hsample Ha Hrange Hs He Hfo Hlo Hout.
  unfold label_window. rewrite Hcls. simpl. rewrite Hsample. simpl.
  rewrite Ha. simpl. unfold locate_answer.
  destruct (length (answer_start a) =? 0)%nat; [done|].
  rewrite Hrange. simpl. rewrite Hs. simpl. rewrite He. simpl.
  rewrite Hfo. simpl.
  destruct (Z.leb_spec first_offsets.1 start_char) as [H1|H1]; [|done].
  rewrite Hlo. simpl.
  destruct (Z.geb_spec last_offsets.2 end_char) as [H2|H2]; [lia|done].
Qed.

Lemma unbracketed_answer_sentinel_witness :
  label_window 101 [answer_far] [0%Z] 0 two_word_window = Ok (0, 0)%Z.
Proof.
  apply (unbracketed_answer_sentinel 101 [answer_far] [0%Z] 0 two_word_window
           0%Z 0%Z answer_far 40%Z 42%Z 3%Z 4%Z (0, 2)%Z (3, 5)%Z);
    try reflexivity.
  right. simpl. lia.
Defined.

(** C2 as stated fails: the function compares no start with an end.  For
    an empty answer at character 1 of the first Window of
    [sample_tokenized], between the context tokens at the positions 3 (the
    characters 0 to 1) and 4 (the characters 1 to 2), the offsets bracket
    the answer; the forward scan stops at the token 5, the first that starts
    after character 1, and the backward scan at the token 2, the last that
    ends before it; the pair emitted is [(4, 3)], a start after its end, not
    the position [0] of the CLS token twice. *)
Lemma empty_answer_start_after_end :
  list_index (input_ids first_sample_window) 101 = Ok 0%Z ∧
  context_start (window_fuel first_sample_window)
    (sequence_ids first_sample_window) 0 = Ok 3%Z ∧
  context_end (window_fuel first_sample_window)
    (sequence_ids first_sample_window)
    (Z.of_nat (length (input_ids first_sample_window)) - 1) = Ok 10%Z ∧
  py_index (offset_mapping first_sample_window) 3 = Ok (0, 1)%Z ∧
  py_index (offset_mapping first_sample_window) 10 = Ok (7, 8)%Z ∧
  answer_char_range empty_answer_at_1 = Ok (1, 1)%Z ∧
  label_window 101 [empty_answer_at_1] [0%Z] 0 first_sample_window
  = Ok (4, 3)%Z ∧
  (3 < 4)%Z ∧
  label_window 101 [empty_answer_at_1] [0%Z] 0 first_sample_window
  ≠ Ok (0, 0)%Z.
Proof. repeat split; try (vm_compute; reflexivity). discriminate. Qed.

(** The answer ["cd"] is the last word of the Window [two_word_window]: the
    forward scan goes on over the closing special token, whose offsets are
    [(0, 0)], to the end of the Window, and the pair emitted is [(5, 4)]. *)
Example last_word_start_on_closing_token :
  label_window 101 [answer_cd] [0%Z] 0 two_word_window = Ok (5, 4)%Z.
Proof. reflexivity. Qed.

(** ** Edit distances *)

Example distance_kitten : distance "kitten" "sitting" = 3.
Proof. vm_compute. reflexivity. Qed.

(** C4, as the code has it: for the decoded text ["Negetive"] and the
    candidate labels ["positive"] and ["negative"], the case-insensitive edit
    distances are 4 and 1, and the edit-distance strategy returns
    ["negative"]. *)
Theorem negetive_resolves_to_negative mapping labels shots :
  edit_distances ["positive"; "negative"] "Negetive" = [4; 1] ∧
  get_closest_word_edit_labels ["Negetive"]
    (sentiment_config mapping labels shots) = Ok ["negative"].
Proof. split; vm_compute; reflexivity. Qed.

(** C4 as stated fails: the distance of ["Negetive"] to ["positive"] is not
    8 (the four letters [nege] are substituted by [posi]). *)
Lemma negetive_positive_distance_not_8 :
  distance (lower "Negetive") (lower "positive") = 4 ∧
  edit_distances ["positive"; "negative"] "Negetive" ≠ [8; 1].
Proof. split; [vm_compute; reflexivity|]. vm_compute. discriminate. Qed.

(** ** Numeric label mapping *)

Lemma missing_label_KeyError (label2id : gmap string Z) examples_label :
  (∃ lbl, lbl ∈ examples_label ∧ label2id !! lower lbl = None) →
  for_each (λ lbl, dict_get label2id (lower lbl)) examples_label = Raise KeyError.
Proof.
  intros (lbl & Hin & Hnone).
  induction examples_label as [|l ls IH]; [by apply elem_of_nil in Hin|].
  simpl. destruct (label2id !! lower l) as [v|] eqn:E.
  - assert (dict_get label2id (lower l) = Ok v) as ->
      by (unfold dict_get; by rewrite E).
    simpl. apply elem_of_cons in Hin as [->|Hin]; [congruence|].
    by rewrite IH.
  - assert (dict_get label2id (lower l) = Raise KeyError) as ->
      by (unfold dict_get; by rewrite E).
    done.
Qed.

(** A label missing from the mapping never gives [InvalidBenchmark]: the
    handler of the [KeyError] calls [lower] on the list of labels. *)
Lemma missing_label_AttributeError (label2id : gmap string Z) examples_label :
  (∃ lbl, lbl ∈ examples_label ∧ label2id !! lower lbl = None) →
  _create_numerical_labels examples_label label2id = Raise AttributeError.
Proof.
  intros H. unfold _create_numerical_labels.
  by rewrite missing_label_KeyError.
Qed.

(** C5 on the code: the label ["foo"] is missing from the mapping of
    ["positive"] and ["negative"], and the call ends with an
    [AttributeError], not with an [InvalidBenchmark] that names the label and
    the mapping. *)
Theorem missing_label_foo :
  sentiment_label2id !! lower "foo" = None ∧
  _create_numerical_labels ["foo"] sentiment_label2id = Raise AttributeError ∧
  ∀ message,
    _create_numerical_labels ["foo"] sentiment_label2id
    ≠ Raise (InvalidBenchmark message).
Proof.
  split; [vm_compute; reflexivity|].
  assert (_create_numerical_labels ["foo"] sentiment_label2id
          = Raise AttributeError) as ->; [|by split].
  apply missing_label_AttributeError. exists "foo". split; [by constructor|].
  vm_compute. reflexivity.
Qed.

Example known_labels_mapped :
  _create_numerical_labels ["Positive"; "NEGATIVE"] sentiment_label2id
  = Ok [0; 1]%Z.
Proof. vm_compute. reflexivity. Qed.

(** ** The first extremal position *)

Lemma arg_best_from_lt {A} (better : A → A → bool) l bi b i :
  bi < i → arg_best_from better bi b i l < i + length l.
Proof.
  revert bi b i. induction l as [|x l IH]; intros bi b i Hi; simpl; [lia|].
  destruct (better b x).
  - specialize (IH i x (S i)). lia.
  - specialize (IH bi b (S i)). lia.
Qed.

Lemma arg_best_lt {A} (better : A → A → bool) l i :
  arg_best better l = Some i → i < length l.
Proof.
  destruct l as [|x l]; [done|]. intros [= <-]. simpl.
  pose proof (arg_best_from_lt better l 0 x 1). lia.
Qed.

Lemma arg_best_is_Some {A} (better : A → A → bool) l :
  l ≠ [] → is_Some (arg_best better l).
Proof. destruct l; [done|]. intros _. simpl. eauto. Qed.

Section ArgBestOrder.
Context {A : Type} (better : A → A → bool).
(** [better x y] reads [x < y] for [argmax] and [y < x] for [argmin]: a
    strict order whose incomparable elements are the ties. *)
Hypothesis better_irrefl : ∀ a, better a a = false.
Hypothesis better_trans :
  ∀ a b c, better a b = true → better b c = true → better a c = true.
Hypothesis better_neg_trans :
  ∀ a b c, better a b = false → better b c = false → better a c = false.

Lemma arg_best_from_spec l pre bi b :
  pre !! bi = Some b →
  (∀ j y, pre !! j = Some y → better b y = false) →
  (∀ j y, j < bi → pre !! j = Some y → better y b = true) →
  ∃ br, (pre ++ l) !! arg_best_from better bi b (length pre) l = Some br ∧
    (∀ j y, (pre ++ l) !! j = Some y → better br y = false) ∧
    (∀ j y, j < arg_best_from better bi b (length pre) l →
            (pre ++ l) !! j = Some y → better y br = true).
Proof.
  revert pre bi b. induction l as [|x l IH]; intros pre bi b Hb Hmax Hfirst.
  - simpl. rewrite app_nil_r. eauto.
  - simpl. destruct (better b x) eqn:Hbx.
    + destruct (IH (pre ++ [x]) (length pre) x) as (br & H1 & H2 & H3).
      * by rewrite lookup_app_r, Nat.sub_diag by lia.
      * intros j y Hj. apply lookup_app_Some in Hj as [Hj|[_ Hj]].
        -- destruct (better x y) eqn:Hxy; [|done].
           pose proof (Hmax j y Hj) as Hby.
           by rewrite (better_trans _ _ _ Hbx Hxy) in Hby.
        -- apply list_lookup_singleton_Some in Hj as [_ <-]. apply better_irrefl.
      * intros j y Hlt Hj. rewrite lookup_app_l in Hj by lia.
        destruct (better y x) eqn:Hyx; [done|].
        rewrite (better_neg_trans _ _ _ (Hmax j y Hj) Hyx) in Hbx. done.
      * rewrite length_app in *. simpl in *. rewrite Nat.add_1_r in *.
        rewrite <- app_assoc in *. simpl in *. eauto.
    + destruct (IH (pre ++ [x]) bi b) as (br & H1 & H2 & H3).
      * apply lookup_app_l_Some. done.
      * intros j y Hj. apply lookup_app_Some in Hj as [Hj|[_ Hj]]; [eauto|].
        by apply list_lookup_singleton_Some in Hj as [_ <-].
      * intros j y Hlt Hj. apply (Hfirst j y Hlt).
        apply lookup_lt_Some in Hb.
        by rewrite lookup_app_l in Hj by lia.
      * rewrite length_app in *. simpl in *. rewrite Nat.add_1_r in *.
        rewrite <- app_assoc in *. simpl in *. eauto.
Qed.

(** The position selected holds an entry that none beats, and every
    entry before it is beaten by it: the first extremal entry. *)
Lemma arg_best_spec l i :
  arg_best better l = Some i →
  ∃ b, l !! i = Some b ∧
    (∀ j y, l !! j = Some y → better b y = false) ∧
    (∀ j y, j < i → l !! j = Some y → better y b = true).
Proof.
  destruct l as [|x l]; [done|]. intros [= <-].
  apply (arg_best_from_spec l [x] 0 x).
  - done.
  - intros j y Hj. apply list_lookup_singleton_Some in Hj as [_ <-].
    apply better_irrefl.
  - intros j y Hj. lia.
Qed.
End ArgBestOrder.

(** ** Iterations that succeed *)

Lemma for_each_is_Ok {A B} (f : A → result B) xs :
  (∀ x, x ∈ xs → is_Ok (f x)) → is_Ok (for_each f xs).
Proof.
  induction xs as [|x xs IH]; intros H; simpl; [by eexists|].
  destruct (H x) as [y ->]; [by constructor|]. simpl.
  destruct IH as [ys ->]; [|by eexists].
  intros z Hz. apply H. by constructor.
Qed.

Lemma for_each_Ok_lookup_r {A B} (f : A → result B) xs ys i y :
  for_each f xs = Ok ys → ys !! i = Some y →
  ∃ x, xs !! i = Some x ∧ f x = Ok y.
Proof.
  intros H Hy. apply for_each_Ok_Forall2 in H.
  destruct (Forall2_lookup_r _ _ _ _ _ H Hy) as (x & Hx & Hf). eauto.
Qed.

Lemma for_each_imap {A B C} (h : B → result C) (g : A → result C)
    (f : nat → A → B) l :
  (∀ i x, h (f i x) = g x) → for_each h (imap f l) = for_each g l.
Proof.
  revert f. induction l as [|x l IH]; intros f H; simpl; [done|].
  rewrite H. rewrite (IH (f ∘ S)); [done|]. intros i y. apply H.
Qed.

(** ** The log-probability strategy *)

Section ResolverFacts.
Context {score : Type} (ltb : score → score → bool).

Lemma row_scores_functional ids (row s1 s2 : list score) :
  row_scores ids row s1 → row_scores ids row s2 → s1 = s2.
Proof.
  unfold row_scores. intros H1. revert s2.
  induction H1 as [|id s ids s1 Hs _ IH]; intros s2 H2.
  - by apply Forall2_nil_inv_l in H2.
  - apply Forall2_cons_inv_l in H2 as (s' & s2' & Hs' & H2 & ->).
    f_equal; [congruence|]. by apply IH.
Qed.

Lemma row_scores_length ids (row s : list score) :
  row_scores ids row s → length s = length ids.
Proof. intros H. symmetry. by eapply Forall2_length. Qed.

(** Only the first tensor of [generation_logprobs] is read after
    stacking: the column of a token id runs over its rows. *)
Lemma stacked_first_step (t : list (list score))
    (ts' : list (list (list score))) id :
  first_step_column (imap (λ b row, row :: omap (λ t', t' !! b) ts') t) id
  = for_each (λ row, py_index row id) t.
Proof. unfold first_step_column. by apply for_each_imap. Qed.

Lemma stack_Ok (gl : list (list (list score))) al :
  stack gl = Ok al →
  ∃ t rest, gl = t :: rest ∧ length al = length t ∧
    ∀ id, first_step_column al id = for_each (λ row, py_index row id) t.
Proof.
  destruct gl as [|t rest]; [done|]. simpl.
  destruct (forallb _ rest); [|done]. intros [= <-].
  exists t, rest. split; [done|]. split; [by rewrite length_imap|].
  apply stacked_first_step.
Qed.

Lemma stack_cons (t : list (list score)) rest :
  Forall (λ t', tensor_shape t' = tensor_shape t) rest →
  ∃ al, stack (t :: rest) = Ok al.
Proof.
  intros H. simpl.
  assert (forallb (λ t', bool_decide (tensor_shape t' = tensor_shape t)) rest
          = true) as ->; [|by eexists].
  induction H as [|t' rest Ht _ IH]; simpl; [done|].
  by rewrite bool_decide_eq_true_2, IH.
Qed.

Section Columns.
Variable tokenizer : list string → list (list Z).
Variable all_logprobs : list (list (list score)).
Variable t : list (list score).
Hypothesis all_logprobs_length : length all_logprobs = length t.
Hypothesis all_logprobs_column :
  ∀ id, first_step_column all_logprobs id = for_each (λ row, py_index row id) t.

Lemma fill_columns_is_Ok candidate_labels pred :
  length pred = length t →
  (∀ c, c ∈ candidate_labels →
     ∃ id, first_token tokenizer c = Ok id ∧
           ∀ row, row ∈ t → is_Ok (py_index row id)) →
  is_Ok (fill_columns tokenizer all_logprobs candidate_labels pred).
Proof.
  revert pred. induction candidate_labels as [|c cs IH]; intros pred Hlen H.
  - simpl. by eexists.
  - simpl. destruct (H c) as (id & Hid & Hrows); [by constructor|].
    unfold first_token in Hid. inv_bind Hid. rewrite Ha. simpl.
    rewrite Hid. simpl. rewrite all_logprobs_column.
    destruct (for_each_is_Ok (λ row, py_index row id) t Hrows) as [col Hcol].
    rewrite Hcol. simpl. apply IH.
    + apply for_each_Ok_length in Hcol.
      rewrite length_zip_with. lia.
    + intros c' Hc'. apply H. by constructor.
Qed.

Lemma fill_columns_Ok candidate_labels pred out :
  fill_columns tokenizer all_logprobs candidate_labels pred = Ok out →
  length pred = length t →
  ∃ ids, Forall2 (λ c id, first_token tokenizer c = Ok id) candidate_labels ids ∧
    length out = length t ∧
    ∀ b p row, pred !! b = Some p → t !! b = Some row →
      ∃ scores, row_scores ids row scores ∧ out !! b = Some (p ++ scores).
Proof.
  revert pred out.
  induction candidate_labels as [|c cs IH]; intros pred out H Hlen.
  - simpl in H. injection H as <-. exists []. split; [constructor|].
    split; [done|]. intros b p row Hp _. exists [].
    split; [constructor|]. by rewrite app_nil_r.
  - simpl in H. inv_bind H. rename a into ids0, a0 into id, a1 into col.
    rewrite all_logprobs_column in Ha1.
    pose proof (for_each_Ok_length _ _ _ Ha1) as Hcol.
    destruct (IH _ _ H) as (ids & Hids & Hout & Hrows).
    { rewrite length_zip_with. lia. }
    exists (id :: ids). split.
    { constructor; [|done]. unfold first_token. rewrite Ha. simpl. done. }
    split; [done|]. intros b p row Hp Hrow.
    destruct (for_each_Ok_lookup _ _ _ _ _ Ha1 Hrow) as (s & Hs & Hcs).
    destruct (Hrows b (p ++ [s]) row) as (scores & Hscores & Hb); [|done|].
    { apply lookup_zip_with_Some. eauto. }
    exists (s :: scores). split; [by constructor|].
    by rewrite <- app_assoc in Hb.
Qed.
End Columns.
End ResolverFacts.

Arguments stack {score} ts : simpl never.

Section LogprobsFacts.
Context {score : Type} (ltb : score → score → bool).

(** What a successful call of [get_closest_logprobs_labels] has done. *)
Lemma get_closest_logprobs_labels_Ok generation_logprobs tokenizer cfg out :
  get_closest_logprobs_labels ltb generation_logprobs tokenizer cfg = Ok out →
  ∃ t rest candidate_labels ids,
    generation_logprobs = t :: rest ∧
    for_each (dict_get (prompt_label_mapping cfg)) (id2label cfg)
    = Ok candidate_labels ∧
    candidate_labels ≠ [] ∧
    Forall2 (λ c id, first_token tokenizer c = Ok id) candidate_labels ids ∧
    length out = length t ∧
    ∀ b row, t !! b = Some row →
      ∃ scores i c,
        row_scores ids row scores ∧ arg_best ltb scores = Some i ∧
        candidate_labels !! i = Some c ∧ out !! b = Some c.
Proof.
  intros H. unfold get_closest_logprobs_labels in H. inv_bind H.
  rename a into cands, a0 into al, a1 into pred, a2 into picked.
  destruct (stack_Ok _ _ Ha0) as (t & rest & -> & Hal & Hcol).
  destruct (fill_columns_Ok tokenizer al t Hal Hcol cands _ _ Ha1)
    as (ids & Hids & Hpred & Hrows).
  { by rewrite length_replicate. }
  unfold argmax_dim1 in Ha2.
  destruct (Nat.eqb_spec (length cands) 0) as [|Hne]; [done|].
  exists t, rest, cands, ids. repeat split; [done| |done| |].
  - by intros ->.
  - rewrite (for_each_Ok_length _ _ _ H), (for_each_Ok_length _ _ _ Ha2). done.
  - intros b row Hrow.
    destruct (Hrows b [] row) as (scores & Hscores & Hb); [|done|].
    { apply lookup_replicate_2. rewrite Hal. by eapply lookup_lt_Some. }
    simpl in Hb.
    destruct (for_each_Ok_lookup _ _ _ _ _ Ha2 Hb) as (z & Hz & Hpick).
    destruct (for_each_Ok_lookup _ _ _ _ _ H Hpick) as (c & Hc & Hout).
    unfold argmax in Hz.
    destruct (arg_best ltb scores) as [i|] eqn:Hi; [|done].
    injection Hz as <-. rewrite py_index_nat in Hc.
    destruct (cands !! i) as [c'|] eqn:Hci; [|done]. injection Hc as ->.
    exists scores, i, c. done.
Qed.

(** The call succeeds on a non-empty tuple of tensors of one shape and a
    non-empty list of candidates, each with a prompt label whose first
    token indexes every row of the first tensor. *)
Lemma get_closest_logprobs_labels_is_Ok t rest tokenizer cfg
    candidate_labels ids :
  Forall (λ t', tensor_shape t' = tensor_shape t) rest →
  for_each (dict_get (prompt_label_mapping cfg)) (id2label cfg)
  = Ok candidate_labels →
  candidate_labels ≠ [] →
  Forall2 (λ c id, first_token tokenizer c = Ok id) candidate_labels ids →
  (∀ row id, row ∈ t → id ∈ ids → is_Ok (py_index row id)) →
  is_Ok (get_closest_logprobs_labels ltb (t :: rest) tokenizer cfg).
Proof.
  intros Hshape Hcands Hne Hids Hrows.
  unfold get_closest_logprobs_labels. rewrite Hcands. simpl mbind.
  destruct (stack_cons t rest Hshape) as [al Hal]. rewrite Hal. simpl mbind.
  destruct (stack_Ok _ _ Hal) as (t0 & rest0 & [= <- <-] & Hlen & Hcol).
  destruct (fill_columns_is_Ok tokenizer al t Hlen Hcol candidate_labels
              (replicate (length al) [])) as [pred Hpred].
  { by rewrite length_replicate. }
  { intros c Hc. apply list_elem_of_lookup in Hc as [k Hk].
    destruct (Forall2_lookup_l _ _ _ _ _ Hids Hk) as (id & Hid & Hf).
    exists id. split; [done|]. intros row Hrow. apply Hrows; [done|].
    by eapply list_elem_of_lookup_2. }
  rewrite Hpred. simpl mbind.
  destruct (fill_columns_Ok tokenizer al t Hlen Hcol _ _ _ Hpred)
    as (ids' & Hids' & Hplen & Hprows).
  { by rewrite length_replicate. }
  assert (∀ b prow, pred !! b = Some prow →
            length prow = length candidate_labels) as Hwidth.
  { intros b prow Hb.
    destruct (lookup_lt_is_Some_2 t b) as [row Hrow].
    { rewrite <- Hplen. by eapply lookup_lt_Some. }
    destruct (Hprows b [] row) as (scores & Hscores & Hb'); [|done|].
    { apply lookup_replicate_2. rewrite Hlen. by eapply lookup_lt_Some. }
    simpl in Hb'. rewrite Hb in Hb'. injection Hb' as ->.
    rewrite (row_scores_length _ _ _ Hscores).
    symmetry. by eapply Forall2_length. }
  unfold argmax_dim1.
  destruct (Nat.eqb_spec (length candidate_labels) 0) as [H0|_].
  { destruct candidate_labels; [done|discriminate]. }
  destruct (for_each_is_Ok (argmax ltb) pred) as [picked Hpicked].
  { intros prow Hprow. apply list_elem_of_lookup in Hprow as [b Hb].
    specialize (Hwidth b prow Hb). unfold argmax.
    destruct (arg_best_is_Some ltb prow) as [i ->]; [|by eexists].
    intros ->. destruct candidate_labels; [done|discriminate]. }
  rewrite Hpicked. simpl mbind.
  apply for_each_is_Ok. intros z Hz.
  apply list_elem_of_lookup in Hz as [b Hb].
  destruct (for_each_Ok_lookup_r _ _ _ _ _ Hpicked Hb) as (prow & Hprow & Ham).
  unfold argmax in Ham. destruct (arg_best ltb prow) as [i|] eqn:Hi; [|done].
  injection Ham as <-. rewrite py_index_nat.
  apply arg_best_lt in Hi. rewrite (Hwidth b prow Hprow) in Hi.
  destruct (lookup_lt_is_Some_2 candidate_labels i Hi) as [c ->]. by eexists.
Qed.
End LogprobsFacts.

(** ** The edit-distance strategy *)

Lemma closest_label_Ok candidate_labels predicted_label :
  candidate_labels ≠ [] →
  ∃ c, closest_label candidate_labels predicted_label = Ok c ∧
       c ∈ candidate_labels.
Proof.
  intros Hne. unfold closest_label, argmin.
  destruct (arg_best_is_Some (λ best x, (x <? best)%nat)
              (edit_distances candidate_labels predicted_label)) as [i Hi].
  { unfold edit_distances. by destruct candidate_labels. }
  rewrite Hi. simpl mbind. rewrite py_index_nat.
  apply arg_best_lt in Hi. unfold edit_distances in Hi.
  rewrite length_fmap in Hi.
  destruct (lookup_lt_is_Some_2 candidate_labels i Hi) as [c Hc].
  rewrite Hc. exists c. split; [done|]. by eapply list_elem_of_lookup_2.
Qed.

(** The edit-distance strategy returns the first candidate at the least
    distance. *)
Lemma closest_label_first_minimum candidate_labels predicted_label c :
  closest_label candidate_labels predicted_label = Ok c →
  ∃ i d, candidate_labels !! i = Some c ∧
    edit_distances candidate_labels predicted_label !! i = Some d ∧
    (∀ j dj, edit_distances candidate_labels predicted_label !! j = Some dj →
             (d ≤ dj)%nat) ∧
    (∀ j dj, (j < i)%nat →
             edit_distances candidate_labels predicted_label !! j = Some dj →
             (d < dj)%nat).
Proof.
  unfold closest_label, argmin. intros H.
  destruct (arg_best _ _) as [i|] eqn:Hi; [|done]. simpl in H.
  rewrite py_index_nat in H.
  destruct (candidate_labels !! i) as [c'|] eqn:Hc; [|done]. injection H as ->.
  destruct (arg_best_spec (λ best x, (x <? best)%nat)) with (l := edit_distances
              candidate_labels predicted_label) (i := i)
    as (d & Hd & Hmin & Hfirst).
  - intros a. apply Nat.ltb_irrefl.
  - intros a b c0 H1 H2. apply Nat.ltb_lt in H1, H2. apply Nat.ltb_lt. lia.
  - intros a b c0 H1 H2. apply Nat.ltb_ge in H1, H2. apply Nat.ltb_ge. lia.
  - exact Hi.
  - exists i, d. split; [done|]. split; [done|]. split.
    + intros j dj Hj. specialize (Hmin j dj Hj). by apply Nat.ltb_ge in Hmin.
    + intros j dj Hlt Hj. specialize (Hfirst j dj Hlt Hj).
      by apply Nat.ltb_lt in Hfirst.
Qed.

(** ** The generative label resolver *)

(** C1, as the code has it: for a non-empty tuple of log-probability tensors
    of one shape and a non-empty list of candidates whose prompt labels have
    first tokens that index the vocabulary, [get_closest_logprobs_labels]
    returns one string per batch item; the score of a candidate is the entry,
    in the row of the item in the first tensor (the first generated
    position), at the first token id of its lowercased prompt label tokenised
    on its own; the string returned is the prompt label of the candidate of
    [id2label] that no candidate beats and before which every candidate has a
    strictly smaller score (the first maximum wins), not the candidate
    itself. *)
Theorem logprobs_first_maximum {score : Type} (ltb : score → score → bool)
    t rest tokenizer cfg candidate_labels ids :
  (∀ a, ltb a a = false) →
  (∀ a b c, ltb a b = true → ltb b c = true → ltb a c = true) →
  (∀ a b c, ltb a b = false → ltb b c = false → ltb a c = false) →
  Forall (λ t', tensor_shape t' = tensor_shape t) rest →
  for_each (dict_get (prompt_label_mapping cfg)) (id2label cfg)
  = Ok candidate_labels →
  candidate_labels ≠ [] →
  Forall2 (λ c id, first_token tokenizer c = Ok id) candidate_labels ids →
  (∀ row id, row ∈ t → id ∈ ids → is_Ok (py_index row id)) →
  ∃ out,
    get_closest_logprobs_labels ltb (t :: rest) tokenizer cfg = Ok out ∧
    length out = length t ∧
    ∀ b row, t !! b = Some row →
      ∃ scores i candidate c s,
        row_scores ids row scores ∧
        id2label cfg !! i = Some candidate ∧
        prompt_label_mapping cfg !! candidate = Some c ∧
        out !! b = Some c ∧ candidate_labels !! i = Some c ∧
        scores !! i = Some s ∧
        (∀ j sj, scores !! j = Some sj → ltb s sj = false) ∧
        (∀ j sj, j < i → scores !! j = Some sj → ltb sj s = true).
Proof.
  intros Hirr Htrans Hneg Hshape Hcands Hne Hids Hrows.
  destruct (get_closest_logprobs_labels_is_Ok ltb t rest tokenizer cfg
              candidate_labels ids Hshape Hcands Hne Hids Hrows) as [out Hout].
  exists out. split; [done|].
  destruct (get_closest_logprobs_labels_Ok ltb _ _ _ _ Hout)
    as (t0 & rest0 & cands0 & ids0 & [= <- <-] & Hc0 & _ & Hids0 & Hlen & Hitem).
  rewrite Hcands in Hc0. injection Hc0 as <-.
  apply for_each_Ok_Forall2 in Hids, Hids0. rewrite Hids in Hids0.
  injection Hids0 as <-.
  split; [done|]. intros b row Hrow.
  destruct (Hitem b row Hrow) as (scores & i & c & Hscores & Hi & Hc & Hb).
  destruct (arg_best_spec ltb Hirr Htrans Hneg scores i Hi) as (s & Hs & Hmax & Hfirst).
  destruct (for_each_Ok_lookup_r _ _ _ _ _ Hcands Hc) as (candidate & Hl & Hget).
  unfold dict_get in Hget.
  destruct (prompt_label_mapping cfg !! candidate) as [c'|] eqn:Hprompt;
    [|done].
  injection Hget as ->.
  exists scores, i, candidate, c, s. done.
Qed.

Lemma logprobs_first_maximum_witness :
  ∃ out,
    get_closest_logprobs_labels Z.ltb (sample_step0 :: [sample_step1])
      word_tokenizer (sentiment_config danish_mapping [] 0) = Ok out ∧
    length out = length sample_step0 ∧
    ∀ b row, sample_step0 !! b = Some row →
      ∃ scores i candidate c s,
        row_scores [1; 2]%Z row scores ∧
        id2label (sentiment_config danish_mapping [] 0) !! i = Some candidate ∧
        prompt_label_mapping (sentiment_config danish_mapping [] 0)
          !! candidate = Some c ∧
        out !! b = Some c ∧ ["positiv"; "negativ"] !! i = Some c ∧
        scores !! i = Some s ∧
        (∀ j sj, scores !! j = Some sj → Z.ltb s sj = false) ∧
        (∀ j sj, j < i → scores !! j = Some sj → Z.ltb sj s = true).
Proof.
  apply (logprobs_first_maximum Z.ltb sample_step0 [sample_step1] word_tokenizer
           (sentiment_config danish_mapping [] 0) ["positiv"; "negativ"]
           [1; 2]%Z).
  - intros a. lia.
  - intros a b c. lia.
  - intros a b c. lia.
  - repeat constructor.
  - vm_compute. reflexivity.
  - discriminate.
  - repeat constructor.
  - intros row id Hrow Hid.
    repeat (apply elem_of_cons in Hrow as [->|Hrow]);
      [..|by apply elem_of_nil in Hrow];
      repeat (apply elem_of_cons in Hid as [->|Hid]);
      try (by apply elem_of_nil in Hid); by eexists.
Defined.

(** C1 as stated fails: for the second item of [sample_logprobs] the two
    candidates have the same score, the first of them is the candidate
    ["positive"], and the string returned for the item is its prompt label
    ["positiv"], not the candidate. *)
Lemma first_maximum_candidate_not_returned :
  ∃ out row,
    get_closest_logprobs_labels Z.ltb sample_logprobs word_tokenizer
      (sentiment_config danish_mapping [] 0) = Ok out ∧
    sample_step0 !! 1 = Some row ∧
    row_scores [1; 2]%Z row [-700; -700]%Z ∧
    arg_best Z.ltb [-700; -700]%Z = Some 0 ∧
    id2label (sentiment_config danish_mapping [] 0) !! 0 = Some "positive" ∧
    out !! 1 = Some "positiv" ∧
    out !! 1 ≠ id2label (sentiment_config danish_mapping [] 0) !! 0.
Proof.
  exists ["positiv"; "positiv"], [-9000; -700; -700]%Z.
  split; [vm_compute; reflexivity|]. split; [reflexivity|].
  split; [repeat constructor|]. split; [reflexivity|]. split; [reflexivity|].
  split; [reflexivity|]. discriminate.
Qed.

Example logprobs_tie_first :
  get_closest_logprobs_labels Z.ltb sample_logprobs word_tokenizer
    (sentiment_config danish_mapping [] 0) = Ok ["positiv"; "positiv"].
Proof. vm_compute. reflexivity. Qed.

(** C8, as the code has it: per input item, the log-probability strategy
    returns the prompt label of a canonical label of the candidate set, and
    the edit-distance strategy returns a canonical label of the candidate
    set. *)
Theorem resolvers_return_candidates {score : Type} (ltb : score → score → bool)
    t rest tokenizer cfg candidate_labels ids raw_predictions :
  Forall (λ t', tensor_shape t' = tensor_shape t) rest →
  for_each (dict_get (prompt_label_mapping cfg)) (id2label cfg)
  = Ok candidate_labels →
  candidate_labels ≠ [] →
  Forall2 (λ c id, first_token tokenizer c = Ok id) candidate_labels ids →
  (∀ row id, row ∈ t → id ∈ ids → is_Ok (py_index row id)) →
  (∃ out,
     get_closest_logprobs_labels ltb (t :: rest) tokenizer cfg = Ok out ∧
     length out = length t ∧
     ∀ l, l ∈ out →
       ∃ canonical, canonical ∈ id2label cfg ∧
                    prompt_label_mapping cfg !! canonical = Some l) ∧
  (∃ out,
     get_closest_word_edit_labels raw_predictions cfg = Ok out ∧
     length out = length raw_predictions ∧
     ∀ l, l ∈ out → l ∈ id2label cfg).
Proof.
  intros Hshape Hcands Hne Hids Hrows. split.
  - destruct (get_closest_logprobs_labels_is_Ok ltb t rest tokenizer cfg
                candidate_labels ids Hshape Hcands Hne Hids Hrows) as [out Hout].
    exists out. split; [done|].
    destruct (get_closest_logprobs_labels_Ok ltb _ _ _ _ Hout)
      as (t0 & rest0 & cands0 & ids0 & [= <- <-] & Hc0 & _ & _ & Hlen & Hitem).
    rewrite Hcands in Hc0. injection Hc0 as <-.
    split; [done|]. intros l Hl.
    apply list_elem_of_lookup in Hl as [b Hb].
    destruct (lookup_lt_is_Some_2 t b) as [row Hrow].
    { rewrite <- Hlen. by eapply lookup_lt_Some. }
    destruct (Hitem b row Hrow) as (scores & i & c & _ & _ & Hc & Hb').
    rewrite Hb in Hb'. injection Hb' as ->.
    destruct (for_each_Ok_lookup_r _ _ _ _ _ Hcands Hc) as (canonical & Hk & Hget).
    exists canonical. split; [by eapply list_elem_of_lookup_2|].
    unfold dict_get in Hget.
    destruct (prompt_label_mapping cfg !! canonical); [|done]. congruence.
  - assert (id2label cfg ≠ []) as Hne'.
    { intros Hnil. rewrite Hnil in Hcands. simpl in Hcands. congruence. }
    unfold get_closest_word_edit_labels.
    destruct (for_each_is_Ok (closest_label (id2label cfg)) raw_predictions)
      as [out Hout].
    { intros x _. destruct (closest_label_Ok (id2label cfg) x Hne') as (c & -> & _).
      by eexists. }
    exists out. split; [done|]. split; [by eapply for_each_Ok_length|].
    intros l Hl. apply list_elem_of_lookup in Hl as [b Hb].
    destruct (for_each_Ok_lookup_r _ _ _ _ _ Hout Hb) as (x & _ & Hx).
    destruct (closest_label_Ok (id2label cfg) x Hne') as (c & Hc & Hin).
    congruence.
Qed.

Lemma resolvers_return_candidates_witness :
  (∃ out,
     get_closest_logprobs_labels Z.ltb (sample_step0 :: [sample_step1])
       word_tokenizer (sentiment_config danish_mapping [] 0) = Ok out ∧
     length out = length sample_step0 ∧
     ∀ l, l ∈ out →
       ∃ canonical,
         canonical ∈ id2label (sentiment_config danish_mapping [] 0) ∧
         prompt_label_mapping (sentiment_config danish_mapping [] 0) !! canonical
         = Some l) ∧
  (∃ out,
     get_closest_word_edit_labels ["Negetive"; "pos"]
       (sentiment_config danish_mapping [] 0) = Ok out ∧
     length out = length ["Negetive"; "pos"] ∧
     ∀ l, l ∈ out → l ∈ id2label (sentiment_config danish_mapping [] 0)).
Proof.
  apply (resolvers_return_candidates Z.ltb sample_step0 [sample_step1]
           word_tokenizer (sentiment_config danish_mapping [] 0)
           ["positiv"; "negativ"] [1; 2]%Z ["Negetive"; "pos"]).
  - repeat constructor.
  - vm_compute. reflexivity.
  - discriminate.
  - repeat constructor.
  - intros row id Hrow Hid.
    repeat (apply elem_of_cons in Hrow as [->|Hrow]);
      [..|by apply elem_of_nil in Hrow];
      repeat (apply elem_of_cons in Hid as [->|Hid]);
      try (by apply elem_of_nil in Hid); by eexists.
Defined.

(** C8 as stated fails for the log-probability strategy: with the Danish
    prompt labels it returns ["positiv"], which is a prompt label and not
    one of the canonical labels ["positive"] and ["negative"]. *)
Lemma logprobs_label_not_canonical :
  get_closest_logprobs_labels Z.ltb sample_logprobs word_tokenizer
    (sentiment_config danish_mapping [] 0) = Ok ["positiv"; "positiv"] ∧
  "positiv" ∉ id2label (sentiment_config danish_mapping [] 0).
Proof.
  split; [vm_compute; reflexivity|].
  intros H. simpl in H.
  repeat (apply elem_of_cons in H as [H|H]; [discriminate|]).
  by apply elem_of_nil in H.
Qed.

(** C9: the label of a batch item is determined by the item and the
    candidate set.  For the log-probability strategy it is a function of the
    row of the item in the first tensor: two calls agree on two items with
    the same row, whatever the other rows and the later tensors hold.  For
    the edit-distance strategy it is a function of the raw prediction of the
    item.  No call reads a random source or a state left by another item: the
    functions are functions of their arguments. *)
Theorem resolver_item_determined {score : Type} (ltb : score → score → bool)
    tokenizer cfg t rest t' rest' out out' b b' row
    raw raw' labels labels' k k' predicted_label :
  get_closest_logprobs_labels ltb (t :: rest) tokenizer cfg = Ok out →
  get_closest_logprobs_labels ltb (t' :: rest') tokenizer cfg = Ok out' →
  t !! b = Some row → t' !! b' = Some row →
  get_closest_word_edit_labels raw cfg = Ok labels →
  get_closest_word_edit_labels raw' cfg = Ok labels' →
  raw !! k = Some predicted_label → raw' !! k' = Some predicted_label →
  out !! b = out' !! b' ∧ labels !! k = labels' !! k'.
Proof.
  intros Hout Hout' Hb Hb' Hl Hl' Hk Hk'. split.
  - destruct (get_closest_logprobs_labels_Ok ltb _ _ _ _ Hout)
      as (t0 & rest0 & cands & ids & [= <- <-] & Hc & _ & Hids & _ & Hitem).
    destruct (get_closest_logprobs_labels_Ok ltb _ _ _ _ Hout')
      as (t0 & rest0 & cands' & ids' & [= <- <-] & Hc' & _ & Hids' & _ & Hitem').
    rewrite Hc in Hc'. injection Hc' as <-.
    apply for_each_Ok_Forall2 in Hids, Hids'. rewrite Hids in Hids'.
    injection Hids' as <-.
    destruct (Hitem b row Hb) as (scores & i & c & Hs & Hi & Hci & ->).
    destruct (Hitem' b' row Hb') as (scores' & i' & c' & Hs' & Hi' & Hci' & ->).
    rewrite (row_scores_functional _ _ _ _ Hs Hs') in Hi. congruence.
  - unfold get_closest_word_edit_labels in Hl, Hl'.
    destruct (for_each_Ok_lookup _ _ _ _ _ Hl Hk) as (c & Hc & ->).
    destruct (for_each_Ok_lookup _ _ _ _ _ Hl' Hk') as (c' & Hc' & ->).
    congruence.
Qed.

Lemma resolver_item_determined_witness :
  ["positiv"; "positiv"] !! 1 = ["positiv"] !! 0 ∧
  ["negative"; "positive"] !! 0 = ["positive"; "negative"] !! 1.
Proof.
  apply (resolver_item_determined Z.ltb word_tokenizer
           (sentiment_config danish_mapping [] 0)
           sample_step0 [sample_step1] [[-9000; -700; -700]%Z] []
           ["positiv"; "positiv"] ["positiv"] 1 0 [-9000; -700; -700]%Z
           ["Negetive"; "pos"] ["positive"; "Negetive"]
           ["negative"; "positive"] ["positive"; "negative"] 0 1 "Negetive");
    vm_compute; reflexivity.
Defined.

(** ** Few-shot example extraction *)

Lemma cycle_next_Ok labels calls l :
  cycle_next labels calls = Ok l ↔ labels !! (calls `mod` length labels) = Some l.
Proof.
  unfold cycle_next. destruct (labels !! _); split; congruence.
Qed.

Lemma cycle_next_Raise labels calls e :
  cycle_next labels calls = Raise e → e = StopIteration.
Proof. unfold cycle_next. destruct (labels !! _); congruence. Qed.

Lemma cycle_next_not_OutOfFuel labels calls : cycle_next labels calls ≠ OutOfFuel.
Proof. unfold cycle_next. by destruct (labels !! _). Qed.

(** The number of positions below [k] that the cycle over [n] labels gives
    to its [j]-th label. *)
Lemma cycle_count (k n j : nat) :
  j < n →
  length (filter (λ i, i `mod` n = j) (seq 0 k)) = ((k + n - 1 - j) / n)%nat.
Proof.
  intros Hj. induction k as [|k IH].
  - simpl. symmetry. apply Nat.div_small. lia.
  - rewrite seq_S, filter_app, length_app, IH.
    change (0 + k) with k. rewrite filter_cons, filter_nil.
    pose proof (Nat.div_mod_eq k n) as Hk.
    pose proof (Nat.mod_upper_bound k n) as Hr.
    destruct (decide (k `mod` n = j)) as [Hrj|Hrj]; simpl length;
      revert Hk Hr Hrj;
      generalize (k / n)%nat; generalize (k `mod` n); intros r q Hk Hr Hrj.
    + rewrite <- (Nat.div_unique (k + n - 1 - j) n q (n - 1)) by lia.
      rewrite <- (Nat.div_unique (S k + n - 1 - j) n (S q) 0) by lia.
      lia.
    + destruct (decide (r < j)).
      * rewrite <- (Nat.div_unique (k + n - 1 - j) n q (r + n - 1 - j)) by lia.
        rewrite <- (Nat.div_unique (S k + n - 1 - j) n q (r + n - j)) by lia.
        lia.
      * rewrite <- (Nat.div_unique (k + n - 1 - j) n (S q) (r - 1 - j)) by lia.
        rewrite <- (Nat.div_unique (S k + n - 1 - j) n (S q) (r - j)) by lia.
        lia.
Qed.

Lemma cycle_count_floor_or_ceil (k n j : nat) :
  j < n →
  ((k + n - 1 - j) / n = k / n ∨ (k + n - 1 - j) / n = (k + n - 1) / n)%nat.
Proof.
  intros Hj.
  assert (k / n ≤ (k + n - 1 - j) / n)%nat by (apply Nat.Div0.div_le_mono; lia).
  assert ((k + n - 1 - j) / n ≤ (k + n - 1) / n)%nat
    by (apply Nat.Div0.div_le_mono; lia).
  assert ((k + n - 1) / n ≤ S (k / n))%nat.
  { replace (S (k / n)) with ((k + 1 * n) / n)%nat
      by (rewrite Nat.div_add by lia; lia).
    apply Nat.Div0.div_le_mono. lia. }
  lia.
Qed.

Lemma filter_length_pointwise {A B} (P : A → Prop) (Q : B → Prop)
    `{∀ x, Decision (P x)} `{∀ y, Decision (Q y)} (l1 : list A) (l2 : list B) :
  length l1 = length l2 →
  (∀ i x y, l1 !! i = Some x → l2 !! i = Some y → (P x ↔ Q y)) →
  length (filter P l1) = length (filter Q l2).
Proof.
  revert l2. induction l1 as [|x l1 IH]; intros [|y l2] Hlen Hpq;
    try discriminate; [done|].
  rewrite !filter_cons.
  pose proof (Hpq 0 x y eq_refl eq_refl) as Hxy.
  assert (length (filter P l1) = length (filter Q l2)) as Hrec.
  { apply IH; [simpl in Hlen; lia|]. intros i. apply (Hpq (S i)). }
  destruct (decide (P x)), (decide (Q y)); simpl; tauto || lia.
Qed.

Section FewShotFacts.
Variable dataset_shuffle : Z → list example → list example.
Variable random_shuffle : Z → list example → list example.

(** The examples picked by the loop from the pool, in the order of the
    picks: each is in the pool and has the label the cycle is at, and no
    two have the same text. *)
Lemma few_shot_loop_spec fuel num_few_shots labels calls pool acc :
  (num_few_shots - Z.of_nat (length acc) <= Z.of_nat fuel)%Z →
  few_shot_loop fuel num_few_shots labels calls pool acc ≠ OutOfFuel ∧
  (∀ e, few_shot_loop fuel num_few_shots labels calls pool acc = Raise e →
        e = IndexError ∨ e = StopIteration) ∧
  ∀ out, few_shot_loop fuel num_few_shots labels calls pool acc = Ok out →
    ∃ new, out = acc ++ new ∧
      Z.of_nat (length out) = Z.max num_few_shots (Z.of_nat (length acc)) ∧
      NoDup (text <$> new) ∧
      ∀ i ex, new !! i = Some ex →
        ex ∈ pool ∧
        ∃ l, labels !! ((calls + i) `mod` length labels) = Some l ∧
             lower (label ex) = lower l.
Proof.
  revert calls pool acc.
  induction fuel as [|fuel IH]; intros calls pool acc Hfuel; simpl.
  - destruct (Z.ltb_spec (Z.of_nat (length acc)) num_few_shots); [lia|].
    split; [done|]. split; [done|]. intros out [= <-]. exists [].
    rewrite app_nil_r. split; [done|]. split; [lia|].
      split; [apply NoDup_nil_2|done].
  - destruct (Z.ltb_spec (Z.of_nat (length acc)) num_few_shots) as [Hlt|Hge].
    + destruct (cycle_next labels calls) as [lbl|e|] eqn:Hnext; simpl.
      * destruct (filter _ pool) as [|ex matching] eqn:Hfilter.
        { split; [done|]. split; [|done]. intros e [= <-]. by left. }
        assert (lower (label ex) = lower lbl ∧ ex ∈ pool) as [Hlabel Hin].
        { apply (list_elem_of_filter (λ x, lower (label x) = lower lbl)).
          rewrite Hfilter. by constructor. }
        destruct (IH (S calls) (filter (λ x, text x ≠ text ex) pool)
                    (acc ++ [ex])) as (H1 & H2 & H3).
        { rewrite length_app. simpl. lia. }
        split; [done|]. split; [done|]. intros out Hout.
        destruct (H3 out Hout) as (new & -> & Hlen & Hnodup & Hnew).
        exists (ex :: new). rewrite <- app_assoc. split; [done|].
        split; [rewrite !length_app in Hlen |- *; simpl in Hlen |- *; lia|].
        split.
        { rewrite fmap_cons. constructor; [|done].
          intros Hdup. apply list_elem_of_fmap in Hdup as (ex' & Htext & Hex').
          apply list_elem_of_lookup in Hex' as [i Hi].
          destruct (Hnew i ex' Hi) as [Hpool _].
          apply list_elem_of_filter in Hpool as [Hne _]. congruence. }
        intros [|i] ex' Hi; simpl in Hi.
        { injection Hi as <-. split; [done|]. exists lbl.
          rewrite Nat.add_0_r. by apply cycle_next_Ok in Hnext. }
        destruct (Hnew i ex' Hi) as [Hpool Hl]. split.
        { by apply list_elem_of_filter in Hpool as [_ ?]. }
        by replace (calls + S i) with (S calls + i) by lia.
      * split; [done|]. split; [|done]. intros e' [= <-]. right.
        by eapply cycle_next_Raise.
      * by apply cycle_next_not_OutOfFuel in Hnext.
    + split; [done|]. split; [done|]. intros out [= <-]. exists [].
      rewrite app_nil_r. split; [done|]. split; [lia|].
      split; [apply NoDup_nil_2|done].
Qed.
End FewShotFacts.

(** C3, as the code has it: a call that ends without exception returns
    exactly [num_few_shot_examples] examples, no two with the same text; they
    are the picks of the loop in the order given by [random.shuffle] under the
    seed, and the [i]-th pick is an example of the seed-shuffled training
    split with the label at position [i mod n] of the task's labels in their
    configured order (the labels are cycled as configured, not shuffled); so
    each of [n] labels that differ in lower case appears [k/n] rounded down
    or up times.  A call ends: with these examples, with an [IndexError] when
    a label has no example left, or with [StopIteration] when the task has no
    label. *)
Theorem few_shot_round_robin
    (dataset_shuffle random_shuffle : Z → list example → list example)
    cfg train_dataset random_seed :
  (∀ seed l, random_shuffle seed l ≡ₚ l) →
  _extract_few_shot_examples dataset_shuffle random_shuffle cfg train_dataset
    random_seed ≠ OutOfFuel ∧
  (∀ e, _extract_few_shot_examples dataset_shuffle random_shuffle cfg
          train_dataset random_seed = Raise e →
        e = IndexError ∨ e = StopIteration) ∧
  ∀ out, _extract_few_shot_examples dataset_shuffle random_shuffle cfg
           train_dataset random_seed = Ok out →
    length out = Z.to_nat (num_few_shot_examples cfg) ∧
    NoDup (text <$> out) ∧
    (∃ picks, out = random_shuffle random_seed picks ∧
       ∀ i ex, picks !! i = Some ex →
         ex ∈ dataset_shuffle random_seed train_dataset ∧
         ∃ l, task_labels cfg !! (i `mod` length (task_labels cfg)) = Some l ∧
              lower (label ex) = lower l) ∧
    (NoDup (lower <$> task_labels cfg) →
     ∀ l, l ∈ task_labels cfg →
       length (filter (λ ex, lower (label ex) = lower l) out)
       = (Z.to_nat (num_few_shot_examples cfg) / length (task_labels cfg))%nat ∨
       length (filter (λ ex, lower (label ex) = lower l) out)
       = ((Z.to_nat (num_few_shot_examples cfg) + length (task_labels cfg) - 1)
          / length (task_labels cfg))%nat).
Proof.
  intros Hperm. unfold _extract_few_shot_examples.
  destruct (few_shot_loop_spec (Z.to_nat (num_few_shot_examples cfg))
              (num_few_shot_examples cfg) (task_labels cfg) 0
              (dataset_shuffle random_seed train_dataset) [])
    as (Hfuel & Hraise & Hok); [simpl; lia|].
  destruct (few_shot_loop _ _ _ _ _ _) as [picks|e|]; simpl; [|by auto|done].
  split; [done|]. split; [done|]. intros out [= <-].
  destruct (Hok picks eq_refl) as (new & Hnew & Hlen & Hnodup & Hpicks).
  simpl in Hnew, Hlen. subst new.
  assert (length picks = Z.to_nat (num_few_shot_examples cfg)) as Hk by lia.
  split; [by rewrite Hperm|]. split; [by rewrite Hperm|].
  split; [by exists picks|].
  intros Hlabels l Hl. rewrite (Hperm random_seed picks).
  apply list_elem_of_lookup in Hl as [j Hj].
  pose proof (lookup_lt_Some _ _ _ Hj) as Hjn.
  rewrite (filter_length_pointwise _
             (λ i, i `mod` length (task_labels cfg) = j) picks
             (seq 0 (Z.to_nat (num_few_shot_examples cfg)))).
  - rewrite cycle_count by done. by apply cycle_count_floor_or_ceil.
  - by rewrite length_seq.
  - intros i ex i' Hex Hi'. apply lookup_seq in Hi' as [-> _]. simpl.
    destruct (Hpicks i ex Hex) as (_ & l' & Hl' & Hlower). simpl in Hl'.
    split.
    + intros Heq. eapply (NoDup_lookup _ _ _ _ Hlabels).
      * rewrite list_lookup_fmap, Hl'. simpl. by rewrite <- Hlower, Heq.
      * by rewrite list_lookup_fmap, Hj.
    + intros Heq. rewrite Heq, Hj in Hl'. congruence.
Qed.

Lemma few_shot_round_robin_witness :
  _extract_few_shot_examples reversing_shuffle reversing_shuffle few_shot_config
    sample_train 4242
  = Ok [ {| text := "awful"; label := "negative" |};
         {| text := "great"; label := "Positive" |};
         {| text := "bad"; label := "Negative" |} ] ∧
  (_extract_few_shot_examples reversing_shuffle reversing_shuffle few_shot_config
     sample_train 4242 ≠ OutOfFuel ∧
   (∀ e, _extract_few_shot_examples reversing_shuffle reversing_shuffle
           few_shot_config sample_train 4242 = Raise e →
         e = IndexError ∨ e = StopIteration) ∧
   ∀ out, _extract_few_shot_examples reversing_shuffle reversing_shuffle
            few_shot_config sample_train 4242 = Ok out →
     length out = Z.to_nat (num_few_shot_examples few_shot_config) ∧
     NoDup (text <$> out) ∧
     (∃ picks, out = reversing_shuffle 4242 picks ∧
        ∀ i ex, picks !! i = Some ex →
          ex ∈ reversing_shuffle 4242 sample_train ∧
          ∃ l, task_labels few_shot_config
                 !! (i `mod` length (task_labels few_shot_config)) = Some l ∧
               lower (label ex) = lower l) ∧
     (NoDup (lower <$> task_labels few_shot_config) →
      ∀ l, l ∈ task_labels few_shot_config →
        length (filter (λ ex, lower (label ex) = lower l) out)
        = (Z.to_nat (num_few_shot_examples few_shot_config)
           / length (task_labels few_shot_config))%nat ∨
        length (filter (λ ex, lower (label ex) = lower l) out)
        = ((Z.to_nat (num_few_shot_examples few_shot_config)
            + length (task_labels few_shot_config) - 1)
           / length (task_labels few_shot_config))%nat)).
Proof.
  split; [vm_compute; reflexivity|].
  apply (few_shot_round_robin reversing_shuffle reversing_shuffle few_shot_config
           sample_train 4242).
  intros seed l. apply reverse_Permutation.
Defined.

(** C3 as stated fails.  On an empty training split the call for one
    example ends with an [IndexError], not with one example.  And the labels
    are cycled in their configured order whatever the seed: one example is
    asked for, the label set is ["positive"] then ["negative"], and the
    example returned is a positive one although the shuffle, applied to the
    label set, would put ["negative"] first. *)
Lemma few_shot_labels_not_shuffled :
  _extract_few_shot_examples reversing_shuffle reversing_shuffle
    (sentiment_config ∅ ["positive"; "negative"] 1) [] 4242 = Raise IndexError ∧
  _extract_few_shot_examples reversing_shuffle reversing_shuffle
    (sentiment_config ∅ ["positive"; "negative"] 1) sample_train 4242
  = Ok [ {| text := "great"; label := "Positive" |} ] ∧
  reversing_shuffle 4242 ["positive"; "negative"] = ["negative"; "positive"].
Proof. repeat split; vm_compute; reflexivity. Qed.

(** ** Windows *)

Lemma filter_zip_none {A} (xs : list A) (ys : list (option Z)) :
  Forall (λ y, y ≠ Some 1%Z) ys →
  filter (λ p : A * option Z, p.2 = Some 1%Z) (zip xs ys) = [].
Proof.
  intros H. revert xs. induction H as [|y ys Hy _ IH]; intros [|x xs]; try done.
  simpl. rewrite filter_cons_False by done. apply IH.
Qed.

Lemma filter_zip_all {A B} (xs : list A) (ws : list B) :
  length xs = length ws →
  (filter (λ p : A * option Z, p.2 = Some 1%Z)
          (zip xs (const (Some 1%Z) <$> ws))).*1 = xs.
Proof.
  revert ws. induction xs as [|x xs IH]; intros [|w ws] Hlen; try done.
  rewrite fmap_cons. simpl. f_equal. apply IH. simpl in Hlen. lia.
Qed.

Section SlidingFacts.
Variable encode : string → list (Z * (Z * Z)).
Variables cls sep pad : Z.

Lemma context_tokens_make_encoding max_length q w :
  context_tokens (make_encoding cls sep pad max_length q w) = w.
Proof.
  unfold context_tokens, make_encoding. simpl.
  rewrite filter_cons_False by done.
  rewrite (zip_with_app pair (q.*1) _ (q.*2)) by (by rewrite !length_fmap).
  rewrite (zip_with_app pair (zip (q.*1) (q.*2)) _ (const (Some 0%Z) <$> q))
    by (by rewrite length_zip_with, !length_fmap, Nat.min_id).
  rewrite filter_app, filter_zip_none
    by (apply Forall_fmap, Forall_forall; done).
  simpl. rewrite filter_cons_False by done.
  rewrite (zip_with_app pair (w.*1) _ (w.*2)) by (by rewrite !length_fmap).
  rewrite (zip_with_app pair (zip (w.*1) (w.*2)) _ (const (Some 1%Z) <$> w))
    by (by rewrite length_zip_with, !length_fmap, Nat.min_id).
  rewrite filter_app, fmap_app. simpl.
  rewrite filter_cons_False by done.
  rewrite (filter_zip_none _ (replicate _ None))
    by (apply Forall_replicate; done).
  simpl. rewrite app_nil_r.
  rewrite filter_zip_all by (by rewrite length_zip_with, !length_fmap, Nat.min_id).
  apply zip_fst_snd.
Qed.

Lemma make_encoding_length max_length q w :
  (3 + length q + length w ≤ max_length)%nat →
  length (input_ids (make_encoding cls sep pad max_length q w)) = max_length.
Proof.
  intros H. simpl.
  rewrite length_app. simpl. rewrite length_app. simpl.
  rewrite length_replicate, !length_fmap. lia.
Qed.

(** The Windows before the last one are full, and the next Window starts
    [stride] context tokens before the end of the Window. *)
Lemma window_before_last (cap stride len k : nat) :
  stride < cap → S k < window_count cap stride len →
  k * (cap - stride) + cap < len.
Proof.
  unfold window_count. intros Hs Hk.
  assert (S k ≤ (len - cap + (cap - stride - 1)) / (cap - stride))%nat as Hle
    by lia.
  pose proof (Nat.Div0.mul_div_le (len - cap + (cap - stride - 1))
                (cap - stride)) as Hmul.
  nia.
Qed.

Lemma context_window_overlap (cap stride k : nat) (ct : list (Z * (Z * Z))) :
  stride < cap → S k < window_count cap stride (length ct) →
  length (context_window cap stride ct k) = cap ∧
  (stride ≤ length (context_window cap stride ct (S k)))%nat ∧
  drop (cap - stride) (context_window cap stride ct k)
  = take stride (context_window cap stride ct (S k)).
Proof.
  intros Hs Hk. pose proof (window_before_last _ _ _ _ Hs Hk) as Hlen.
  unfold context_window. split; [|split].
  - rewrite length_take, length_drop. lia.
  - rewrite length_take, length_drop. simpl. nia.
  - rewrite take_take, Nat.min_l by lia.
    replace (take cap (drop (k * (cap - stride)) ct))
      with (take (cap - stride + stride) (drop (k * (cap - stride)) ct))
      by (f_equal; lia).
    rewrite <- take_drop_commute, drop_drop. do 2 f_equal. simpl. lia.
Qed.
End SlidingFacts.

Lemma for_each_indexed_Ok_Forall2 {A B} (f : nat → A → result B) n xs ys :
  for_each_indexed f n xs = Ok ys → Forall2 (λ x y, ∃ i, f i x = Ok y) xs ys.
Proof.
  revert n ys. induction xs as [|x xs IH]; intros n ys H; simpl in H.
  - injection H as <-. constructor.
  - inv_bind H. injection H as <-. constructor; eauto.
Qed.

(** Masking the offsets of the tokens outside the context keeps the
    context tokens. *)
Lemma masked_offsets_context (sids : list (option Z)) offsets k0 masked
    (token_ids : list Z) :
  for_each_indexed
    (λ k o, sid ← py_index sids (Z.of_nat k);
            Ok (if bool_decide (sid = Some 1%Z) then o else ((-1)%Z, (-1)%Z)))
    k0 offsets = Ok masked →
  filter (λ p, p.2 = Some 1%Z) (zip (zip token_ids masked) (drop k0 sids))
  = filter (λ p, p.2 = Some 1%Z) (zip (zip token_ids offsets) (drop k0 sids)).
Proof.
  revert k0 masked token_ids.
  induction offsets as [|o offsets IH]; intros k0 masked token_ids H; simpl in H.
  - by injection H as <-.
  - inv_bind H. injection H as <-. inv_bind Ha. injection Ha as <-.
    rename a1 into sid. rewrite py_index_nat in Ha1.
    destruct (sids !! k0) as [sid'|] eqn:Hsid; [|done]. injection Ha1 as ->.
    destruct token_ids as [|i token_ids]; [done|].
    rewrite (drop_S _ _ _ Hsid). simpl.
    rewrite !filter_cons. simpl. rewrite (IH _ _ _ Ha0).
    case_bool_decide as Hctx.
    + by rewrite decide_True by done.
    + by rewrite !decide_False by done.
Qed.

Lemma mask_window_same id_column sample_mapping i e r :
  mask_window id_column sample_mapping i e = Ok r → same_window e r.2.
Proof.
  intros H. unfold mask_window in H. inv_bind H. injection H as <-.
  unfold same_window, context_tokens. simpl. repeat split.
  pose proof (masked_offsets_context _ _ 0 _ (input_ids e) Ha1) as Hm.
  rewrite drop_0 in Hm. by rewrite Hm.
Qed.

Section TokenizerFacts.
Variable encode : string → list (Z * (Z * Z)).
Variables cls sep pad : Z.

Lemma encode_pair_Ok max_length stride q c es :
  encode_pair encode cls sep pad max_length stride q c = Ok es →
  (∀ e, e ∈ es → Z.of_nat (length (input_ids e)) = max_length) ∧
  (∀ k e1 e2, es !! k = Some e1 → es !! S k = Some e2 →
     shared_context (Z.to_nat stride) e1 e2).
Proof.
  unfold encode_pair.
  set (cap := Z.to_nat (max_length - 3 - Z.of_nat (length (encode q)))).
  remember (window_count cap (Z.to_nat stride) (length (encode c))) as n eqn:Hn.
  intros H.
  destruct ((0 <=? stride)%Z && _) eqn:Hroom; [|done].
  apply andb_prop in Hroom as [H0 H1].
  apply Z.leb_le in H0. apply Z.ltb_lt in H1. injection H as <-.
  assert (Z.to_nat stride < cap) as Hs by lia.
  split.
  - intros e He. apply list_elem_of_fmap in He as (k & -> & _).
    rewrite make_encoding_length; [lia|].
    unfold context_window. rewrite length_take. lia.
  - intros k e1 e2 H1' H2'.
    rewrite list_lookup_fmap in H1', H2'.
    destruct (seq 0 _ !! k) as [k1|] eqn:Hk1; [|done].
    destruct (seq 0 _ !! S k) as [k2|] eqn:Hk2; [|done].
    apply lookup_seq in Hk1 as [-> _]. apply lookup_seq in Hk2 as [-> Hk2].
    rewrite Hn in Hk2.
    simpl in H1', H2'. injection H1' as <-. injection H2' as <-.
    unfold shared_context. rewrite !context_tokens_make_encoding.
    destruct (context_window_overlap cap (Z.to_nat stride) k (encode c) Hs Hk2)
      as (Hfull & Hnext & Hov).
    rewrite Hfull. split; [lia|]. split; [done|]. exact Hov.
Qed.

Lemma sliding_tokenize_Ok qs cs max_length stride tokenized :
  sliding_tokenize encode cls sep pad qs cs max_length stride = Ok tokenized →
  ∃ per_example,
    encodings tokenized = concat per_example ∧
    Forall2 (λ qc es, encode_pair encode cls sep pad max_length stride
                        qc.1 qc.2 = Ok es)
            (zip qs cs) per_example.
Proof.
  unfold sliding_tokenize. destruct (length qs =? length cs)%nat; [|done].
  intros H. inv_bind H. injection H as <-. exists a. split; [done|].
  by apply for_each_Ok_Forall2 in Ha.
Qed.
End TokenizerFacts.

(** C6, as the code has it: for a tokenizer of maximum length [L], both
    passes ask for Windows of [L - L/4] tokens with a stride of [L/4] (integer
    division).  For the sliding-window tokenizer, every Window of the training
    and of the evaluation pass has exactly [L - L/4] tokens, and two
    consecutive Windows of one Example share exactly [L/4] context tokens: the
    last [L/4] context tokens of the first are the first [L/4] context tokens
    of the second. *)
Theorem windows_length_and_overlap encode cls sep pad L examples tokenized :
  tokenize_examples examples (sliding_tokenizer encode cls sep pad L)
  = Ok tokenized →
  window_max_length (sliding_tokenizer encode cls sep pad L) = (L - L `div` 4)%Z ∧
  window_stride (sliding_tokenizer encode cls sep pad L) = (L `div` 4)%Z ∧
  (∃ per_example,
     encodings tokenized = concat per_example ∧
     Forall2 (λ qc es, encode_pair encode cls sep pad (L - L `div` 4)%Z
                         (L `div` 4)%Z qc.1 qc.2 = Ok es)
             (zip (lstrip <$> questions examples) (contexts examples))
             per_example ∧
     ∀ es, es ∈ per_example →
       (∀ e, e ∈ es → Z.of_nat (length (input_ids e)) = (L - L `div` 4)%Z) ∧
       (∀ k e1 e2, es !! k = Some e1 → es !! S k = Some e2 →
          shared_context (Z.to_nat (L `div` 4)) e1 e2)) ∧
  (∀ out, prepare_train_examples examples
            (sliding_tokenizer encode cls sep pad L) = Ok out →
     train_features out = encodings tokenized) ∧
  (∀ out, prepare_test_examples examples
            (sliding_tokenizer encode cls sep pad L) = Ok out →
     Forall2 same_window (encodings tokenized) (test_features out)).
Proof.
  intros Htok. split; [done|]. split; [done|]. split; [|split].
  - unfold tokenize_examples in Htok. simpl in Htok.
    destruct (sliding_tokenize_Ok _ _ _ _ _ _ _ _ _ Htok) as (per & Hper & Hall).
    exists per. split; [done|]. split; [exact Hall|].
    intros es Hes. apply list_elem_of_lookup in Hes as [i Hi].
    destruct (Forall2_lookup_r _ _ _ _ _ Hall Hi) as (qc & _ & Hqc).
    by eapply encode_pair_Ok.
  - intros out H. unfold prepare_train_examples in H. rewrite Htok in H.
    simpl in H. inv_bind H. by injection H as <-.
  - intros out H. unfold prepare_test_examples in H. rewrite Htok in H.
    simpl in H. inv_bind H. injection H as <-. simpl.
    apply Forall2_fmap_r. apply for_each_indexed_Ok_Forall2 in Ha.
    eapply Forall2_impl; [exact Ha|]. intros e r [i Hi].
    by eapply mask_window_same.
Qed.

Lemma windows_length_and_overlap_witness :
  window_max_length (char_tokenizer 16) = 12%Z ∧
  window_stride (char_tokenizer 16) = 4%Z ∧
  (∃ per_example,
     encodings sample_tokenized = concat per_example ∧
     Forall2 (λ qc es, encode_pair char_tokens 101 102 0 12 4 qc.1 qc.2 = Ok es)
             (zip (lstrip <$> questions unanswerable_batch)
                  (contexts unanswerable_batch))
             per_example ∧
     ∀ es, es ∈ per_example →
       (∀ e, e ∈ es → Z.of_nat (length (input_ids e)) = 12%Z) ∧
       (∀ k e1 e2, es !! k = Some e1 → es !! S k = Some e2 →
          shared_context 4 e1 e2)) ∧
  (∀ out, prepare_train_examples unanswerable_batch (char_tokenizer 16) = Ok out →
     train_features out = encodings sample_tokenized) ∧
  (∀ out, prepare_test_examples unanswerable_batch (char_tokenizer 16) = Ok out →
     Forall2 same_window (encodings sample_tokenized) (test_features out)).
Proof.
  apply (windows_length_and_overlap char_tokens 101 102 0 16 unanswerable_batch
           sample_tokenized).
  vm_compute. reflexivity.
Defined.

(** C6 as stated fails: for a tokenizer of maximum length 16, both passes
    ask for Windows of 12 tokens, and the Windows of the training and of the
    evaluation pass have 12 tokens, not 16. *)
Lemma window_length_not_max_length :
  window_max_length (char_tokenizer 16) = 12%Z ∧
  (∃ out, prepare_train_examples unanswerable_batch (char_tokenizer 16) = Ok out ∧
     (λ e, length (input_ids e)) <$> train_features out = [12; 12; 12]) ∧
  (∃ out, prepare_test_examples unanswerable_batch (char_tokenizer 16) = Ok out ∧
     (λ e, length (input_ids e)) <$> test_features out = [12; 12; 12]).
Proof.
  split; [reflexivity|]. split; eexists; (split; [vm_compute; reflexivity|]);
    vm_compute; reflexivity.
Qed.

(** * Further properties *)

(** ** The training pass *)

Lemma for_each_indexed_Ok_length {A B} (f : nat → A → result B) n xs ys :
  for_each_indexed f n xs = Ok ys → length ys = length xs.
Proof.
  intros H. apply for_each_indexed_Ok_Forall2 in H.
  symmetry. by eapply Forall2_length.
Qed.

(** X1: The start and end positions of a training pass are aligned with its
    Windows: one start and one end position per Window. *)
Theorem train_positions_per_window examples tokenizer out :
  prepare_train_examples examples tokenizer = Ok out →
  length (start_positions out) = length (train_features out) ∧
  length (end_positions out) = length (train_features out).
Proof.
  intros H. unfold prepare_train_examples in H. inv_bind H. injection H as <-.
  simpl. rewrite !length_fmap.
  by rewrite (for_each_indexed_Ok_length _ _ _ _ Ha0).
Qed.

Lemma train_positions_per_window_witness :
  length [6; 0; 0]%Z = length (encodings sample_tokenized) ∧
  length [7; 0; 0]%Z = length (encodings sample_tokenized).
Proof.
  apply (train_positions_per_window (answerable_batch [] []) (char_tokenizer 16)
           {| train_features := encodings sample_tokenized;
              start_positions := [6; 0; 0]%Z;
              end_positions := [7; 0; 0]%Z |}).
  vm_compute. reflexivity.
Defined.

Lemma list_index_from_spec l x i r :
  list_index_from l x i = Ok r →
  (i <= r)%Z ∧ l !! Z.to_nat (r - i) = Some x ∧
  ∀ j, (j < Z.to_nat (r - i))%nat → l !! j ≠ Some x.
Proof.
  revert i. induction l as [|y l IH]; intros i H; simpl in H; [done|].
  destruct (Z.eqb_spec y x) as [->|Hne].
  - injection H as <-. rewrite Z.sub_diag. split; [lia|]. split; [done|].
    intros j Hj. simpl in Hj. lia.
  - destruct (IH _ H) as (Hle & Hr & Hfirst).
    replace (Z.to_nat (r - i)) with (S (Z.to_nat (r - (i + 1)))) by lia.
    split; [lia|]. split; [done|]. intros [|j] Hj; simpl.
    + congruence.
    + apply Hfirst. lia.
Qed.

Lemma list_index_from_missing l x i :
  x ∉ l → list_index_from l x i = Raise ValueError.
Proof.
  revert i. induction l as [|y l IH]; intros i H; simpl; [done|].
  destruct (Z.eqb_spec y x) as [->|Hne].
  - exfalso. apply H. by constructor.
  - apply IH. intros Hin. apply H. by constructor.
Qed.

(** X2: A Window that does not hold the CLS token cannot be labelled, even
    for an Example without answers: the training pass of a batch whose
    first Window lacks the token ends with a [ValueError]. *)
Theorem window_without_cls_ValueError examples tokenizer tokenized e rest :
  tokenize_examples examples tokenizer = Ok tokenized →
  encodings tokenized = e :: rest →
  cls_token_id tokenizer ∉ input_ids e →
  prepare_train_examples examples tokenizer = Raise ValueError.
Proof.
  intros Htok Henc Hcls. unfold prepare_train_examples.
  rewrite Htok. simpl. rewrite Henc. simpl.
  assert (label_window (cls_token_id tokenizer) (answers examples)
            (overflow_to_sample_mapping tokenized) 0 e = Raise ValueError) as ->;
    [|done].
  unfold label_window, list_index. by rewrite list_index_from_missing.
Qed.

Lemma window_without_cls_ValueError_witness :
  prepare_train_examples unanswerable_batch clsless_tokenizer = Raise ValueError.
Proof.
  apply (window_without_cls_ValueError unanswerable_batch clsless_tokenizer
           sample_tokenized first_sample_window
           (drop 1 (encodings sample_tokenized))).
  - vm_compute. reflexivity.
  - vm_compute. reflexivity.
  - vm_compute. intros H.
    repeat (apply elem_of_cons in H as [H|H]; [discriminate|]).
    by apply elem_of_nil in H.
Defined.

Lemma py_index_Raise {A} (l : list A) i e :
  py_index l i = Raise e → e = IndexError.
Proof.
  unfold py_index. destruct (_ <? 0)%Z; [congruence|].
  destruct (l !! _); congruence.
Qed.

Lemma py_index_in_range {A} (l : list A) i :
  (0 <= i < Z.of_nat (length l))%Z → ∃ x, py_index l i = Ok x.
Proof.
  intros H. rewrite <- (Z2Nat.id i) by lia. rewrite py_index_nat.
  destruct (lookup_lt_is_Some_2 l (Z.to_nat i)) as [x ->]; [lia|]. eauto.
Qed.

Lemma context_start_Raise fuel l i e :
  context_start fuel l i = Raise e → e = IndexError.
Proof.
  revert i. induction fuel as [|fuel IH]; intros i; simpl.
  - destruct (py_index l i) as [sid|e'|] eqn:E; simpl; [|intros [= <-]|done].
    + by case_bool_decide.
    + by eapply py_index_Raise.
  - destruct (py_index l i) as [sid|e'|] eqn:E; simpl; [|intros [= <-]|done].
    + case_bool_decide; [apply IH|done].
    + by eapply py_index_Raise.
Qed.

Lemma context_end_Raise fuel l i e :
  context_end fuel l i = Raise e → e = IndexError.
Proof.
  revert i. induction fuel as [|fuel IH]; intros i; simpl.
  - destruct (py_index l i) as [sid|e'|] eqn:E; simpl; [|intros [= <-]|done].
    + by case_bool_decide.
    + by eapply py_index_Raise.
  - destruct (py_index l i) as [sid|e'|] eqn:E; simpl; [|intros [= <-]|done].
    + case_bool_decide; [apply IH|done].
    + by eapply py_index_Raise.
Qed.

Lemma move_end_Raise fuel offsets end_char i e :
  move_end fuel offsets end_char i = Raise e → e = IndexError.
Proof.
  revert i. induction fuel as [|fuel IH]; intros i; simpl.
  - destruct (py_index offsets i) as [o|e'|] eqn:E; simpl;
      [|intros [= <-]|done].
    + by destruct (o.2 >=? end_char)%Z.
    + by eapply py_index_Raise.
  - destruct (py_index offsets i) as [o|e'|] eqn:E; simpl;
      [|intros [= <-]|done].
    + destruct (o.2 >=? end_char)%Z; [apply IH|done].
    + by eapply py_index_Raise.
Qed.

(** The forward scan stops at the first token from [i] on that starts after
    [start_char], or at the end of the Window. *)
Lemma move_start_spec fuel offsets start_char i r :
  (0 <= i)%Z → move_start fuel offsets start_char i = Ok r →
  (i <= r)%Z ∧ (r <= Z.max i (Z.of_nat (length offsets)))%Z ∧
  (∀ j, (i <= j < r)%Z →
     ∃ o, py_index offsets j = Ok o ∧ (o.1 <= start_char)%Z) ∧
  ((r < Z.of_nat (length offsets))%Z →
     ∃ o, py_index offsets r = Ok o ∧ (start_char < o.1)%Z).
Proof.
  assert (∀ i, (0 <= i)%Z →
            (i < Z.of_nat (length offsets) →
             ∃ o, py_index offsets i = Ok o ∧ start_char < o.1)%Z →
            (i <= i)%Z ∧ (i <= Z.max i (Z.of_nat (length offsets)))%Z ∧
            (∀ j, (i <= j < i)%Z →
               ∃ o, py_index offsets j = Ok o ∧ (o.1 <= start_char)%Z) ∧
            ((i < Z.of_nat (length offsets))%Z →
               ∃ o, py_index offsets i = Ok o ∧ (start_char < o.1)%Z)) as Hstop.
  { intros i0 Hi Hlast. split; [lia|]. split; [lia|]. split; [|done].
    intros j Hj. lia. }
  revert i. induction fuel as [|fuel IH]; intros i Hi H; simpl in H.
  - destruct (Z.ltb_spec i (Z.of_nat (length offsets))) as [Hlt|Hge].
    + destruct (py_index offsets i) as [o| |] eqn:E; simpl in H; [|done..].
      destruct (Z.leb_spec o.1 start_char) as [Hle|Hgt]; [done|].
      injection H as <-. apply Hstop; [done|]. intros _. eauto.
    + injection H as <-. apply Hstop; [done|]. lia.
  - destruct (Z.ltb_spec i (Z.of_nat (length offsets))) as [Hlt|Hge].
    + destruct (py_index offsets i) as [o| |] eqn:E; simpl in H; [|done..].
      destruct (Z.leb_spec o.1 start_char) as [Hle|Hgt].
      * destruct (IH (i + 1)%Z ltac:(lia) H) as (H1 & H2 & H3 & H4).
        split; [lia|]. split; [lia|]. split; [|done].
        intros j Hj. destruct (decide (j = i)) as [->|]; [eauto|].
        apply H3. lia.
      * injection H as <-. apply Hstop; [done|]. intros _. eauto.
    + injection H as <-. apply Hstop; [done|]. lia.
Qed.

Lemma move_start_no_Raise fuel offsets start_char i e :
  (0 <= i)%Z → move_start fuel offsets start_char i ≠ Raise e.
Proof.
  revert i. induction fuel as [|fuel IH]; intros i Hi; simpl.
  - destruct (Z.ltb_spec i (Z.of_nat (length offsets))) as [Hlt|Hge]; [|done].
    destruct (py_index_in_range offsets i) as [o ->]; [lia|]. simpl.
    by destruct (o.1 <=? start_char)%Z.
  - destruct (Z.ltb_spec i (Z.of_nat (length offsets))) as [Hlt|Hge]; [|done].
    destruct (py_index_in_range offsets i) as [o ->]; [lia|]. simpl.
    destruct (o.1 <=? start_char)%Z; [|done]. apply IH. lia.
Qed.

(** The backward scan stops at the first token from [i] down that ends
    before [end_char]. *)
Lemma move_end_spec fuel offsets end_char i r :
  move_end fuel offsets end_char i = Ok r →
  (r <= i)%Z ∧
  (∀ j, (r < j <= i)%Z →
     ∃ o, py_index offsets j = Ok o ∧ (end_char <= o.2)%Z) ∧
  ∃ o, py_index offsets r = Ok o ∧ (o.2 < end_char)%Z.
Proof.
  revert i. induction fuel as [|fuel IH]; intros i H; simpl in H.
  - destruct (py_index offsets i) as [o| |] eqn:E; simpl in H; [|done..].
    destruct (Z.geb_spec o.2 end_char) as [Hge|Hlt]; [done|].
    injection H as <-. split; [lia|]. split; [intros j; lia|eauto].
  - destruct (py_index offsets i) as [o| |] eqn:E; simpl in H; [|done..].
    destruct (Z.geb_spec o.2 end_char) as [Hge|Hlt].
    + destruct (IH _ H) as (H1 & H2 & H3).
      split; [lia|]. split; [|done].
      intros j Hj. destruct (decide (j = i)) as [->|]; [|apply H2; lia].
      exists o. split; [done|lia].
    + injection H as <-. split; [lia|]. split; [intros j; lia|eauto].
Qed.

Lemma answer_char_range_Ok a start_char end_char :
  answer_char_range a = Ok (start_char, end_char) →
  (length (answer_start a) =? 0)%nat = false.
Proof.
  unfold answer_char_range. intros H. inv_bind H.
  destruct (answer_start a); [done|done].
Qed.

(** X3: When the offsets of a Window bracket the answer, the start position
    emitted is a token of the Window, at or after its first context token,
    that starts at or before the first character of the answer, and the
    next token, if any, starts after it; the end position emitted is at or
    before the last context token, its token ends at or after the end of the
    answer, and the token before it ends before the end of the answer. *)
Theorem bracketed_answer_positions e cls_index a start_char end_char
    first_token last_token first_offsets last_offsets s t :
  answer_char_range a = Ok (start_char, end_char) →
  context_start (window_fuel e) (sequence_ids e) 0 = Ok first_token →
  context_end (window_fuel e) (sequence_ids e)
    (Z.of_nat (length (input_ids e)) - 1) = Ok last_token →
  py_index (offset_mapping e) first_token = Ok first_offsets →
  py_index (offset_mapping e) last_token = Ok last_offsets →
  (first_offsets.1 <= start_char)%Z → (end_char <= last_offsets.2)%Z →
  locate_answer e cls_index a = Ok (s, t) →
  (first_token <= s < Z.of_nat (length (offset_mapping e)))%Z ∧
  (∃ o, py_index (offset_mapping e) s = Ok o ∧ (o.1 <= start_char)%Z) ∧
  ((s + 1 < Z.of_nat (length (offset_mapping e)))%Z →
   ∃ o, py_index (offset_mapping e) (s + 1) = Ok o ∧ (start_char < o.1)%Z) ∧
  (t <= last_token)%Z ∧
  (∃ o, py_index (offset_mapping e) t = Ok o ∧ (end_char <= o.2)%Z) ∧
  (∃ o, py_index (offset_mapping e) (t - 1) = Ok o ∧ (o.2 < end_char)%Z).
Proof.
  intros Hrange Hs He Hfo Hlo Hfirst Hlast H.
  unfold locate_answer in H. rewrite (answer_char_range_Ok _ _ _ Hrange) in H.
  rewrite Hrange in H. simpl in H. rewrite Hs in H. simpl in H.
  rewrite He in H. simpl in H. rewrite Hfo in H. simpl in H.
  destruct (Z.leb_spec first_offsets.1 start_char); [|lia].
  rewrite Hlo in H. simpl in H.
  destruct (Z.geb_spec last_offsets.2 end_char); [|lia]. simpl in H.
  inv_bind H. injection H as <- <-. rename a0 into r1, a1 into r2.
  destruct (context_start_bound (window_fuel e) (sequence_ids e) 0)
    as [_ Hts]; [lia|unfold window_fuel; lia|]. specialize (Hts _ Hs).
  pose proof (py_index_Ok_range _ _ _ Hfo) as Hrange_ts.
  destruct (move_start_spec _ _ _ _ _ Hts Ha) as (Hm1 & Hm2 & Hm3 & Hm4).
  destruct (move_end_spec _ _ _ _ _ Ha0) as (Hn1 & Hn2 & Hn3).
  assert (r1 ≠ first_token) as Hmoved.
  { intros ->. destruct (Hm4 ltac:(lia)) as (o & Ho & Hgt).
    rewrite Hfo in Ho. injection Ho as <-. lia. }
  assert (r2 ≠ last_token) as Hmoved'.
  { intros ->. destruct Hn3 as (o & Ho & Hlt).
    rewrite Hlo in Ho. injection Ho as <-. lia. }
  split; [lia|]. split; [apply Hm3; lia|]. split.
  { replace (r1 - 1 + 1)%Z with r1 by lia. exact Hm4. }
  split; [lia|]. split; [apply Hn2; lia|].
  by replace (r2 + 1 - 1)%Z with r2 by lia.
Qed.

Lemma bracketed_answer_positions_witness :
  (3 <= 3 < Z.of_nat (length (offset_mapping two_word_window)))%Z ∧
  (∃ o, py_index (offset_mapping two_word_window) 3 = Ok o ∧ (o.1 <= 0)%Z) ∧
  ((3 + 1 < Z.of_nat (length (offset_mapping two_word_window)))%Z →
   ∃ o, py_index (offset_mapping two_word_window) (3 + 1) = Ok o ∧ (0 < o.1)%Z) ∧
  (3 <= 4)%Z ∧
  (∃ o, py_index (offset_mapping two_word_window) 3 = Ok o ∧ (2 <= o.2)%Z) ∧
  (∃ o, py_index (offset_mapping two_word_window) (3 - 1) = Ok o ∧ (o.2 < 2)%Z).
Proof.
  apply (bracketed_answer_positions two_word_window 0%Z answer_ab 0%Z 2%Z
           3%Z 4%Z (0, 2)%Z (3, 5)%Z 3%Z 3%Z);
    try reflexivity; simpl; lia.
Defined.

(** X4: An answer that ends at or before the end of every token of the Window
    (an empty answer at character 0, for one) makes the backward scan leave
    the Window: labelling the Window ends with an [IndexError]. *)
Theorem answer_end_before_every_token_IndexError e cls_index a start_char
    end_char first_token last_token first_offsets :
  answer_char_range a = Ok (start_char, end_char) →
  context_start (window_fuel e) (sequence_ids e) 0 = Ok first_token →
  context_end (window_fuel e) (sequence_ids e)
    (Z.of_nat (length (input_ids e)) - 1) = Ok last_token →
  py_index (offset_mapping e) first_token = Ok first_offsets →
  (first_offsets.1 <= start_char)%Z →
  (∀ o, o ∈ offset_mapping e → (end_char <= o.2)%Z) →
  locate_answer e cls_index a = Raise IndexError.
Proof.
  intros Hrange Hs He Hfo Hfirst Hall.
  unfold locate_answer. rewrite (answer_char_range_Ok _ _ _ Hrange).
  rewrite Hrange. simpl. rewrite Hs. simpl. rewrite He. simpl.
  rewrite Hfo. simpl.
  destruct (Z.leb_spec first_offsets.1 start_char); [|lia].
  destruct (py_index (offset_mapping e) last_token) as [lo|e'|] eqn:Hlo; simpl.
  - assert (lo ∈ offset_mapping e) as Hin.
    { unfold py_index in Hlo. destruct (_ <? 0)%Z; [done|].
      destruct (offset_mapping e !! _) eqn:E; [|done]. injection Hlo as <-.
      by eapply list_elem_of_lookup_2. }
    destruct (Z.geb_spec lo.2 end_char) as [_|Hlt];
      [|specialize (Hall lo Hin); lia]. simpl.
    destruct (context_start_bound (window_fuel e) (sequence_ids e) 0)
      as [_ Hts]; [lia|unfold window_fuel; lia|]. specialize (Hts _ Hs).
    destruct (context_end_bound (window_fuel e) (sequence_ids e)
                (Z.of_nat (length (input_ids e)) - 1)) as [_ Hte];
      [unfold window_fuel; lia|]. specialize (Hte _ He).
    destruct (move_start _ _ _ _) as [r1|e1|] eqn:Hm; simpl.
    + destruct (move_end _ _ _ _) as [r2|e2|] eqn:Hn; simpl.
      * destruct (move_end_spec _ _ _ _ _ Hn) as (_ & _ & o & Ho & Hlt).
        assert (o ∈ offset_mapping e) as Hin'.
        { unfold py_index in Ho. destruct (_ <? 0)%Z; [done|].
          destruct (offset_mapping e !! _) eqn:E; [|done]. injection Ho as <-.
          by eapply list_elem_of_lookup_2. }
        specialize (Hall o Hin'). lia.
      * by rewrite (move_end_Raise _ _ _ _ _ Hn).
      * exfalso. revert Hn. apply move_end_bound. unfold window_fuel. lia.
    + exfalso. by eapply move_start_no_Raise.
    + exfalso. revert Hm. apply move_start_bound. unfold window_fuel. lia.
  - by rewrite (py_index_Raise _ _ _ Hlo).
  - by apply py_index_not_OutOfFuel in Hlo.
Qed.

Lemma answer_end_before_every_token_IndexError_witness :
  locate_answer two_word_window 0 empty_answer_at_0 = Raise IndexError.
Proof.
  apply (answer_end_before_every_token_IndexError two_word_window 0%Z
           empty_answer_at_0 0%Z 0%Z 3%Z 4%Z (0, 2)%Z);
    try reflexivity; try (simpl; lia).
  intros o Ho. simpl in Ho.
  repeat (apply elem_of_cons in Ho as [->|Ho]; [simpl; lia|]).
  by apply elem_of_nil in Ho.
Defined.

(** X5: A Window without context tokens cannot be labelled for an Example
    with an answer: the scan for the first context token leaves the Window
    and labelling ends with an [IndexError]. *)
Theorem window_without_context_IndexError e cls_index a start_char end_char :
  answer_char_range a = Ok (start_char, end_char) →
  (∀ sid, sid ∈ sequence_ids e → sid ≠ Some 1%Z) →
  locate_answer e cls_index a = Raise IndexError.
Proof.
  intros Hrange Hnone.
  unfold locate_answer. rewrite (answer_char_range_Ok _ _ _ Hrange).
  rewrite Hrange. simpl.
  destruct (context_start _ _ _) as [ts|e'|] eqn:Hs; simpl.
  - exfalso. destruct (context_start_first _ _ _ _ Hs) as [Hctx _].
    apply (Hnone (Some 1%Z)); [|done].
    unfold py_index in Hctx. destruct (_ <? 0)%Z; [done|].
    destruct (sequence_ids e !! _) eqn:E; [|done]. injection Hctx as ->.
    by eapply list_elem_of_lookup_2.
  - by rewrite (context_start_Raise _ _ _ _ Hs).
  - exfalso. revert Hs. apply context_start_bound; [lia|].
    unfold window_fuel. lia.
Qed.

Lemma window_without_context_IndexError_witness :
  locate_answer question_only_window 0 answer_cd = Raise IndexError.
Proof.
  apply (window_without_context_IndexError question_only_window 0%Z answer_cd
           3%Z 5%Z); [reflexivity|].
  intros sid Hsid. simpl in Hsid.
  repeat (apply elem_of_cons in Hsid as [->|Hsid]; [done|]).
  by apply elem_of_nil in Hsid.
Defined.

(** ** The evaluation pass *)

Lemma mask_window_spec id_column sample_mapping i e r :
  mask_window id_column sample_mapping i e = Ok r →
  (∃ sample_index,
     py_index sample_mapping (Z.of_nat i) = Ok sample_index ∧
     py_index id_column sample_index = Ok r.1) ∧
  input_ids r.2 = input_ids e ∧ sequence_ids r.2 = sequence_ids e ∧
  length (offset_mapping r.2) = length (offset_mapping e) ∧
  ∀ k o, offset_mapping e !! k = Some o →
    ∃ sid, sequence_ids e !! k = Some sid ∧
      offset_mapping r.2 !! k
      = Some (if bool_decide (sid = Some 1%Z) then o else ((-1)%Z, (-1)%Z)).
Proof.
  intros H. unfold mask_window in H. inv_bind H. injection H as <-. simpl.
  split; [eauto|]. split; [done|]. split; [done|].
  split; [by eapply for_each_indexed_Ok_length|].
  intros k o Hk.
  destruct (for_each_indexed_Ok_lookup _ _ _ _ _ _ Ha1 Hk) as (y & Hy & Hlook).
  simpl in Hy. inv_bind Hy. injection Hy as <-. rewrite py_index_nat in Ha2.
  destruct (sequence_ids e !! k) as [sid|]; [|done]. injection Ha2 as <-.
  eauto.
Qed.

(** X6: The evaluation pass keeps the tokens of every Window and the offsets of
    its context tokens, and replaces the offsets of every other token by
    [(-1, -1)]. *)
Theorem test_offsets_masked examples tokenizer tokenized out i e :
  tokenize_examples examples tokenizer = Ok tokenized →
  prepare_test_examples examples tokenizer = Ok out →
  encodings tokenized !! i = Some e →
  ∃ e', test_features out !! i = Some e' ∧
    input_ids e' = input_ids e ∧ sequence_ids e' = sequence_ids e ∧
    length (offset_mapping e') = length (offset_mapping e) ∧
    ∀ k o, offset_mapping e !! k = Some o →
      ∃ sid, sequence_ids e !! k = Some sid ∧
        offset_mapping e' !! k
        = Some (if bool_decide (sid = Some 1%Z) then o else ((-1)%Z, (-1)%Z)).
Proof.
  intros Htok H He. unfold prepare_test_examples in H. rewrite Htok in H.
  simpl in H. inv_bind H. injection H as <-. simpl.
  destruct (for_each_indexed_Ok_lookup _ _ _ _ _ _ Ha He) as (r & Hr & Hlook).
  exists r.2. rewrite list_lookup_fmap, Hlook. split; [done|].
  by destruct (mask_window_spec _ _ _ _ _ Hr) as (_ & ? & ? & ? & ?).
Qed.

(** X7: Every Window of the evaluation pass carries the id of the example it
    was cut from: the id at the position that the tokenizer's
    overflow-to-sample mapping gives for the Window. *)
Theorem test_feature_ids examples tokenizer tokenized out :
  tokenize_examples examples tokenizer = Ok tokenized →
  prepare_test_examples examples tokenizer = Ok out →
  length (feature_ids out) = length (encodings tokenized) ∧
  length (test_features out) = length (encodings tokenized) ∧
  ∀ i feature_id, feature_ids out !! i = Some feature_id →
    ∃ sample_index,
      py_index (overflow_to_sample_mapping tokenized) (Z.of_nat i)
      = Ok sample_index ∧
      py_index (ids examples) sample_index = Ok feature_id.
Proof.
  intros Htok H. unfold prepare_test_examples in H. rewrite Htok in H.
  simpl in H. inv_bind H. injection H as <-. simpl.
  rewrite !length_fmap, (for_each_indexed_Ok_length _ _ _ _ Ha).
  split; [done|]. split; [done|]. intros i fid Hi.
  rewrite list_lookup_fmap in Hi.
  destruct (a !! i) as [r|] eqn:Hr; [|done]. injection Hi as <-.
  apply for_each_indexed_Ok_Forall2 in Ha as Hall.
  destruct (lookup_lt_is_Some_2 (encodings tokenized) i) as [e He].
  { rewrite <- (for_each_indexed_Ok_length _ _ _ _ Ha).
    by eapply lookup_lt_Some. }
  destruct (for_each_indexed_Ok_lookup _ _ _ _ _ _ Ha He) as (r' & Hr' & Hlook).
  rewrite Hr in Hlook. injection Hlook as <-.
  by destruct (mask_window_spec _ _ _ _ _ Hr') as (? & _).
Qed.

Lemma test_offsets_masked_witness :
  ∃ e', test_features sample_test_outputs !! 0 = Some e' ∧
    input_ids e' = input_ids first_sample_window ∧
    sequence_ids e' = sequence_ids first_sample_window ∧
    length (offset_mapping e') = length (offset_mapping first_sample_window) ∧
    ∀ k o, offset_mapping first_sample_window !! k = Some o →
      ∃ sid, sequence_ids first_sample_window !! k = Some sid ∧
        offset_mapping e' !! k
        = Some (if bool_decide (sid = Some 1%Z) then o else ((-1)%Z, (-1)%Z)).
Proof.
  apply (test_offsets_masked unanswerable_batch (char_tokenizer 16)
           sample_tokenized sample_test_outputs 0 first_sample_window);
    vm_compute; reflexivity.
Defined.

Lemma test_feature_ids_witness :
  length (feature_ids sample_test_outputs) = length (encodings sample_tokenized) ∧
  length (test_features sample_test_outputs)
  = length (encodings sample_tokenized) ∧
  ∀ i feature_id, feature_ids sample_test_outputs !! i = Some feature_id →
    ∃ sample_index,
      py_index (overflow_to_sample_mapping sample_tokenized) (Z.of_nat i)
      = Ok sample_index ∧
      py_index (ids unanswerable_batch) sample_index = Ok feature_id.
Proof.
  apply (test_feature_ids unanswerable_batch (char_tokenizer 16)
           sample_tokenized sample_test_outputs);
    vm_compute; reflexivity.
Defined.

(** ** Numeric label mapping *)

(** X8: When every label of the batch is, in lower case, a key of the mapping,
    the labels are replaced one by one by their ids, whatever their case. *)
Theorem known_labels_numericalised (label2id : gmap string Z) examples_label :
  (∀ lbl, lbl ∈ examples_label → is_Some (label2id !! lower lbl)) →
  ∃ label_ids,
    _create_numerical_labels examples_label label2id = Ok label_ids ∧
    length label_ids = length examples_label ∧
    ∀ i lbl, examples_label !! i = Some lbl →
      label_ids !! i = label2id !! lower lbl.
Proof.
  intros Hknown. unfold _create_numerical_labels.
  destruct (for_each_is_Ok (λ lbl, dict_get label2id (lower lbl)) examples_label)
    as [label_ids Hids].
  { intros lbl Hlbl. destruct (Hknown lbl Hlbl) as [v Hv].
    exists v. unfold dict_get. by rewrite Hv. }
  rewrite Hids. exists label_ids. split; [done|].
  split; [by eapply for_each_Ok_length|]. intros i lbl Hi.
  destruct (for_each_Ok_lookup _ _ _ _ _ Hids Hi) as (v & Hv & ->).
  unfold dict_get in Hv. destruct (label2id !! lower lbl); congruence.
Qed.

Lemma known_labels_numericalised_witness :
  ∃ label_ids,
    _create_numerical_labels ["Positive"; "NEGATIVE"] sentiment_label2id
    = Ok label_ids ∧
    length label_ids = length ["Positive"; "NEGATIVE"] ∧
    ∀ i lbl, ["Positive"; "NEGATIVE"] !! i = Some lbl →
      label_ids !! i = sentiment_label2id !! lower lbl.
Proof.
  apply (known_labels_numericalised sentiment_label2id ["Positive"; "NEGATIVE"]).
  intros lbl Hlbl.
  repeat (apply elem_of_cons in Hlbl as [->|Hlbl]; [vm_compute; eauto|]).
  by apply elem_of_nil in Hlbl.
Defined.

(** ** More on the edit-distance strategy *)

Lemma distance_list_cons a s b t :
  distance_list (a :: s) (b :: t)
  = Nat.min (Nat.min (S (distance_list s (b :: t)))
                     (S (distance_list (a :: s) t)))
            ((if Ascii.eqb a b then 0 else 1) + distance_list s t).
Proof. reflexivity. Qed.

Lemma distance_list_refl s : distance_list s s = 0.
Proof.
  induction s as [|a s IH]; [done|].
  rewrite distance_list_cons, Ascii.eqb_refl, IH. lia.
Qed.

Lemma distance_list_zero s t : distance_list s t = 0 → s = t.
Proof.
  revert t. induction s as [|a s IH]; intros [|b t] H; try done.
  rewrite distance_list_cons in H.
  destruct (Ascii.eqb_spec a b) as [->|Hne]; [|lia].
  f_equal. apply IH. lia.
Qed.

Lemma distance_zero s1 s2 : distance s1 s2 = 0 ↔ s1 = s2.
Proof.
  unfold distance. split.
  - intros H. apply distance_list_zero in H.
    rewrite <- (string_of_list_ascii_of_string s1).
    rewrite <- (string_of_list_ascii_of_string s2). by rewrite H.
  - intros ->. apply distance_list_refl.
Qed.

(** X9: A raw prediction that equals a candidate label up to case is resolved
    to the first such candidate. *)
Theorem exact_prediction_resolved raw_predictions cfg labels b predicted_label
    i c :
  get_closest_word_edit_labels raw_predictions cfg = Ok labels →
  raw_predictions !! b = Some predicted_label →
  id2label cfg !! i = Some c →
  lower predicted_label = lower c →
  (∀ j c', (j < i)%nat → id2label cfg !! j = Some c' →
           lower predicted_label ≠ lower c') →
  labels !! b = Some c.
Proof.
  intros H Hb Hc Heq Hfirst. unfold get_closest_word_edit_labels in H.
  destruct (for_each_Ok_lookup _ _ _ _ _ H Hb) as (c0 & Hc0 & ->).
  destruct (closest_label_first_minimum _ _ _ Hc0)
    as (i0 & d & Hi0 & Hd & Hmin & Hbefore).
  assert (edit_distances (id2label cfg) predicted_label !! i = Some 0) as Hzero.
  { unfold edit_distances. rewrite list_lookup_fmap, Hc. simpl.
    f_equal. by apply distance_zero. }
  pose proof (Hmin _ _ Hzero) as Hd0.
  destruct (Nat.lt_trichotomy i0 i) as [Hlt|[->|Hgt]].
  - exfalso. apply (Hfirst i0 c0 Hlt Hi0).
    unfold edit_distances in Hd. rewrite list_lookup_fmap, Hi0 in Hd.
    injection Hd as Hd. apply distance_zero. lia.
  - congruence.
  - specialize (Hbefore _ _ Hgt Hzero). lia.
Qed.

Lemma exact_prediction_resolved_witness :
  ["negative"; "positive"] !! 0 = Some "negative".
Proof.
  apply (exact_prediction_resolved ["NEGATIVE"; "positive"]
           (sentiment_config ∅ [] 0) ["negative"; "positive"] 0 "NEGATIVE"
           1 "negative").
  - vm_compute. reflexivity.
  - reflexivity.
  - reflexivity.
  - vm_compute. reflexivity.
  - intros j c' Hj Hc'. destruct j as [|j]; [|lia].
    injection Hc' as <-. vm_compute. discriminate.
Defined.

(** X10: The label that the edit-distance strategy returns for an item is the
    first candidate at the least edit distance from the raw prediction of
    the item: no candidate is closer and every candidate before it is
    farther. *)
Theorem edit_labels_first_minimum raw_predictions cfg labels b predicted_label c :
  get_closest_word_edit_labels raw_predictions cfg = Ok labels →
  raw_predictions !! b = Some predicted_label →
  labels !! b = Some c →
  ∃ i d, id2label cfg !! i = Some c ∧
    edit_distances (id2label cfg) predicted_label !! i = Some d ∧
    (∀ j dj, edit_distances (id2label cfg) predicted_label !! j = Some dj →
             (d ≤ dj)%nat) ∧
    (∀ j dj, (j < i)%nat →
             edit_distances (id2label cfg) predicted_label !! j = Some dj →
             (d < dj)%nat).
Proof.
  intros H Hb Hc. unfold get_closest_word_edit_labels in H.
  destruct (for_each_Ok_lookup _ _ _ _ _ H Hb) as (c0 & Hc0 & Hl).
  rewrite Hc in Hl. injection Hl as ->.
  by apply closest_label_first_minimum.
Qed.

Lemma edit_labels_first_minimum_witness :
  ∃ i d, id2label (sentiment_config ∅ [] 0) !! i = Some "positive" ∧
    edit_distances (id2label (sentiment_config ∅ [] 0)) "xxxxxxxx" !! i = Some d ∧
    (∀ j dj, edit_distances (id2label (sentiment_config ∅ [] 0)) "xxxxxxxx" !! j
             = Some dj → (d ≤ dj)%nat) ∧
    (∀ j dj, (j < i)%nat →
             edit_distances (id2label (sentiment_config ∅ [] 0)) "xxxxxxxx" !! j
             = Some dj → (d < dj)%nat).
Proof.
  apply (edit_labels_first_minimum ["xxxxxxxx"] (sentiment_config ∅ [] 0)
           ["positive"] 0 "xxxxxxxx" "positive");
    vm_compute; reflexivity.
Defined.

(** X11: The edit-distance strategy fails exactly on a non-empty batch with an
    empty candidate set, with a [ValueError]; otherwise it returns one label
    per item. *)
Theorem edit_labels_empty_candidates raw_predictions cfg :
  (id2label cfg = [] ∧ raw_predictions ≠ [] ∧
   get_closest_word_edit_labels raw_predictions cfg = Raise ValueError) ∨
  ((id2label cfg ≠ [] ∨ raw_predictions = []) ∧
   ∃ labels, get_closest_word_edit_labels raw_predictions cfg = Ok labels ∧
             length labels = length raw_predictions).
Proof.
  unfold get_closest_word_edit_labels.
  destruct (id2label cfg) as [|c cs] eqn:Hcands.
  - destruct raw_predictions as [|p ps]; [right; by eauto|].
    left. by repeat split.
  - right. split; [by left|].
    destruct (for_each_is_Ok (closest_label (c :: cs)) raw_predictions)
      as [labels Hlabels].
    { intros p _. destruct (closest_label_Ok (c :: cs) p) as (l & -> & _);
        [done|by eexists]. }
    exists labels. split; [done|]. by eapply for_each_Ok_length.
Qed.

(** ** More on the log-probability strategy *)

Lemma for_each_Raise {A B} (f : A → result B) xs e e0 :
  (∀ x e', f x = Raise e' → e' = e0) →
  for_each f xs = Raise e → e = e0.
Proof.
  intros Hf. induction xs as [|x xs IH]; simpl; [done|].
  destruct (f x) as [y|e'|] eqn:Hx; simpl; [|intros [= <-]; eauto|done].
  destruct (for_each f xs) as [ys|e'|]; simpl; [done| |done].
  intros [= <-]. by apply IH.
Qed.

Lemma for_each_not_OutOfFuel {A B} (f : A → result B) xs :
  (∀ x, f x ≠ OutOfFuel) → for_each f xs ≠ OutOfFuel.
Proof.
  intros Hf. induction xs as [|x xs IH]; simpl; [done|].
  destruct (f x) as [y|e'|] eqn:Hx; simpl; [|done|by apply Hf in Hx].
  by destruct (for_each f xs) as [ys|e'|].
Qed.

Section MoreLogprobsFacts.
Context {score : Type} (ltb : score → score → bool).

Lemma first_step_column_outcome (al : list (list (list score))) id :
  first_step_column al id ≠ OutOfFuel ∧
  ∀ e, first_step_column al id = Raise e → e = IndexError.
Proof.
  unfold first_step_column. split.
  - apply for_each_not_OutOfFuel. intros item.
    destruct (py_index item 0) as [step0| |] eqn:E; simpl;
      [apply py_index_not_OutOfFuel|done|by apply py_index_not_OutOfFuel in E].
  - intros e. apply for_each_Raise. intros item e'.
    destruct (py_index item 0) as [step0|e''|] eqn:E; simpl.
    + apply py_index_Raise.
    + intros [= <-]. by eapply py_index_Raise.
    + done.
Qed.

(** Writing the columns either succeeds or ends with an [IndexError]. *)
Lemma fill_columns_outcome tokenizer (al : list (list (list score))) cands pred :
  fill_columns tokenizer al cands pred ≠ OutOfFuel ∧
  ∀ e, fill_columns tokenizer al cands pred = Raise e → e = IndexError.
Proof.
  revert pred. induction cands as [|c cs IH]; intros pred; simpl; [done|].
  destruct (py_index (tokenizer [lower c]) 0) as [ids0|e0|] eqn:E0; simpl.
  - destruct (py_index ids0 0) as [id|e1|] eqn:E1; simpl.
    + destruct (first_step_column_outcome al id) as [Hfuel Hraise].
      destruct (first_step_column al id) as [col|e2|]; simpl.
      * apply IH.
      * split; [done|]. intros e [= <-]. by apply Hraise.
      * done.
    + split; [done|]. intros e [= <-]. by eapply py_index_Raise.
    + by apply py_index_not_OutOfFuel in E1.
  - split; [done|]. intros e [= <-]. by eapply py_index_Raise.
  - by apply py_index_not_OutOfFuel in E0.
Qed.

Lemma fill_columns_ext tokenizer (al al' : list (list (list score))) cands pred :
  (∀ id, first_step_column al id = first_step_column al' id) →
  fill_columns tokenizer al cands pred = fill_columns tokenizer al' cands pred.
Proof.
  intros Hcol. revert pred. induction cands as [|c cs IH]; intros pred; simpl;
    [done|].
  destruct (py_index (tokenizer [lower c]) 0) as [ids0| |]; simpl; [|done..].
  destruct (py_index ids0 0) as [id| |]; simpl; [|done..].
  rewrite Hcol. destruct (first_step_column al' id); simpl; [|done..].
  apply IH.
Qed.

(** X12: Only the first generated position is read: the log-probabilities of
    the later generation steps do not change the result, be it the labels or
    an exception. *)
Theorem later_steps_ignored t rest tokenizer cfg :
  Forall (λ t', tensor_shape t' = tensor_shape t) rest →
  get_closest_logprobs_labels ltb (t :: rest) tokenizer cfg
  = get_closest_logprobs_labels ltb [t] tokenizer cfg.
Proof.
  intros Hshape. unfold get_closest_logprobs_labels.
  destruct (stack_cons t rest Hshape) as [al Hal].
  destruct (stack_cons t [] ltac:(constructor)) as [al' Hal'].
  rewrite Hal, Hal'.
  destruct (for_each _ (id2label cfg)) as [cands| |]; simpl mbind; [|done..].
  destruct (stack_Ok _ _ Hal) as (t0 & rest0 & [= <- <-] & Hlen & Hcol).
  destruct (stack_Ok _ _ Hal') as (t0 & rest0 & [= <- <-] & Hlen' & Hcol').
  rewrite Hlen, Hlen'.
  rewrite (fill_columns_ext tokenizer al al'); [done|].
  intros id. by rewrite Hcol, Hcol'.
Qed.

(** X13: A candidate whose prompt label has no token at all makes the call end
    with an [IndexError], for any non-empty tuple of log-probability tensors
    of one shape. *)
Theorem label_without_token_IndexError t rest tokenizer cfg candidate_labels c :
  Forall (λ t', tensor_shape t' = tensor_shape t) rest →
  for_each (dict_get (prompt_label_mapping cfg)) (id2label cfg)
  = Ok candidate_labels →
  c ∈ candidate_labels →
  tokenizer [lower c] = [[]] →
  get_closest_logprobs_labels ltb (t :: rest) tokenizer cfg = Raise IndexError.
Proof.
  intros Hshape Hcands Hc Htok. unfold get_closest_logprobs_labels.
  rewrite Hcands. simpl mbind.
  destruct (stack_cons t rest Hshape) as [al Hal]. rewrite Hal. simpl mbind.
  destruct (stack_Ok _ _ Hal) as (t0 & rest0 & [= <- <-] & Hlen & Hcol).
  destruct (fill_columns_outcome tokenizer al candidate_labels
              (replicate (length al) [])) as [Hfuel Hraise].
  destruct (fill_columns _ _ _ _) as [pred|e|] eqn:Hfill; simpl mbind.
  - exfalso.
    destruct (fill_columns_Ok tokenizer al t Hlen Hcol _ _ _ Hfill)
      as (ids & Hids & _); [by rewrite length_replicate|].
    apply list_elem_of_lookup in Hc as [k Hk].
    destruct (Forall2_lookup_l _ _ _ _ _ Hids Hk) as (id & _ & Hid).
    unfold first_token in Hid. by rewrite Htok in Hid.
  - by rewrite (Hraise e eq_refl).
  - done.
Qed.

End MoreLogprobsFacts.

Lemma later_steps_ignored_witness :
  get_closest_logprobs_labels Z.ltb (sample_step0 :: [sample_step1])
    word_tokenizer (sentiment_config danish_mapping [] 0)
  = get_closest_logprobs_labels Z.ltb [sample_step0] word_tokenizer
      (sentiment_config danish_mapping [] 0).
Proof.
  apply (later_steps_ignored Z.ltb sample_step0 [sample_step1]).
  repeat constructor.
Defined.

Lemma label_without_token_IndexError_witness :
  get_closest_logprobs_labels Z.ltb (sample_step0 :: [sample_step1])
    (λ texts, const [] <$> texts) (sentiment_config danish_mapping [] 0)
  = Raise IndexError.
Proof.
  apply (label_without_token_IndexError Z.ltb sample_step0 [sample_step1]
           (λ texts, const [] <$> texts) (sentiment_config danish_mapping [] 0)
           ["positiv"; "negativ"] "negativ").
  - repeat constructor.
  - vm_compute. reflexivity.
  - apply elem_of_cons. right. by constructor.
  - reflexivity.
Defined.

Lemma dict_get_missing_KeyError {V} (m : gmap string V) keys :
  (∃ k, k ∈ keys ∧ m !! k = None) →
  for_each (dict_get m) keys = Raise KeyError.
Proof.
  intros (k & Hin & Hnone).
  induction keys as [|k0 ks IH]; [by apply elem_of_nil in Hin|].
  simpl. destruct (m !! k0) as [v|] eqn:E.
  - assert (dict_get m k0 = Ok v) as -> by (unfold dict_get; by rewrite E).
    simpl. apply elem_of_cons in Hin as [->|Hin]; [congruence|].
    by rewrite IH.
  - assert (dict_get m k0 = Raise KeyError) as ->
      by (unfold dict_get; by rewrite E).
    done.
Qed.

(** X14: A canonical label without a prompt label makes the log-probability
    strategy end with a [KeyError], before the log-probabilities are looked
    at. *)
Theorem label_without_prompt_label_KeyError {score : Type}
    (ltb : score → score → bool) generation_logprobs tokenizer cfg lbl :
  lbl ∈ id2label cfg →
  prompt_label_mapping cfg !! lbl = None →
  get_closest_logprobs_labels ltb generation_logprobs tokenizer cfg
  = Raise KeyError.
Proof.
  intros Hin Hnone. unfold get_closest_logprobs_labels.
  rewrite dict_get_missing_KeyError; [done|]. eauto.
Qed.

Lemma label_without_prompt_label_KeyError_witness :
  get_closest_logprobs_labels Z.ltb [] word_tokenizer
    (sentiment_config (<["positive" := "positiv"]> ∅) [] 0)
  = Raise KeyError.
Proof.
  apply (label_without_prompt_label_KeyError Z.ltb [] word_tokenizer
           (sentiment_config (<["positive" := "positiv"]> ∅) [] 0) "negative").
  - apply elem_of_cons. right. by constructor.
  - vm_compute. reflexivity.
Defined.

(** ** When the few-shot sampler succeeds *)

Lemma filter_all {A} (Q : A → Prop) `{∀ x, Decision (Q x)} (l : list A) :
  (∀ x, x ∈ l → Q x) → filter Q l = l.
Proof.
  induction l as [|x l IH]; intros H'; [done|].
  rewrite filter_cons_True by (apply H'; by constructor).
  f_equal. apply IH. intros y Hy. apply H'. by constructor.
Qed.

(** Dropping the examples with the text of [ex] from a pool of pairwise
    distinct texts drops [ex] and nothing else. *)
Lemma filter_remove_text (P : example → Prop) `{∀ x, Decision (P x)}
    (pool : list example) ex :
  NoDup (text <$> pool) → ex ∈ pool →
  length (filter P (filter (λ x, text x ≠ text ex) pool))
  + (if decide (P ex) then 1 else 0)
  = length (filter P pool).
Proof.
  induction pool as [|x pool IH]; intros Hnodup Hin;
    [by apply elem_of_nil in Hin|].
  rewrite fmap_cons in Hnodup. apply NoDup_cons in Hnodup as [Hx Hnodup].
  apply elem_of_cons in Hin as [->|Hin].
  - rewrite filter_cons_False by (intros Hne; by apply Hne).
    rewrite (filter_all (λ y, text y ≠ text x) pool).
    + rewrite (filter_cons P). destruct (decide (P x)); simpl; lia.
    + intros y Hy Heq. apply Hx. rewrite <- Heq.
      apply list_elem_of_fmap. eauto.
  - assert (text x ≠ text ex) as Hne.
    { intros Heq. apply Hx. rewrite Heq. apply list_elem_of_fmap. eauto. }
    rewrite filter_cons_True by done. rewrite !(filter_cons P).
    specialize (IH Hnodup Hin).
    destruct (decide (P x)); simpl; lia.
Qed.

Section FewShotSuccess.
Variable dataset_shuffle : Z → list example → list example.
Variable random_shuffle : Z → list example → list example.

Lemma few_shot_loop_success fuel num_few_shots labels calls pool acc :
  (0 < length labels)%nat →
  NoDup (lower <$> labels) →
  NoDup (text <$> pool) →
  (num_few_shots - Z.of_nat (length acc) <= Z.of_nat fuel)%Z →
  (∀ j l, labels !! j = Some l →
     (length (filter (λ i, i `mod` length labels = j)
                (seq calls (Z.to_nat (num_few_shots - Z.of_nat (length acc)))))
      ≤ length (filter (λ x, lower (label x) = lower l) pool))%nat) →
  is_Ok (few_shot_loop fuel num_few_shots labels calls pool acc).
Proof.
  intros Hn Hlabels. revert calls pool acc.
  induction fuel as [|fuel IH]; intros calls pool acc Hpool Hfuel Hneed; simpl.
  - destruct (Z.ltb_spec (Z.of_nat (length acc)) num_few_shots); [lia|].
    by eexists.
  - destruct (Z.ltb_spec (Z.of_nat (length acc)) num_few_shots) as [Hlt|Hge];
      [|by eexists].
    destruct (lookup_lt_is_Some_2 labels (calls `mod` length labels))
      as [lbl Hlbl]; [apply Nat.mod_upper_bound; lia|].
    unfold cycle_next. rewrite Hlbl. simpl.
    set (r := Z.to_nat (num_few_shots - Z.of_nat (length acc) - 1)).
    assert (Z.to_nat (num_few_shots - Z.of_nat (length acc)) = S r) as Hr
      by (unfold r; lia).
    rewrite Hr in Hneed.
    pose proof (Hneed _ _ Hlbl) as Hfirst. simpl in Hfirst.
    rewrite filter_cons_True in Hfirst by done. simpl in Hfirst.
    destruct (filter (λ x, lower (label x) = lower lbl) pool)
      as [|ex matching] eqn:Hfilter; [simpl in Hfirst; lia|].
    assert (lower (label ex) = lower lbl ∧ ex ∈ pool) as [Hlabel Hin].
    { apply (list_elem_of_filter (λ x, lower (label x) = lower lbl)).
      rewrite Hfilter. by constructor. }
    apply IH.
    + apply (sublist_NoDup _ (text <$> pool)); [exact Hpool|].
      apply fmap_sublist, sublist_filter.
    + rewrite length_app. simpl. lia.
    + intros j l Hj. rewrite length_app. simpl.
      replace (Z.to_nat (num_few_shots - Z.of_nat (length acc + 1))) with r
        by (unfold r; lia).
      specialize (Hneed j l Hj). simpl in Hneed.
      pose proof (filter_remove_text (λ x, lower (label x) = lower l) pool ex
                    Hpool Hin) as Hrem.
      rewrite filter_cons in Hneed.
      destruct (decide (calls `mod` length labels = j)) as [Hj0|Hj0];
        destruct (decide (lower (label ex) = lower l)) as [Hl|Hl];
        simpl in Hneed; try lia.
      exfalso. apply Hj0. eapply (NoDup_lookup _ _ _ _ Hlabels).
      * by rewrite list_lookup_fmap, Hlbl.
      * rewrite list_lookup_fmap, Hj. simpl. congruence.
Qed.

(** X15: Over a training split of pairwise distinct texts and a non-empty label
    set of labels that differ in lower case, the sampler returns its examples
    exactly when, for every label, the split holds as many examples of the
    label as the cycle over the labels asks for: [(k + n - 1 - j) / n] for
    the [j]-th of [n] labels (counted from 0) and [k] examples. *)
Theorem few_shot_succeeds_iff_enough cfg train_dataset random_seed :
  (∀ seed l, dataset_shuffle seed l ≡ₚ l) →
  (0 < length (task_labels cfg))%nat →
  NoDup (lower <$> task_labels cfg) →
  NoDup (text <$> train_dataset) →
  is_Ok (_extract_few_shot_examples dataset_shuffle random_shuffle cfg
           train_dataset random_seed) ↔
  ∀ j l, task_labels cfg !! j = Some l →
    ((Z.to_nat (num_few_shot_examples cfg) + length (task_labels cfg) - 1 - j)
     / length (task_labels cfg)
     ≤ length (filter (λ x, lower (label x) = lower l) train_dataset))%nat.
Proof.
  intros Hperm Hn Hlabels Htexts. unfold _extract_few_shot_examples.
  set (pool := dataset_shuffle random_seed train_dataset).
  assert (pool ≡ₚ train_dataset) as Hpool by apply Hperm.
  split.
  - intros [out Hout]. inv_bind Hout. rename a into picks.
    destruct (few_shot_loop_spec (Z.to_nat (num_few_shot_examples cfg))
                (num_few_shot_examples cfg) (task_labels cfg) 0 pool [])
      as (_ & _ & Hok); [simpl; lia|].
    destruct (Hok picks Ha) as (new & Hnew & Hlen & Hnodup & Hpicks).
    simpl in Hnew, Hlen. subst new.
    intros j l Hj. pose proof (lookup_lt_Some _ _ _ Hj) as Hjn.
    rewrite <- cycle_count by done. rewrite <- Hpool.
    rewrite <- (filter_length_pointwise
                  (λ x, lower (label x) = lower l)
                  (λ i, i `mod` length (task_labels cfg) = j) picks
                  (seq 0 (Z.to_nat (num_few_shot_examples cfg)))).
    + apply submseteq_length, NoDup_submseteq.
      * apply NoDup_filter. by eapply NoDup_fmap_1.
      * intros x Hx. apply list_elem_of_filter in Hx as [HP Hx].
        apply list_elem_of_filter. split; [done|].
        apply list_elem_of_lookup in Hx as [i Hi].
        by destruct (Hpicks i x Hi) as [? _].
    + rewrite length_seq. lia.
    + intros i ex i' Hex Hi'. apply lookup_seq in Hi' as [-> _]. simpl.
      destruct (Hpicks i ex Hex) as (_ & l' & Hl' & Hlower). simpl in Hl'.
      split.
      * intros Heq. eapply (NoDup_lookup _ _ _ _ Hlabels).
        -- rewrite list_lookup_fmap, Hl'. simpl. by rewrite <- Hlower, Heq.
        -- by rewrite list_lookup_fmap, Hj.
      * intros Heq. rewrite Heq, Hj in Hl'. congruence.
  - intros Hneed.
    destruct (few_shot_loop_success (Z.to_nat (num_few_shot_examples cfg))
                (num_few_shot_examples cfg) (task_labels cfg) 0 pool [])
      as [picks Hpicks]; try done.
    + by rewrite Hpool.
    + simpl. lia.
    + intros j l Hj. pose proof (lookup_lt_Some _ _ _ Hj) as Hjn. simpl.
      rewrite Z.sub_0_r, cycle_count by done. rewrite Hpool. by apply Hneed.
    + rewrite Hpicks. by eexists.
Qed.
End FewShotSuccess.

Lemma few_shot_succeeds_iff_enough_witness :
  is_Ok (_extract_few_shot_examples reversing_shuffle reversing_shuffle
           few_shot_config sample_train 4242) ↔
  ∀ j l, task_labels few_shot_config !! j = Some l →
    ((Z.to_nat (num_few_shot_examples few_shot_config)
      + length (task_labels few_shot_config) - 1 - j)
     / length (task_labels few_shot_config)
     ≤ length (filter (λ x, lower (label x) = lower l) sample_train))%nat.
Proof.
  apply (few_shot_succeeds_iff_enough reversing_shuffle reversing_shuffle
           few_shot_config sample_train 4242).
  - intros seed l. apply reverse_Permutation.
  - simpl. lia.
  - apply (bool_decide_unpack _). vm_compute. reflexivity.
  - apply (bool_decide_unpack _). vm_compute. reflexivity.
Defined.

(** ** The inputs of the metrics *)

Lemma str_index_from_spec l x i r :
  str_index_from l x i = Ok r →
  (i <= r)%Z ∧ l !! Z.to_nat (r - i) = Some x ∧
  ∀ j, (j < Z.to_nat (r - i))%nat → l !! j ≠ Some x.
Proof.
  revert i. induction l as [|y l IH]; intros i H; simpl in H; [done|].
  destruct (String.eqb_spec y x) as [->|Hne].
  - injection H as <-. rewrite Z.sub_diag. split; [lia|]. split; [done|].
    intros j Hj. simpl in Hj. lia.
  - destruct (IH _ H) as (Hle & Hr & Hfirst).
    replace (Z.to_nat (r - i)) with (S (Z.to_nat (r - (i + 1)))) by lia.
    split; [lia|]. split; [done|]. intros [|j] Hj; simpl.
    + congruence.
    + apply Hfirst. lia.
Qed.

Lemma str_index_from_outcome l x i :
  (x ∈ l ∧ is_Ok (str_index_from l x i)) ∨
  ((x ∉ l) ∧ str_index_from l x i = Raise ValueError).
Proof.
  revert i. induction l as [|y l IH]; intros i; simpl.
  - right. split; [apply not_elem_of_nil|done].
  - destruct (String.eqb_spec y x) as [->|Hne].
    + left. split; [by constructor|by eexists].
    + destruct (IH (i + 1)%Z) as [[Hin Hok]|[Hin Hraise]].
      * left. split; [by constructor|done].
      * right. split; [|done]. intros H. apply elem_of_cons in H as [H|H];
          [by apply Hne|by apply Hin].
Qed.

Lemma str_index_Ok l x r :
  str_index l x = Ok r → (0 <= r)%Z ∧ l !! Z.to_nat r = Some x.
Proof.
  intros H. apply str_index_from_spec in H as (Hle & Hr & _).
  rewrite Z.sub_0_r in Hr. done.
Qed.

Lemma str_index_elem_of l x : x ∈ l → is_Ok (str_index l x).
Proof.
  intros Hin. destruct (str_index_from_outcome l x 0) as [[_ H]|[H _]]; done.
Qed.

Lemma str_index_is_Ok l x : is_Ok (str_index l x) → x ∈ l.
Proof.
  intros [r Hr]. destruct (str_index_from_outcome l x 0) as [[H _]|[_ H]];
    [done|]. unfold str_index in Hr. congruence.
Qed.

Lemma invert_fold_lookup items (acc : gmap string string) p l :
  foldl (λ acc item, <[item.2 := item.1]> acc) acc items !! p = Some l →
  (l, p) ∈ items ∨ acc !! p = Some l.
Proof.
  revert acc. induction items as [|[l' p'] items IH]; intros acc H; simpl in H.
  - by right.
  - apply IH in H as [H|H]; [left; by constructor|]. simpl in H.
    destruct (decide (p' = p)) as [->|Hne].
    + rewrite lookup_insert_eq in H. injection H as ->. left. by constructor.
    + rewrite lookup_insert_ne in H by done. by right.
Qed.

Lemma invert_fold_absent items (acc : gmap string string) p :
  p ∉ items.*2 →
  foldl (λ acc item, <[item.2 := item.1]> acc) acc items !! p = acc !! p.
Proof.
  revert acc. induction items as [|[l' p'] items IH]; intros acc H; simpl;
    [done|].
  rewrite fmap_cons in H. apply not_elem_of_cons in H as [Hne Hnot].
  rewrite IH by done. simpl. by rewrite lookup_insert_ne.
Qed.

Lemma invert_fold_NoDup items (acc : gmap string string) p l :
  NoDup items.*2 → (l, p) ∈ items →
  foldl (λ acc item, <[item.2 := item.1]> acc) acc items !! p = Some l.
Proof.
  revert acc. induction items as [|[l' p'] items IH]; intros acc Hnodup Hin;
    [by apply elem_of_nil in Hin|].
  rewrite fmap_cons in Hnodup. apply NoDup_cons in Hnodup as [Hnot Hnodup].
  simpl. apply elem_of_cons in Hin as [[= -> ->]|Hin].
  - rewrite invert_fold_absent by done. by rewrite lookup_insert_eq.
  - by apply IH.
Qed.

Section InvertedMapping.
Variable m : gmap string string.
Variable items : list (string * string).
Hypothesis Hitems : items ≡ₚ map_to_list m.

Lemma items_elem_of l p : (l, p) ∈ items ↔ m !! l = Some p.
Proof. rewrite Hitems. apply elem_of_map_to_list. Qed.

(** A prompt label of no label is no key of the inverted mapping. *)
Lemma invert_mapping_None p :
  (∀ l, m !! l ≠ Some p) → invert_mapping items !! p = None.
Proof.
  intros Hno. unfold invert_mapping.
  destruct (foldl _ ∅ items !! p) as [l|] eqn:E; [|done].
  apply invert_fold_lookup in E as [E|E]; [|done].
  apply items_elem_of in E. by destruct (Hno l).
Qed.

(** Where the prompt labels of different labels differ, the inverted
    mapping takes a prompt label to its label. *)
Lemma invert_mapping_lookup p l :
  NoDup items.*2 →
  invert_mapping items !! p = Some l ↔ m !! l = Some p.
Proof.
  intros Hnodup. unfold invert_mapping. split.
  - intros H. apply invert_fold_lookup in H as [H|H]; [|done].
    by apply items_elem_of.
  - intros H. apply invert_fold_NoDup; [done|by apply items_elem_of].
Qed.
End InvertedMapping.

Lemma for_each_Ok_all {A B} (f : A → result B) xs :
  is_Ok (for_each f xs) ↔ ∀ x, x ∈ xs → is_Ok (f x).
Proof.
  split; [|apply for_each_is_Ok].
  intros [ys Hys] x Hx. apply list_elem_of_lookup in Hx as [i Hi].
  destruct (for_each_Ok_lookup _ _ _ _ _ Hys Hi) as (y & Hy & _). by eexists.
Qed.

Lemma compute_metrics_Ok items model_outputs labels id2label ps rs :
  _compute_metrics items model_outputs labels id2label = Ok (ps, rs) ↔
  model_outputs ≠ [] ∧
  for_each (prediction_index id2label (invert_mapping items)) model_outputs
  = Ok ps ∧
  for_each (reference_index id2label) labels = Ok rs.
Proof.
  unfold _compute_metrics. destruct model_outputs as [|o outs].
  - simpl. split; [done|]. by intros [? _].
  - change (Ok (o :: outs) ≫= ?f) with (f (o :: outs)). cbv beta zeta. split.
    + intros H. inv_bind H. injection H as <- <-. done.
    + intros (_ & Hps & Hrs). rewrite Hps. simpl mbind. by rewrite Hrs.
Qed.

Lemma prediction_index_is_Ok id2label inverted pred :
  is_Ok (prediction_index id2label inverted pred) ↔
  ∀ s, pred = LabelStr s → ∃ l, inverted !! lower s = Some l ∧ l ∈ id2label.
Proof.
  destruct pred as [s|i]; simpl.
  - unfold dict_get. split.
    + intros [r Hr] s' [= <-]. destruct (inverted !! lower s) as [l|]; [|done].
      simpl in Hr. exists l. split; [done|]. apply str_index_is_Ok. by eexists.
    + intros H. destruct (H s eq_refl) as (l & -> & Hl). simpl.
      by apply str_index_elem_of.
  - split; [done|]. intros _. by eexists.
Qed.

Lemma reference_index_is_Ok id2label label :
  is_Ok (reference_index id2label label) ↔
  ∀ s, label = LabelStr s → lower s ∈ id2label.
Proof.
  destruct label as [s|i]; simpl.
  - split.
    + intros H s' [= <-]. by apply str_index_is_Ok.
    + intros H. apply str_index_elem_of. by apply H.
  - split; [done|]. intros _. by eexists.
Qed.

(** X16: Where the prompt labels of different labels differ, [_compute_metrics]
    reaches the metrics exactly when there is a model output, every model
    output that is a string is, in lower case, the prompt label of a label of
    [id2label], and every reference label that is a string is, in lower
    case, a label of [id2label]. *)
Theorem metric_inputs_succeed_iff (m : gmap string string) items
    model_outputs labels id2label :
  items ≡ₚ map_to_list m →
  NoDup items.*2 →
  is_Ok (_compute_metrics items model_outputs labels id2label) ↔
  model_outputs ≠ [] ∧
  (∀ s, LabelStr s ∈ model_outputs →
        ∃ l, m !! l = Some (lower s) ∧ l ∈ id2label) ∧
  (∀ s, LabelStr s ∈ labels → lower s ∈ id2label).
Proof.
  intros Hitems Hnodup. split.
  - intros [[ps rs] H]. apply compute_metrics_Ok in H as (Hne & Hps & Hrs).
    split; [done|]. split.
    + intros s Hs.
      assert (is_Ok (for_each (prediction_index id2label (invert_mapping items))
                       model_outputs)) as Hok by by eexists.
      rewrite for_each_Ok_all in Hok. specialize (Hok _ Hs).
      rewrite prediction_index_is_Ok in Hok.
      destruct (Hok s eq_refl) as (l & Hl & Hin). exists l. split; [|done].
      by apply (invert_mapping_lookup m items Hitems).
    + intros s Hs.
      assert (is_Ok (for_each (reference_index id2label) labels)) as Hok
        by by eexists.
      rewrite for_each_Ok_all in Hok. specialize (Hok _ Hs).
      rewrite reference_index_is_Ok in Hok. by apply Hok.
  - intros (Hne & Hpreds & Hrefs).
    destruct (for_each_is_Ok (prediction_index id2label (invert_mapping items))
                model_outputs) as [ps Hps].
    { intros pred Hpred. apply prediction_index_is_Ok. intros s ->.
      destruct (Hpreds s Hpred) as (l & Hl & Hin). exists l. split; [|done].
      by apply (invert_mapping_lookup m items Hitems). }
    destruct (for_each_is_Ok (reference_index id2label) labels) as [rs Hrs].
    { intros label Hlabel. apply reference_index_is_Ok. intros s ->.
      by apply Hrefs. }
    exists (ps, rs). by apply compute_metrics_Ok.
Qed.

Lemma metric_inputs_succeed_iff_witness :
  is_Ok (_compute_metrics danish_items [LabelStr "Negativ"; LabelInt 0]
           sample_references ["positive"; "negative"]) ↔
  [LabelStr "Negativ"; LabelInt 0%Z] ≠ [] ∧
  (∀ s, LabelStr s ∈ [LabelStr "Negativ"; LabelInt 0%Z] →
        ∃ l, danish_mapping !! l = Some (lower s)
             ∧ l ∈ ["positive"; "negative"]) ∧
  (∀ s, LabelStr s ∈ sample_references → lower s ∈ ["positive"; "negative"]).
Proof.
  apply (metric_inputs_succeed_iff danish_mapping danish_items
           [LabelStr "Negativ"; LabelInt 0%Z] sample_references
           ["positive"; "negative"]).
  - vm_compute. reflexivity.
  - apply (bool_decide_unpack _). vm_compute. reflexivity.
Defined.

(** X17: With prompt labels that differ between labels, a prediction and a
    reference label of one item that are both strings get the same class
    index exactly when the prediction, in lower case, is the prompt label of
    the reference label in lower case. *)
Theorem same_class_iff_prompt_label (m : gmap string string) items
    model_outputs labels id2label ps rs b p r i j :
  items ≡ₚ map_to_list m →
  NoDup items.*2 →
  _compute_metrics items model_outputs labels id2label = Ok (ps, rs) →
  model_outputs !! b = Some (LabelStr p) →
  labels !! b = Some (LabelStr r) →
  ps !! b = Some i → rs !! b = Some j →
  i = j ↔ m !! lower r = Some (lower p).
Proof.
  intros Hitems Hnodup H Hp Hr Hi Hj.
  apply compute_metrics_Ok in H as (_ & Hps & Hrs).
  destruct (for_each_Ok_lookup _ _ _ _ _ Hps Hp) as (i' & Hpi & Hi').
  destruct (for_each_Ok_lookup _ _ _ _ _ Hrs Hr) as (j' & Hrj & Hj').
  assert (i' = i) as -> by congruence. assert (j' = j) as -> by congruence.
  simpl in Hpi, Hrj. unfold dict_get in Hpi.
  destruct (invert_mapping items !! lower p) as [l|] eqn:Hl; [|done].
  simpl in Hpi. rewrite <- (invert_mapping_lookup m items Hitems) by done.
  rewrite Hl. split.
  - intros ->. apply str_index_Ok in Hpi as [_ Hpi], Hrj as [_ Hrj]. congruence.
  - intros [= ->]. congruence.
Qed.

Lemma same_class_iff_prompt_label_witness :
  0%Z = 0%Z ↔ danish_mapping !! lower "Positive" = Some (lower "POSITIV").
Proof.
  apply (same_class_iff_prompt_label danish_mapping danish_items
           [LabelStr "POSITIV"; LabelInt 0%Z] sample_references
           ["positive"; "negative"] [0; 0]%Z [0; 1]%Z 0
           "POSITIV" "Positive" 0%Z 0%Z).
  - vm_compute. reflexivity.
  - apply (bool_decide_unpack _). vm_compute. reflexivity.
  - vm_compute. reflexivity.
  - reflexivity.
  - reflexivity.
  - reflexivity.
  - reflexivity.
Defined.

(** ** From generated output to class indices *)

(** X18: When the generation returned log-probabilities, the prompt labels differ
    between labels and those of the candidates are in lower case, and every
    reference label that is a string is, in lower case, a label of
    [id2label], the labels extracted from the generation of a batch that is
    not empty are turned into class indices by [_compute_metrics]: the index
    of an item is that of a label of [id2label] whose prompt label was
    extracted for the item. *)
Theorem scored_labels_become_class_indices {score : Type}
    (ltb : score → score → bool) extract_raw_predictions
    (model_output : ModelOutput score) tokenizer cfg items labels preds :
  is_Some (scores model_output) →
  _extract_labels_from_generation ltb extract_raw_predictions model_output
    tokenizer cfg = Ok preds →
  preds ≠ [] →
  items ≡ₚ map_to_list (prompt_label_mapping cfg) →
  NoDup items.*2 →
  (∀ l p, l ∈ id2label cfg → prompt_label_mapping cfg !! l = Some p →
          lower p = p) →
  (∀ s, LabelStr s ∈ labels → lower s ∈ id2label cfg) →
  ∃ ps rs,
    _compute_metrics items (LabelStr <$> preds) labels (id2label cfg)
    = Ok (ps, rs) ∧
    ∀ b pred, preds !! b = Some pred →
      ∃ i l, ps !! b = Some (Z.of_nat i) ∧ id2label cfg !! i = Some l ∧
             prompt_label_mapping cfg !! l = Some pred.
Proof.
  intros [gen Hgen] H Hne Hitems Hnodup Hlower Hrefs.
  unfold _extract_labels_from_generation in H. rewrite Hgen in H.
  destruct (get_closest_logprobs_labels_Ok ltb _ _ _ _ H)
    as (t & rest & cands & ids & -> & Hcands & _ & _ & Hlen & Hrows).
  assert (∀ b pred, preds !! b = Some pred →
            ∃ l, l ∈ id2label cfg ∧ prompt_label_mapping cfg !! l = Some pred)
    as Hpreds.
  { intros b pred Hb.
    destruct (lookup_lt_is_Some_2 t b) as [row Hrow].
    { rewrite <- Hlen. by eapply lookup_lt_Some. }
    destruct (Hrows b row Hrow) as (sc & i & c & _ & _ & Hc & Hout).
    assert (c = pred) as -> by congruence.
    destruct (for_each_Ok_lookup_r _ _ _ _ _ Hcands Hc) as (l & Hl & Hget).
    exists l. split; [by eapply list_elem_of_lookup_2|].
    unfold dict_get in Hget.
    destruct (prompt_label_mapping cfg !! l); [congruence|done]. }
  destruct (for_each_is_Ok
              (prediction_index (id2label cfg) (invert_mapping items))
              (LabelStr <$> preds)) as [ps Hps].
  { intros x Hx. apply list_elem_of_fmap in Hx as (pred & -> & Hpred).
    apply list_elem_of_lookup in Hpred as [b Hb].
    destruct (Hpreds b pred Hb) as (l & Hin & Hl).
    apply prediction_index_is_Ok. intros s [= <-]. exists l. split; [|done].
    rewrite (Hlower l pred Hin Hl).
    by apply (invert_mapping_lookup _ items Hitems). }
  destruct (for_each_is_Ok (reference_index (id2label cfg)) labels)
    as [rs Hrs].
  { intros label Hlabel. apply reference_index_is_Ok. intros s ->.
    by apply Hrefs. }
  exists ps, rs. split.
  { apply compute_metrics_Ok. split; [|done]. by destruct preds. }
  intros b pred Hb.
  destruct (for_each_Ok_lookup _ _ _ b (LabelStr pred) Hps)
    as (z & Hz & Hpsb).
  { by rewrite list_lookup_fmap, Hb. }
  destruct (Hpreds b pred Hb) as (l & Hin & Hl).
  simpl in Hz. rewrite (Hlower l pred Hin Hl) in Hz.
  assert (invert_mapping items !! pred = Some l) as Hinv
    by by apply (invert_mapping_lookup _ items Hitems).
  unfold dict_get in Hz. rewrite Hinv in Hz. simpl in Hz.
  apply str_index_Ok in Hz as [Hz0 Hz].
  exists (Z.to_nat z), l. rewrite Z2Nat.id by done. done.
Qed.

Lemma scored_labels_become_class_indices_witness :
  ∃ ps rs,
    _compute_metrics danish_items (LabelStr <$> ["positiv"; "positiv"])
      sample_references (id2label danish_config) = Ok (ps, rs) ∧
    ∀ b pred, ["positiv"; "positiv"] !! b = Some pred →
      ∃ i l, ps !! b = Some (Z.of_nat i) ∧
             id2label danish_config !! i = Some l ∧
             prompt_label_mapping danish_config !! l = Some pred.
Proof.
  apply (scored_labels_become_class_indices Z.ltb misspelt_predictions
           scored_output word_tokenizer danish_config danish_items
           sample_references ["positiv"; "positiv"]).
  - by eexists.
  - vm_compute. reflexivity.
  - discriminate.
  - vm_compute. reflexivity.
  - apply (bool_decide_unpack _). vm_compute. reflexivity.
  - intros l p Hl Hp.
    repeat (apply elem_of_cons in Hl as [->|Hl];
            [vm_compute in Hp; by injection Hp as <-|]).
    by apply elem_of_nil in Hl.
  - intros s Hs.
    apply elem_of_cons in Hs as [[= ->]|Hs]; [apply (bool_decide_unpack _); vm_compute; reflexivity|].
    apply elem_of_cons in Hs as [Hs|Hs]; [discriminate|].
    by apply elem_of_nil in Hs.
Defined.

(** X19: When the generation returned no log-probabilities and no label of
    [id2label] is, in lower case, the prompt label of some label,
    [_compute_metrics] ends with a [KeyError] on the labels extracted from
    the generation of a batch that is not empty (the labels extracted are
    labels of [id2label], and [_compute_metrics] looks them up among the
    prompt labels). *)
Theorem edit_labels_are_no_prompt_labels {score : Type}
    (ltb : score → score → bool) extract_raw_predictions
    (model_output : ModelOutput score) tokenizer cfg items labels preds :
  scores model_output = None →
  _extract_labels_from_generation ltb extract_raw_predictions model_output
    tokenizer cfg = Ok preds →
  preds ≠ [] →
  items ≡ₚ map_to_list (prompt_label_mapping cfg) →
  (∀ c l, c ∈ id2label cfg → prompt_label_mapping cfg !! l ≠ Some (lower c)) →
  _compute_metrics items (LabelStr <$> preds) labels (id2label cfg)
  = Raise KeyError.
Proof.
  intros Hscores H Hne Hitems Hno.
  unfold _extract_labels_from_generation in H. rewrite Hscores in H.
  inv_bind H. rename a into generated. unfold get_closest_word_edit_labels in H.
  destruct preds as [|pred preds]; [done|].
  destruct (for_each_Ok_lookup_r _ _ _ 0 pred H eq_refl) as (raw & _ & Hc).
  apply closest_label_first_minimum in Hc as (i & _ & Hi & _).
  apply list_elem_of_lookup_2 in Hi.
  unfold _compute_metrics. simpl.
  unfold dict_get.
  rewrite (invert_mapping_None _ items Hitems (lower pred)); [done|].
  intros l. by apply Hno.
Qed.

Lemma edit_labels_are_no_prompt_labels_witness :
  _compute_metrics danish_items (LabelStr <$> ["negative"; "negative"])
    sample_references (id2label danish_config) = Raise KeyError.
Proof.
  apply (edit_labels_are_no_prompt_labels Z.ltb misspelt_predictions
           unscored_output word_tokenizer danish_config danish_items
           sample_references ["negative"; "negative"]).
  - reflexivity.
  - vm_compute. reflexivity.
  - discriminate.
  - vm_compute. reflexivity.
  - intros c l Hc Hl.
    assert ((l, lower c) ∈ danish_items) as Hin.
    { change danish_items with (map_to_list danish_mapping).
      by apply elem_of_map_to_list. }
    repeat (apply elem_of_cons in Hc as [->|Hc];
            [vm_compute in Hin;
             repeat (apply elem_of_cons in Hin as [Hin|Hin]; [discriminate|]);
             by apply elem_of_nil in Hin|]).
    by apply elem_of_nil in Hc.
Defined.

(** ** Few-shot prompts *)

Lemma for_each_first_failure {A B} (f : A → result B) xs e :
  (∀ x, x ∈ xs → is_Ok (f x) ∨ f x = Raise e) →
  ((∀ x, x ∈ xs → is_Ok (f x)) ∧ is_Ok (for_each f xs)) ∨
  ((∃ x, x ∈ xs ∧ f x = Raise e) ∧ for_each f xs = Raise e).
Proof.
  induction xs as [|x xs IH]; intros Hf.
  - left. split; [by intros x Hx; apply elem_of_nil in Hx|by eexists].
  - simpl. destruct (Hf x) as [[y Hy]|Hx]; [by constructor| |].
    + rewrite Hy. simpl.
      destruct IH as [[Hall [ys Hys]]|[(x' & Hin & Hx') Hraise]].
      * intros x' Hx'. apply Hf. by constructor.
      * left. split; [|rewrite Hys; by eexists].
        intros x' Hx'. apply elem_of_cons in Hx' as [->|Hx'];
          [by eexists|by apply Hall].
      * right. split; [|by rewrite Hraise].
        exists x'. split; [by constructor|done].
    + right. split; [|by rewrite Hx].
      exists x. split; [by constructor|done].
Qed.

Section FewShotPromptFacts.
Variable prompt_template_format : string → string → string.
Variable prompt_prefix : string.

Lemma apply_few_shot_prompt_cases cfg examples_text few_shot_examples :
  ((∀ ex, ex ∈ few_shot_examples →
          is_Some (prompt_label_mapping cfg !! lower (label ex))) ∧
   ∃ prompts,
     _apply_few_shot_prompt prompt_template_format prompt_prefix cfg
       examples_text few_shot_examples = Ok prompts ∧
     length prompts = length examples_text) ∨
  ((∃ ex, ex ∈ few_shot_examples ∧
          prompt_label_mapping cfg !! lower (label ex) = None) ∧
   _apply_few_shot_prompt prompt_template_format prompt_prefix cfg
     examples_text few_shot_examples = Raise KeyError).
Proof.
  unfold _apply_few_shot_prompt.
  destruct (for_each_first_failure
              (λ example,
                 label_arg ← dict_get (prompt_label_mapping cfg)
                                (lower (label example));
                 Ok (prompt_template_format
                       (strip (replace_char newline " " (text example)))
                       label_arg))
              few_shot_examples KeyError)
    as [[Hall [ps Hps]]|[(ex & Hin & Hex) Hraise]].
  - intros ex _. unfold dict_get.
    destruct (prompt_label_mapping cfg !! lower (label ex)); simpl;
      [left; by eexists|by right].
  - left. split.
    + intros ex Hex. destruct (Hall ex Hex) as [y Hy]. unfold dict_get in Hy.
      by destruct (prompt_label_mapping cfg !! lower (label ex)).
    + rewrite Hps. simpl. eexists. split; [done|]. by rewrite !length_fmap.
  - right. split; [|by rewrite Hraise].
    exists ex. split; [done|]. unfold dict_get in Hex.
    by destruct (prompt_label_mapping cfg !! lower (label ex)).
Qed.

(** X20: The few-shot examples decide whether a prompt can be built: the call
    returns one prompt per text of the batch exactly when every few-shot
    example has a label that is, in lower case, a key of the prompt label
    mapping, and it ends with a [KeyError] otherwise, whatever the batch. *)
Theorem few_shot_prompt_outcome cfg examples_text few_shot_examples :
  (is_Ok (_apply_few_shot_prompt prompt_template_format prompt_prefix cfg
            examples_text few_shot_examples) ↔
   ∀ ex, ex ∈ few_shot_examples →
         is_Some (prompt_label_mapping cfg !! lower (label ex))) ∧
  ((∃ prompts,
      _apply_few_shot_prompt prompt_template_format prompt_prefix cfg
        examples_text few_shot_examples = Ok prompts ∧
      length prompts = length examples_text) ∨
   _apply_few_shot_prompt prompt_template_format prompt_prefix cfg
     examples_text few_shot_examples = Raise KeyError).
Proof.
  destruct (apply_few_shot_prompt_cases cfg examples_text few_shot_examples)
    as [[Hall (prompts & Hok & Hlen)]|[(ex & Hin & Hnone) Hraise]].
  - rewrite Hok. split; [split; [done|by eexists]|]. left. by exists prompts.
  - rewrite Hraise. split; [|by right]. split.
    + by intros [? ?].
    + intros Hall. destruct (Hall ex Hin) as [p Hp]. congruence.
Qed.

(** X21: The examples picked by the few-shot sampler can be put into a prompt
    when every label of the task is, in lower case, a key of the prompt label
    mapping: the call on them returns one prompt per text of the batch. *)
Theorem sampled_examples_fill_prompt
    (dataset_shuffle random_shuffle : Z → list example → list example)
    cfg train_dataset random_seed few_shot_examples examples_text :
  (∀ seed l, random_shuffle seed l ≡ₚ l) →
  (∀ l, l ∈ task_labels cfg →
        is_Some (prompt_label_mapping cfg !! lower l)) →
  _extract_few_shot_examples dataset_shuffle random_shuffle cfg train_dataset
    random_seed = Ok few_shot_examples →
  ∃ prompts,
    _apply_few_shot_prompt prompt_template_format prompt_prefix cfg
      examples_text few_shot_examples = Ok prompts ∧
    length prompts = length examples_text.
Proof.
  intros Hperm Hkeys H. unfold _extract_few_shot_examples in H. inv_bind H.
  rename a into picks. injection H as <-.
  destruct (few_shot_loop_spec (Z.to_nat (num_few_shot_examples cfg))
              (num_few_shot_examples cfg) (task_labels cfg) 0
              (dataset_shuffle random_seed train_dataset) [])
    as (_ & _ & Hok); [simpl; lia|].
  destruct (Hok picks Ha) as (new & Hnew & _ & _ & Hpicks).
  simpl in Hnew. subst new.
  destruct (apply_few_shot_prompt_cases cfg examples_text
              (random_shuffle random_seed picks))
    as [[_ Hprompts]|[(ex & Hin & Hnone) _]]; [done|].
  exfalso. rewrite Hperm in Hin. apply list_elem_of_lookup in Hin as [i Hi].
  destruct (Hpicks i ex Hi) as (_ & l & Hl & Hlower).
  destruct (Hkeys l) as [p Hp]; [by eapply list_elem_of_lookup_2|].
  rewrite Hlower in Hnone. congruence.
Qed.
End FewShotPromptFacts.

Lemma sampled_examples_fill_prompt_witness :
  ∃ prompts,
    _apply_few_shot_prompt sample_template "Classify." prompted_config
      ["  fine"; "so so"] sampled_few_shots = Ok prompts ∧
    length prompts = length ["  fine"; "so so"].
Proof.
  apply (sampled_examples_fill_prompt sample_template "Classify."
           reversing_shuffle reversing_shuffle prompted_config sample_train
           4242 sampled_few_shots ["  fine"; "so so"]).
  - intros seed l. apply reverse_Permutation.
  - intros l Hl.
    repeat (apply elem_of_cons in Hl as [->|Hl]; [by eexists|]).
    by apply elem_of_nil in Hl.
  - vm_compute. reflexivity.
Defined.

Lemma few_shot_prompt_outcome_witness :
  (is_Ok (_apply_few_shot_prompt sample_template "Classify." few_shot_config
            ["so so"] sampled_few_shots) ↔
   ∀ ex, ex ∈ sampled_few_shots →
         is_Some (prompt_label_mapping few_shot_config !! lower (label ex))) ∧
  ((∃ prompts,
      _apply_few_shot_prompt sample_template "Classify." few_shot_config
        ["so so"] sampled_few_shots = Ok prompts ∧
      length prompts = length ["so so"]) ∨
   _apply_few_shot_prompt sample_template "Classify." few_shot_config
     ["so so"] sampled_few_shots = Raise KeyError).
Proof.
  apply (few_shot_prompt_outcome sample_template "Classify." few_shot_config
           ["so so"] sampled_few_shots).
Defined.

(** ** Training passes that end without exception *)

Lemma py_index_negative {A} (l : list A) (k : nat) x :
  l !! k = Some x →
  py_index l (Z.of_nat k - Z.of_nat (length l)) = Ok x.
Proof.
  intros Hk. pose proof (lookup_lt_Some _ _ _ Hk) as Hlt. unfold py_index.
  destruct (Z.ltb_spec (Z.of_nat k - Z.of_nat (length l)) 0); [|lia].
  replace (Z.of_nat k - Z.of_nat (length l) + Z.of_nat (length l))%Z
    with (Z.of_nat k) by lia.
  destruct (Z.ltb_spec (Z.of_nat k) 0); [lia|]. by rewrite Nat2Z.id, Hk.
Qed.

Lemma py_index_is_Ok {A} (l : list A) i :
  (- Z.of_nat (length l) <= i < Z.of_nat (length l))%Z → is_Ok (py_index l i).
Proof.
  intros H. destruct (Z_lt_ge_dec i 0) as [Hneg|Hpos].
  - destruct (lookup_lt_is_Some_2 l (Z.to_nat (i + Z.of_nat (length l))))
      as [x Hx]; [lia|].
    exists x. rewrite <- (py_index_negative l _ x Hx). f_equal. lia.
  - destruct (py_index_in_range l i) as [x Hx]; [lia|]. by exists x.
Qed.

Lemma list_index_from_found l x i :
  x ∈ l → is_Ok (list_index_from l x i).
Proof.
  revert i. induction l as [|y l IH]; intros i H; [by apply elem_of_nil in H|].
  simpl. destruct (Z.eqb_spec y x) as [->|Hne]; [by eexists|].
  apply IH. apply elem_of_cons in H as [H|H]; [congruence|done].
Qed.

Lemma for_each_indexed_is_Ok {A B} (f : nat → A → result B) n xs :
  (∀ i x, xs !! i = Some x → is_Ok (f (n + i) x)) →
  is_Ok (for_each_indexed f n xs).
Proof.
  revert n. induction xs as [|x xs IH]; intros n H; simpl; [by eexists|].
  destruct (H 0 x eq_refl) as [y Hy]. rewrite Nat.add_0_r in Hy.
  rewrite Hy. simpl.
  destruct (IH (S n)) as [ys ->]; [|by eexists].
  intros i x' Hx'. replace (S n + i) with (n + S i) by lia. by apply H.
Qed.

(** The forward scan finds the first context token when there is one. *)
Lemma context_start_is_Ok fuel l i c :
  (0 <= i <= Z.of_nat c)%Z → l !! c = Some (Some 1%Z) →
  (Z.of_nat (length l) - i <= Z.of_nat fuel)%Z →
  ∃ r, context_start fuel l i = Ok r ∧ (i <= r <= Z.of_nat c)%Z.
Proof.
  intros Hi Hc. pose proof (lookup_lt_Some _ _ _ Hc) as Hlt.
  revert i Hi. induction fuel as [|fuel IH]; intros i Hi Hf; simpl.
  - lia.
  - destruct (py_index_in_range l i) as [sid Hsid]; [lia|]. rewrite Hsid.
    simpl. case_bool_decide as Hne; [|exists i; split; [done|lia]].
    assert (i ≠ Z.of_nat c) as Hic.
    { intros ->. rewrite py_index_nat, Hc in Hsid. congruence. }
    destruct (IH (i + 1)%Z) as (r & Hr & Hrange); [lia..|].
    exists r. split; [done|lia].
Qed.

(** The backward scan finds the last context token when there is one. *)
Lemma context_end_is_Ok fuel l i c :
  (Z.of_nat c <= i < Z.of_nat (length l))%Z → l !! c = Some (Some 1%Z) →
  (i + Z.of_nat (length l) < Z.of_nat fuel)%Z →
  ∃ r, context_end fuel l i = Ok r ∧ (Z.of_nat c <= r <= i)%Z.
Proof.
  intros Hi Hc.
  revert i Hi. induction fuel as [|fuel IH]; intros i Hi Hf; simpl.
  - lia.
  - destruct (py_index_in_range l i) as [sid Hsid]; [lia|]. rewrite Hsid.
    simpl. case_bool_decide as Hne; [|exists i; split; [done|lia]].
    assert (i ≠ Z.of_nat c) as Hic.
    { intros ->. rewrite py_index_nat, Hc in Hsid. congruence. }
    destruct (IH (i - 1)%Z) as (r & Hr & Hrange); [lia..|].
    exists r. split; [done|lia].
Qed.

(** The backward scan over the offsets stops when some token, at the index
    it starts from or at an earlier index (the negative indices included),
    ends before the end of the answer. *)
Lemma move_end_is_Ok fuel offsets end_char i j o :
  (- Z.of_nat (length offsets) <= j <= i)%Z →
  (i < Z.of_nat (length offsets))%Z →
  py_index offsets j = Ok o → (o.2 < end_char)%Z →
  (i + Z.of_nat (length offsets) < Z.of_nat fuel)%Z →
  is_Ok (move_end fuel offsets end_char i).
Proof.
  intros Hj Hi Hjo Ho. revert i Hj Hi.
  induction fuel as [|fuel IH]; intros i Hj Hi Hf; simpl.
  - lia.
  - destruct (py_index_is_Ok offsets i) as [oi Hoi]; [lia|]. rewrite Hoi.
    simpl. destruct (Z.geb_spec oi.2 end_char) as [Hge|Hlt]; [|by eexists].
    assert (j ≠ i) as Hji by (intros ->; rewrite Hjo in Hoi; injection Hoi as <-; lia).
    apply IH; lia.
Qed.

Lemma locate_answer_is_Ok cls_token_id e cls_index a :
  aligned_window cls_token_id e a → is_Ok (locate_answer e cls_index a).
Proof.
  intros (_ & Hseq & Hoff & Hctx & Hanswer). unfold locate_answer.
  destruct Hanswer as [->|(start_char & end_char & Hrange & o & Ho & Hend)];
    [by eexists|].
  rewrite (answer_char_range_Ok _ _ _ Hrange), Hrange. simpl.
  apply list_elem_of_lookup in Hctx as [c Hc].
  pose proof (lookup_lt_Some _ _ _ Hc) as Hclt.
  destruct (context_start_is_Ok (window_fuel e) (sequence_ids e) 0 c)
    as (ts & -> & Hts); [lia|done|unfold window_fuel; lia|].
  simpl.
  destruct (context_end_is_Ok (window_fuel e) (sequence_ids e)
              (Z.of_nat (length (input_ids e)) - 1) c)
    as (te & -> & Hte); [lia|done|unfold window_fuel; lia|].
  simpl.
  destruct (py_index_in_range (offset_mapping e) ts) as [fo ->]; [lia|].
  simpl.
  destruct (py_index_in_range (offset_mapping e) te) as [lo Hlo]; [lia|].
  assert (∃ bracketed,
            (if (fo.1 <=? start_char)%Z
             then last_offsets ← py_index (offset_mapping e) te;
                  Ok (last_offsets.2 >=? end_char)%Z
             else Ok false) = Ok bracketed) as [bracketed ->].
  { destruct (fo.1 <=? start_char)%Z; [rewrite Hlo|]; by eexists. }
  simpl. destruct bracketed; simpl; [|by eexists].
  destruct (move_start (window_fuel e) (offset_mapping e) start_char ts)
    as [ts'|e'|] eqn:Hms; simpl.
  - apply list_elem_of_lookup in Ho as [k Hk].
    pose proof (lookup_lt_Some _ _ _ Hk) as Hklt.
    destruct (move_end_is_Ok (window_fuel e) (offset_mapping e) end_char te
                (Z.of_nat k - Z.of_nat (length (offset_mapping e))) o)
      as [te' ->]; [lia|lia|by apply py_index_negative|done|
                    unfold window_fuel; lia|].
    by eexists.
  - exfalso. revert Hms. apply move_start_no_Raise. lia.
  - exfalso. revert Hms. apply move_start_bound. unfold window_fuel. lia.
Qed.

(** X22: A training pass over aligned Windows ends without exception: when the
    tokenizer returns Windows that each hold the CLS token and a context
    token, with token ids, sequence ids and offsets of one length, that each
    belong to an Example of the batch, and of which one token ends before the
    end of the answer wherever the Example has an answer, the pass returns
    the Windows with one start and one end position each. *)
Theorem aligned_windows_are_labelled examples tokenizer tokenized :
  tokenize_examples examples tokenizer = Ok tokenized →
  (∀ i e, encodings tokenized !! i = Some e →
     ∃ sample_index a,
       py_index (overflow_to_sample_mapping tokenized) (Z.of_nat i)
       = Ok sample_index ∧
       py_index (answers examples) sample_index = Ok a ∧
       aligned_window (cls_token_id tokenizer) e a) →
  ∃ out, prepare_train_examples examples tokenizer = Ok out ∧
    train_features out = encodings tokenized ∧
    length (start_positions out) = length (encodings tokenized) ∧
    length (end_positions out) = length (encodings tokenized).
Proof.
  intros Htok Hwindows. unfold prepare_train_examples. rewrite Htok. simpl.
  destruct (for_each_indexed_is_Ok
              (label_window (cls_token_id tokenizer) (answers examples)
                 (overflow_to_sample_mapping tokenized))
              0 (encodings tokenized)) as [positions Hpositions].
  { intros i e He. simpl.
    destruct (Hwindows i e He) as (sample_index & a & Hs & Ha & Haligned).
    unfold label_window.
    destruct (list_index_from_found (input_ids e) (cls_token_id tokenizer) 0)
      as [cls_index Hcls]; [by destruct Haligned|].
    unfold list_index. rewrite Hcls. simpl. rewrite Hs. simpl. rewrite Ha.
    simpl. by eapply locate_answer_is_Ok. }
  rewrite Hpositions. simpl. eexists. split; [done|]. simpl.
  rewrite !length_fmap.
  by rewrite (for_each_indexed_Ok_length _ _ _ _ Hpositions).
Qed.

Lemma aligned_windows_are_labelled_witness :
  ∃ out,
    prepare_train_examples (answerable_batch [] []) (char_tokenizer 16)
    = Ok out ∧
    train_features out = encodings sample_tokenized ∧
    length (start_positions out) = length (encodings sample_tokenized) ∧
    length (end_positions out) = length (encodings sample_tokenized).
Proof.
  apply (aligned_windows_are_labelled (answerable_batch [] [])
           (char_tokenizer 16) sample_tokenized).
  - vm_compute. reflexivity.
  - intros i e He. exists 0%Z, answer_cd.
    destruct i as [|[|[|i]]]; simpl in He; [| | |discriminate He];
      injection He as <-;
      (split; [vm_compute; reflexivity|]);
      (split; [vm_compute; reflexivity|]);
      (split; [apply (list_elem_of_lookup_2 _ 0); reflexivity|]);
      (split; [reflexivity|]); (split; [reflexivity|]);
      (split; [apply (list_elem_of_lookup_2 _ 3); reflexivity|]);
      right; exists 3%Z, 5%Z; (split; [vm_compute; reflexivity|]);
      exists (0%Z, 0%Z); (split; [apply (list_elem_of_lookup_2 _ 0); reflexivity|]);
      simpl; lia.
Defined.

(** ** Evaluation passes that end without exception *)

(** X23: The evaluation pass of a tokenised batch ends without exception exactly
    when every Window belongs to an Example of the batch that has an id, and
    has a sequence id for each of its offsets. *)
Theorem test_pass_succeeds_iff examples tokenizer tokenized :
  tokenize_examples examples tokenizer = Ok tokenized →
  is_Ok (prepare_test_examples examples tokenizer) ↔
  ∀ i e, encodings tokenized !! i = Some e →
    (∃ sample_index,
       py_index (overflow_to_sample_mapping tokenized) (Z.of_nat i)
       = Ok sample_index ∧
       is_Ok (py_index (ids examples) sample_index)) ∧
    (length (offset_mapping e) ≤ length (sequence_ids e))%nat.
Proof.
  intros Htok. unfold prepare_test_examples. rewrite Htok. simpl. split.
  - intros [out H] i e He. inv_bind H.
    destruct (for_each_indexed_Ok_lookup _ _ _ _ _ _ Ha He) as (r & Hr & _).
    simpl in Hr.
    destruct (mask_window_spec _ _ _ _ _ Hr)
      as ((sample_index & Hs & Hid) & _ & _ & _ & Hoffsets).
    split; [exists sample_index; split; [done|by eexists]|].
    destruct (decide (length (offset_mapping e) ≤ length (sequence_ids e))%nat)
      as [|Hgt]; [done|].
    destruct (lookup_lt_is_Some_2 (offset_mapping e) (length (sequence_ids e)))
      as [o Ho]; [lia|].
    destruct (Hoffsets _ _ Ho) as (sid & Hsid & _).
    apply lookup_lt_Some in Hsid. lia.
  - intros Hwindows.
    destruct (for_each_indexed_is_Ok
                (mask_window (ids examples)
                   (overflow_to_sample_mapping tokenized))
                0 (encodings tokenized)) as [windows Hw]; [|rewrite Hw; by eexists].
    intros i e He. simpl.
    destruct (Hwindows i e He) as ((sample_index & Hs & [id Hid]) & Hlen).
    unfold mask_window. rewrite Hs. simpl. rewrite Hid. simpl.
    destruct (for_each_indexed_is_Ok
                (λ k o, sid ← py_index (sequence_ids e) (Z.of_nat k);
                        Ok (if bool_decide (sid = Some 1%Z) then o
                            else ((-1)%Z, (-1)%Z)))
                0 (offset_mapping e)) as [masked Hmasked];
      [|rewrite Hmasked; by eexists].
    intros k o Ho. simpl. rewrite py_index_nat.
    destruct (lookup_lt_is_Some_2 (sequence_ids e) k) as [sid ->];
      [apply lookup_lt_Some in Ho; lia|].
    by eexists.
Qed.

Lemma test_pass_succeeds_iff_witness :
  is_Ok (prepare_test_examples unanswerable_batch (char_tokenizer 16)) ↔
  ∀ i e, encodings sample_tokenized !! i = Some e →
    (∃ sample_index,
       py_index (overflow_to_sample_mapping sample_tokenized) (Z.of_nat i)
       = Ok sample_index ∧
       is_Ok (py_index (ids unanswerable_batch) sample_index)) ∧
    (length (offset_mapping e) ≤ length (sequence_ids e))%nat.
Proof.
  apply (test_pass_succeeds_iff unanswerable_batch (char_tokenizer 16)
           sample_tokenized).
  vm_compute. reflexivity.
Defined.

(** ** The character range of the answer *)

(** Labelling an aligned Window of an Example whose first answer span starts
    at [s] and has the text [t]: the positions are those of the characters
    [s] to [s + len t], whatever the further spans. *)
Lemma label_window_range cls_token_id answers_column sample_mapping i e
    sample_index s ss t ts :
  py_index sample_mapping (Z.of_nat i) = Ok sample_index →
  py_index answers_column sample_index
  = Ok {| answer_start := s :: ss; answer_text := t :: ts |} →
  aligned_window cls_token_id e
    {| answer_start := s :: ss; answer_text := t :: ts |} →
  ∃ p q,
    label_window cls_token_id answers_column sample_mapping i e = Ok (p, q) ∧
    positions_of_range cls_token_id e s (s + len t) p q.
Proof.
  intros Hs Ha (Hcls & Hseq & Hoff & Hctx & Hanswer).
  destruct Hanswer as [Hempty|(sc & ec & Hrange & o & Ho & Hend)];
    [discriminate Hempty|].
  injection Hrange as <- <-.
  unfold label_window.
  destruct (list_index_from_found (input_ids e) cls_token_id 0 Hcls)
    as [cls_index Hci].
  unfold list_index. rewrite Hci. simpl. rewrite Hs. simpl. rewrite Ha. simpl.
  apply list_index_from_spec in Hci as (Hc0 & Hcl & Hcfirst).
  rewrite Z.sub_0_r in Hcl, Hcfirst.
  unfold locate_answer. simpl.
  apply list_elem_of_lookup in Hctx as [c Hc].
  pose proof (lookup_lt_Some _ _ _ Hc) as Hclt.
  destruct (context_start_is_Ok (window_fuel e) (sequence_ids e) 0 c)
    as (f & Hf & Hfr); [lia|done|unfold window_fuel; lia|].
  destruct (context_end_is_Ok (window_fuel e) (sequence_ids e)
              (Z.of_nat (length (input_ids e)) - 1) c)
    as (l & Hl & Hlr); [lia|done|unfold window_fuel; lia|].
  rewrite Hf. simpl. rewrite Hl. simpl.
  destruct (context_start_first _ _ _ _ Hf) as [Hf1 Hf2].
  destruct (context_end_last _ _ _ _ Hl) as [Hl1 Hl2].
  destruct (py_index_in_range (offset_mapping e) f) as [fo Hfo]; [lia|].
  destruct (py_index_in_range (offset_mapping e) l) as [lo Hlo]; [lia|].
  rewrite Hfo. simpl.
  assert (first_context_token e (Z.to_nat f)) as Hfirst_ctx.
  { split.
    - rewrite <- (Z2Nat.id f) in Hf1 by lia. rewrite py_index_nat in Hf1.
      destruct (sequence_ids e !! Z.to_nat f); congruence.
    - intros j Hj Hlook. apply (Hf2 (Z.of_nat j)); [lia|].
      by rewrite py_index_nat, Hlook. }
  assert (last_context_token e (Z.to_nat l)) as Hlast_ctx.
  { split.
    - rewrite <- (Z2Nat.id l) in Hl1 by lia. rewrite py_index_nat in Hl1.
      destruct (sequence_ids e !! Z.to_nat l); congruence.
    - intros j Hj Hlook. pose proof (lookup_lt_Some _ _ _ Hlook) as Hjlt.
      apply (Hl2 (Z.of_nat j)); [lia|].
      by rewrite py_index_nat, Hlook. }
  assert (offset_mapping e !! Z.to_nat f = Some fo) as Hfo'.
  { rewrite <- (Z2Nat.id f) in Hfo by lia. rewrite py_index_nat in Hfo.
    destruct (offset_mapping e !! Z.to_nat f); congruence. }
  assert (offset_mapping e !! Z.to_nat l = Some lo) as Hlo'.
  { rewrite <- (Z2Nat.id l) in Hlo by lia. rewrite py_index_nat in Hlo.
    destruct (offset_mapping e !! Z.to_nat l); congruence. }
  assert (∀ p q,
            ((s < fo.1 ∨ lo.2 < s + len t)%Z ∧
             p = Z.of_nat (Z.to_nat cls_index) ∧
             q = Z.of_nat (Z.to_nat cls_index)) ∨
            ((fo.1 <= s ∧ s + len t <= lo.2)%Z ∧
             (Z.of_nat (Z.to_nat f) <= p
              < Z.of_nat (length (offset_mapping e)))%Z ∧
             (∀ j, (Z.of_nat (Z.to_nat f) <= j <= p)%Z →
                ∃ o, py_index (offset_mapping e) j = Ok o ∧ (o.1 <= s)%Z) ∧
             ((p + 1 < Z.of_nat (length (offset_mapping e)))%Z →
              ∃ o, py_index (offset_mapping e) (p + 1) = Ok o ∧ (s < o.1)%Z) ∧
             (q <= Z.of_nat (Z.to_nat l))%Z ∧
             (∀ j, (q <= j <= Z.of_nat (Z.to_nat l))%Z →
                ∃ o, py_index (offset_mapping e) j = Ok o ∧
                     (s + len t <= o.2)%Z) ∧
             (∃ o, py_index (offset_mapping e) (q - 1) = Ok o ∧
                   (o.2 < s + len t)%Z)) →
            positions_of_range cls_token_id e s (s + len t) p q) as Hpos.
  { intros p q Hcases.
    exists (Z.to_nat cls_index), (Z.to_nat f), (Z.to_nat l), fo, lo.
    split; [done|]. split; [done|]. split; [done|]. split; [done|].
    split; [done|]. split; [done|]. exact Hcases. }
  destruct (Z.leb_spec fo.1 s) as [Hle|Hgt].
  - rewrite Hlo. simpl.
    destruct (Z.geb_spec lo.2 (s + len t)) as [Hge|Hlt]; simpl.
    + destruct (move_start (window_fuel e) (offset_mapping e) s f)
        as [r1|e'|] eqn:Hms; simpl.
      * apply list_elem_of_lookup in Ho as [k Hk].
        pose proof (lookup_lt_Some _ _ _ Hk) as Hklt.
        destruct (move_end_is_Ok (window_fuel e) (offset_mapping e)
                    (s + len t) l
                    (Z.of_nat k - Z.of_nat (length (offset_mapping e))) o)
          as [r2 Hme]; [lia|lia|by apply py_index_negative|done|
                        unfold window_fuel; lia|].
        rewrite Hme. simpl. eexists _, _. split; [done|].
        assert (0 <= f)%Z as Hf0 by lia.
        destruct (move_start_spec _ _ _ _ _ Hf0 Hms)
          as (Hm1 & Hm2 & Hm3 & Hm4).
        destruct (move_end_spec _ _ _ _ _ Hme) as (Hn1 & Hn2 & Hn3).
        assert (r1 ≠ f) as Hmoved.
        { intros ->. destruct (Hm4 ltac:(lia)) as (o' & Ho' & Hgt).
          rewrite Hfo in Ho'. injection Ho' as <-. lia. }
        assert (r2 ≠ l) as Hmoved'.
        { intros ->. destruct Hn3 as (o' & Ho' & Hlt).
          rewrite Hlo in Ho'. injection Ho' as <-. lia. }
        apply Hpos. right. rewrite !Z2Nat.id by lia.
        split; [lia|]. split; [lia|].
        split; [intros j Hj; apply Hm3; lia|]. split.
        { replace (r1 - 1 + 1)%Z with r1 by lia. exact Hm4. }
        split; [lia|]. split; [intros j Hj; apply Hn2; lia|].
        by replace (r2 + 1 - 1)%Z with r2 by lia.
      * exfalso. revert Hms. apply move_start_no_Raise. lia.
      * exfalso. revert Hms. apply move_start_bound. unfold window_fuel. lia.
    + eexists _, _. split; [done|]. apply Hpos. left.
      rewrite Z2Nat.id by lia. split; [lia|done].
  - simpl. eexists _, _. split; [done|]. apply Hpos. left.
    rewrite Z2Nat.id by lia. split; [lia|done].
Qed.

(** C10: in a training pass the character range of an answer is that of the
    first answer span, from its start character to that start plus the length
    of its text, and the further answer spans of an Example have no effect on
    the positions.  Over aligned Windows, two batches that differ in these
    further spans only return the same Windows and positions; and for every
    Window of an Example whose first span starts at [s] and has the text
    [t], whatever its further spans, the start and end positions returned
    are those of the characters [s] to [s + len t]: the tokens at the two
    ends of these characters when the context of the Window brackets them,
    the position of the CLS token twice when it does not. *)
Theorem first_answer_span_only examples examples' tokenizer tokenized :
  questions examples = questions examples' →
  contexts examples = contexts examples' →
  Forall2 same_first_span (answers examples) (answers examples') →
  tokenize_examples examples tokenizer = Ok tokenized →
  (∀ i e, encodings tokenized !! i = Some e →
     ∃ sample_index a,
       py_index (overflow_to_sample_mapping tokenized) (Z.of_nat i)
       = Ok sample_index ∧
       py_index (answers examples) sample_index = Ok a ∧
       aligned_window (cls_token_id tokenizer) e a) →
  ∃ out,
    prepare_train_examples examples tokenizer = Ok out ∧
    prepare_train_examples examples' tokenizer = Ok out ∧
    ∀ i e sample_index s ss t ts,
      encodings tokenized !! i = Some e →
      py_index (overflow_to_sample_mapping tokenized) (Z.of_nat i)
      = Ok sample_index →
      py_index (answers examples) sample_index
      = Ok {| answer_start := s :: ss; answer_text := t :: ts |} →
      ∃ p q,
        start_positions out !! i = Some p ∧ end_positions out !! i = Some q ∧
        positions_of_range (cls_token_id tokenizer) e s (s + len t) p q.
Proof.
  intros Hq Hc Ha Htok Hwindows.
  rewrite <- (prepare_train_examples_first_span examples examples' tokenizer
                Hq Hc Ha).
  unfold prepare_train_examples. rewrite Htok. simpl.
  destruct (for_each_indexed_is_Ok
              (label_window (cls_token_id tokenizer) (answers examples)
                 (overflow_to_sample_mapping tokenized))
              0 (encodings tokenized)) as [positions Hpositions].
  { intros i e He. simpl.
    destruct (Hwindows i e He) as (sample_index & a & Hs & Hans & Haligned).
    unfold label_window.
    destruct (list_index_from_found (input_ids e) (cls_token_id tokenizer) 0)
      as [cls_index Hcls]; [by destruct Haligned|].
    unfold list_index. rewrite Hcls. simpl. rewrite Hs. simpl. rewrite Hans.
    simpl. by eapply locate_answer_is_Ok. }
  rewrite Hpositions. simpl. eexists. split; [done|]. split; [done|].
  intros i e sample_index s ss t ts He Hs Hans. simpl.
  destruct (Hwindows i e He) as (sample_index' & a & Hs' & Hans' & Haligned).
  rewrite Hs in Hs'. injection Hs' as <-.
  rewrite Hans in Hans'. injection Hans' as <-.
  destruct (label_window_range _ _ _ _ _ _ _ _ _ _ Hs Hans Haligned)
    as (p & q & Hlabel & Hrange).
  destruct (for_each_indexed_Ok_lookup _ _ _ _ _ _ Hpositions He)
    as (y & Hy & Hlook).
  simpl in Hy. rewrite Hlabel in Hy. injection Hy as <-.
  exists p, q. rewrite !list_lookup_fmap, Hlook. done.
Qed.

Lemma first_answer_span_only_witness :
  ∃ out,
    prepare_train_examples (answerable_batch [] []) (char_tokenizer 16)
    = Ok out ∧
    prepare_train_examples (answerable_batch [9%Z; 0%Z] ["ef"; "ab"])
      (char_tokenizer 16) = Ok out ∧
    ∀ i e sample_index s ss t ts,
      encodings sample_tokenized !! i = Some e →
      py_index (overflow_to_sample_mapping sample_tokenized) (Z.of_nat i)
      = Ok sample_index →
      py_index (answers (answerable_batch [] [])) sample_index
      = Ok {| answer_start := s :: ss; answer_text := t :: ts |} →
      ∃ p q,
        start_positions out !! i = Some p ∧ end_positions out !! i = Some q ∧
        positions_of_range (cls_token_id (char_tokenizer 16)) e s (s + len t)
          p q.
Proof.
  apply (first_answer_span_only (answerable_batch [] [])
           (answerable_batch [9%Z; 0%Z] ["ef"; "ab"]) (char_tokenizer 16)
           sample_tokenized).
  - reflexivity.
  - reflexivity.
  - constructor; [|constructor]. right.
    exists 3%Z, [], [9%Z; 0%Z], "cd", [], ["ef"; "ab"]. split; reflexivity.
  - vm_compute. reflexivity.
  - intros i e He. exists 0%Z, answer_cd.
    destruct i as [|[|[|i]]]; simpl in He; [| | |discriminate He];
      injection He as <-;
      (split; [vm_compute; reflexivity|]);
      (split; [vm_compute; reflexivity|]);
      (split; [apply (list_elem_of_lookup_2 _ 0); reflexivity|]);
      (split; [reflexivity|]); (split; [reflexivity|]);
      (split; [apply (list_elem_of_lookup_2 _ 3); reflexivity|]);
      right; exists 3%Z, 5%Z; (split; [vm_compute; reflexivity|]);
      exists (0%Z, 0%Z); (split; [apply (list_elem_of_lookup_2 _ 0); reflexivity|]);
      simpl; lia.
Defined.

(** The positions of the pass for the first span ["cd"] at character 3,
    with and without further spans: the tokens 6 and 7 of the first Window,
    whose context holds the characters 3 to 5, and the CLS token for the
    Windows that start after character 3. *)
Example first_span_positions :
  prepare_train_examples (answerable_batch [9%Z; 0%Z] ["ef"; "ab"])
    (char_tokenizer 16)
  = Ok {| train_features := encodings sample_tokenized;
          start_positions := [6; 0; 0]%Z;
          end_positions := [7; 0; 0]%Z |}.
Proof. vm_compute. reflexivity. Qed.
